(** * Pack reconciliation and host targeting of the fleet MySQL datastore

    A shallow embedding of [ApplyPackSpecs], [applyPackSpec], [GetPackSpecs],
    [PackByName], [Pack], [ListPacks], [ListLabelsForPack],
    [ListPacksForHost], [ListHostsInPack] and [ListExplicitHostsInPack]
    (package mysql, third part of src/cmd/fleetctl/api.go), and of the
    logging middleware of the label service
    (src/server/service/logging_labels.go).

    Tables are lists of rows in insertion order.  Every SQL statement of the
    source is a function over the tables; a join is the nested iteration of
    its FROM clause, in textual order.  The store is explicit state: the
    committed tables, the working copy of the open transaction, and the list
    of infrastructure failures that the coming store calls will meet. *)

From Stdlib Require Import List String Ascii Bool NArith ZArith Lia Permutation DecimalString.
Import ListNotations.
Open Scope N_scope.
Open Scope list_scope.

Infix "+++" := String.append (at level 60, right associativity).

(* ================================================================== *)
(** ** Go errors *)

(** The [error] values the code builds or receives.  A Go [error] that may
    be nil is an [option error]. *)
Inductive error : Type :=
| MySQLError (Number : N) (Message : string)   (* *mysql.MySQLError *)
| ErrNoRows                                    (* sql.ErrNoRows *)
| ErrTxDone                                    (* sql.ErrTxDone *)
| fundamental (msg : string)                   (* errors.New, errors.Errorf *)
| withMessage (cause : error) (msg : string)   (* errors.Wrap, errors.Wrapf *)
| notFoundError (kind : string) (id : N).      (* notFound(kind).WithID(id) *)

Definition decimal (n : N) : string := NilEmpty.string_of_uint (N.to_uint n).

(** [err.Error()]. *)
Fixpoint Error (e : error) : string :=
  match e with
  | MySQLError n m => "Error " +++ decimal n +++ ": " +++ m
  | ErrNoRows => "sql: no rows in result set"
  | ErrTxDone => "sql: Transaction has already been committed or rolled back"
  | fundamental m => m
  | withMessage c m => m +++ ": " +++ Error c
  | notFoundError k i => k +++ " " +++ decimal i +++ " was not found in the datastore"
  end.

(** [errors.Wrap(err, msg)]: nil stays nil. *)
Definition Wrap (err : option error) (msg : string) : option error :=
  match err with
  | None => None
  | Some e => Some (withMessage e msg)
  end.

Definition is_ErrNoRows (e : error) : bool :=
  match e with ErrNoRows => true | _ => false end.

Definition is_ErrTxDone (e : error) : bool :=
  match e with ErrTxDone => true | _ => false end.

(** MySQL server error numbers. *)
Definition ER_BAD_NULL_ERROR : N := 1048.
Definition ER_SUBQUERY_NO_1_ROW : N := 1242.
Definition ER_NO_REFERENCED_ROW_2 : N := 1452.

(** Modelled from the spec: [isChildForeignKeyError] is a helper of package
    mysql that is not part of the sources at hand; the spec describes the
    class it recognises as an insert that "fails due to a reference to a
    nonexistent" parent row, which MySQL reports as error 1452. *)
Definition isChildForeignKeyError (err : option error) : bool :=
  match err with
  | Some (MySQLError n _) => N.eqb n ER_NO_REFERENCED_ROW_2
  | _ => false
  end.

(* ================================================================== *)
(** ** The spec model (package kolide) *)

Module kolide.

Record PackSpecQuery : Type := {
  QueryName : string;
  QName : string;              (* field Name *)
  QDescription : string;       (* field Description *)
  Interval : N;
  Snapshot : option bool;
  Removed : option bool;
  Shard : option N;
  QPlatform : option string;   (* field Platform *)
  Version : option string
}.

Record PackSpecTargets : Type := { Labels : list string }.

Record PackSpec : Type := {
  ID : N;
  Name : string;
  Description : string;
  Platform : string;
  Targets : PackSpecTargets;
  Queries : list PackSpecQuery
}.

(** [kolide.TargetLabel], [kolide.TargetHost]. *)
Inductive TargetType : Type := TargetLabel | TargetHost.

Definition TargetType_eqb (a b : TargetType) : bool :=
  match a, b with
  | TargetLabel, TargetLabel | TargetHost, TargetHost => true
  | _, _ => false
  end.

(** Modelled from the spec: [kolide.ListOptions] and
    [appendListOptionsToSQL] are not part of the sources at hand; the spec
    calls them a generic "offset+limit+sort" modifier layered on top of the
    base query.  Sorting is left out: the results below are read as sets. *)
Record ListOptions : Type := { Offset : nat; Limit : option nat }.

Definition noListOptions : ListOptions := {| Offset := 0; Limit := None |}.

Definition appendListOptionsToSQL {A : Type} (query : list A) (opt : ListOptions) : list A :=
  match Limit opt with
  | None => skipn (Offset opt) query
  | Some n => firstn n (skipn (Offset opt) query)
  end.

(** [kolide.Pack]: what [SELECT *] reads from a row of [packs]. *)
Record Pack : Type := {
  p_id : N;
  p_name : string;
  p_description : string;
  p_platform : string;
  p_disabled : bool;
  p_deleted : bool
}.

(** [kolide.Label], with the columns the code names. *)
Record Label : Type := { l_id : N; l_name : string; l_deleted : bool }.

End kolide.
Import kolide.

(* ================================================================== *)
(** ** Tables *)

Record ScheduledQueryRow : Type := {
  sq_pack_id : N;
  sq_query_name : string;
  sq_name : string;
  sq_description : string;
  sq_interval : N;
  sq_snapshot : option bool;
  sq_removed : option bool;
  sq_shard : option N;
  sq_platform : option string;
  sq_version : option string
}.

(** [target_id] is [None] for SQL NULL. *)
Record PackTargetRow : Type := {
  pt_pack_id : N;
  pt_type : TargetType;
  pt_target_id : option N
}.

Record QueryRow : Type := { q_id : N; q_name : string }.

Record HostRow : Type := { h_id : N }.

Record LabelQueryExecutionRow : Type := {
  lqe_host_id : N;
  lqe_label_id : N;
  lqe_matches : bool
}.

(** A row of [packs] is a [kolide.Pack], a row of [labels] a [kolide.Label].
    The schema lives in migrations that are not part of the sources at hand.
    Modelled from the spec: pack names are unique (the key that
    ON DUPLICATE KEY UPDATE meets), scheduled queries carry a foreign key to
    packs and, by name, to queries, and pack targets a foreign key to packs.
    Whether [pack_targets.target_id] accepts NULL is not said anywhere, so
    it is a field of the store: [target_id_not_null]. *)
Record Tables : Type := {
  packs : list Pack;
  scheduled_queries : list ScheduledQueryRow;
  pack_targets : list PackTargetRow;
  labels : list Label;
  queries : list QueryRow;
  hosts : list HostRow;
  label_query_executions : list LabelQueryExecutionRow;
  target_id_not_null : bool
}.

Definition set_packs (ps : list Pack) (t : Tables) : Tables :=
  {| packs := ps; scheduled_queries := scheduled_queries t;
     pack_targets := pack_targets t; labels := labels t; queries := queries t;
     hosts := hosts t; label_query_executions := label_query_executions t;
     target_id_not_null := target_id_not_null t |}.

Definition set_scheduled_queries (qs : list ScheduledQueryRow) (t : Tables) : Tables :=
  {| packs := packs t; scheduled_queries := qs;
     pack_targets := pack_targets t; labels := labels t; queries := queries t;
     hosts := hosts t; label_query_executions := label_query_executions t;
     target_id_not_null := target_id_not_null t |}.

Definition set_pack_targets (ts : list PackTargetRow) (t : Tables) : Tables :=
  {| packs := packs t; scheduled_queries := scheduled_queries t;
     pack_targets := ts; labels := labels t; queries := queries t;
     hosts := hosts t; label_query_executions := label_query_executions t;
     target_id_not_null := target_id_not_null t |}.

(* ================================================================== *)
(** ** The store and its calls *)

(** [committed] is what every reader outside a transaction sees; [tx] is the
    working copy of the transaction that is open, if one is; [faults] lists,
    call by call, the infrastructure failure the next store call meets
    ([None]: the call reaches the tables; an exhausted list: no failure). *)
Record Datastore : Type := {
  committed : Tables;
  tx : option Tables;
  faults : list (option error)
}.

Definition connect (t : Tables) : Datastore :=
  {| committed := t; tx := None; faults := [] |}.

(** A Go function that threads the store and returns a value or an error. *)
Definition M (A : Type) : Type := Datastore -> (A + error) * Datastore.

Definition ret {A : Type} (a : A) : M A := fun d => (inl a, d).

Definition bind {A B : Type} (m : M A) (k : A -> M B) : M B :=
  fun d =>
    match m d with
    | (inl a, d') => k a d'
    | (inr e, d') => (inr e, d')
    end.

Notation "x <- m ;; k" := (bind m (fun x => k))
  (at level 100, m at next level, right associativity).
Notation "m ;;; k" := (bind m (fun _ => k))
  (at level 100, right associativity).

(** [if err := m; err != nil { return errors.Wrap(err, msg) }]. *)
Definition wrapping {A : Type} (msg : string) (m : M A) : M A :=
  fun d =>
    match m d with
    | (inr e, d') => (inr (withMessage e msg), d')
    | r => r
    end.

(** [for _, x := range xs { if err := body(x); err != nil { return err } }]. *)
Fixpoint for_range {A : Type} (xs : list A) (body : A -> M unit) : M unit :=
  match xs with
  | [] => ret tt
  | x :: rest => body x ;;; for_range rest body
  end.

(** The failure, if any, that the next store call meets. *)
Definition next_fault (d : Datastore) : option error * Datastore :=
  match faults d with
  | [] => (None, d)
  | f :: rest => (f, {| committed := committed d; tx := tx d; faults := rest |})
  end.

(** [d.db.Beginx()]. *)
Definition Beginx : M unit :=
  fun d =>
    match next_fault d with
    | (Some e, d') => (inr e, d')
    | (None, d') =>
        (inl tt, {| committed := committed d'; tx := Some (committed d');
                    faults := faults d' |})
    end.

(** [tx.Commit()]: a finished transaction reports [ErrTxDone]; a commit that
    fails leaves the transaction finished and nothing committed. *)
Definition Commit (d : Datastore) : option error * Datastore :=
  match tx d with
  | None => (Some ErrTxDone, d)
  | Some t =>
      match next_fault d with
      | (Some e, d') =>
          (Some e, {| committed := committed d'; tx := None; faults := faults d' |})
      | (None, d') =>
          (None, {| committed := t; tx := None; faults := faults d' |})
      end
  end.

(** [tx.Rollback()]: a finished transaction reports [ErrTxDone] without
    reaching the store; a rollback that fails leaves the transaction
    finished, like one that works, and nothing committed. *)
Definition Rollback (d : Datastore) : option error * Datastore :=
  match tx d with
  | None => (Some ErrTxDone, d)
  | Some _ =>
      match next_fault d with
      | (rbErr, d') =>
          (rbErr, {| committed := committed d'; tx := None; faults := faults d' |})
      end
  end.

(** [tx.Exec(stmt, args...)]. *)
Definition tx_Exec (stmt : Tables -> Tables + error) : M unit :=
  fun d =>
    match next_fault d with
    | (Some e, d') => (inr e, d')
    | (None, d') =>
        match tx d' with
        | None => (inr ErrTxDone, d')
        | Some t =>
            match stmt t with
            | inl t' =>
                (inl tt, {| committed := committed d'; tx := Some t';
                            faults := faults d' |})
            | inr e => (inr e, d')
            end
        end
    end.

(** [tx.Select(&dest, query, args...)]: all the rows. *)
Definition tx_Select {A : Type} (query : Tables -> list A) : M (list A) :=
  fun d =>
    match next_fault d with
    | (Some e, d') => (inr e, d')
    | (None, d') =>
        match tx d' with
        | None => (inr ErrTxDone, d')
        | Some t => (inl (query t), d')
        end
    end.

(** [tx.Get(&dest, query, args...)]: the first row, [ErrNoRows] without one. *)
Definition tx_Get {A : Type} (query : Tables -> list A) : M A :=
  fun d =>
    match tx_Select query d with
    | (inl [], d') => (inr ErrNoRows, d')
    | (inl (x :: _), d') => (inl x, d')
    | (inr e, d') => (inr e, d')
    end.

(** [d.db.Select] and [d.db.Get]: outside a transaction, on the committed
    tables. *)
Definition db_Select {A : Type} (query : Tables -> list A) : M (list A) :=
  fun d =>
    match next_fault d with
    | (Some e, d') => (inr e, d')
    | (None, d') => (inl (query (committed d')), d')
    end.

Definition db_Get {A : Type} (query : Tables -> list A) : M A :=
  fun d =>
    match db_Select query d with
    | (inl [], d') => (inr ErrNoRows, d')
    | (inl (x :: _), d') => (inl x, d')
    | (inr e, d') => (inr e, d')
    end.

(** What a Go function does in the end: it returns, or it panics. *)
Inductive outcome (A : Type) : Type :=
| Returned (a : A)
| Panicked (msg : string).
Arguments Returned {A} a.
Arguments Panicked {A} msg.

(** The deferred closure of [ApplyPackSpecs] and [GetPackSpecs]:
    [if err != nil { rbErr := tx.Rollback(); if rbErr != nil && rbErr !=
    sql.ErrTxDone { panic(...) } }]. *)
Definition rollback_on_error {A : Type} (result : A) (err : option error)
    (d : Datastore) : outcome (A * option error) * Datastore :=
  match err with
  | None => (Returned (result, err), d)
  | Some e =>
      match Rollback d with
      | (Some rbErr, d') =>
          if is_ErrTxDone rbErr then (Returned (result, err), d')
          else (Panicked ("got err '" +++ Error rbErr +++ "' rolling back after err '"
                          +++ Error e +++ "'"), d')
      | (None, d') => (Returned (result, err), d')
      end
  end.

(* ================================================================== *)
(** ** The SQL statements of the source *)

(** AUTO_INCREMENT: an id above every id of the table. *)
Definition next_id (ids : list N) : N := N.succ (fold_right N.max 0 ids).

Definition named (name : string) (p : kolide.Pack) : bool :=
  String.eqb (p_name p) name.

(** [INSERT INTO packs (name, description, platform) VALUES (?, ?, ?)
     ON DUPLICATE KEY UPDATE name = VALUES(name),
       description = VALUES(description), platform = VALUES(platform),
       deleted = false].
    The statement gives no id, so the only key it can meet is the name.
    A fresh row takes the column defaults: not disabled, not deleted. *)
Definition upsert_pack (name description platform : string) (t : Tables)
    : Tables + error :=
  if existsb (named name) (packs t) then
    inl (set_packs
           (map (fun p =>
                   if named name p then
                     {| p_id := p_id p; p_name := name;
                        p_description := description; p_platform := platform;
                        p_disabled := p_disabled p; p_deleted := false |}
                   else p)
                (packs t)) t)
  else
    inl (set_packs
           (packs t ++
            [{| p_id := next_id (map p_id (packs t)); p_name := name;
                p_description := description; p_platform := platform;
                p_disabled := false; p_deleted := false |}]) t).

(** [SELECT id FROM packs WHERE name = ?]. *)
Definition select_pack_id (name : string) (t : Tables) : list N :=
  map p_id (filter (named name) (packs t)).

(** [DELETE FROM scheduled_queries WHERE pack_id = ?]. *)
Definition delete_scheduled_queries (packID : N) (t : Tables) : Tables + error :=
  inl (set_scheduled_queries
         (filter (fun r => negb (sq_pack_id r =? packID)) (scheduled_queries t)) t).

Definition foreign_key_fails : error :=
  MySQLError ER_NO_REFERENCED_ROW_2
    "Cannot add or update a child row: a foreign key constraint fails".

Definition pack_exists (packID : N) (t : Tables) : bool :=
  existsb (fun p => p_id p =? packID) (packs t).

Definition query_exists (name : string) (t : Tables) : bool :=
  existsb (fun q => String.eqb (q_name q) name) (queries t).

Definition scheduled_query_row (packID : N) (q : PackSpecQuery) : ScheduledQueryRow :=
  {| sq_pack_id := packID; sq_query_name := QueryName q; sq_name := QName q;
     sq_description := QDescription q; sq_interval := Interval q;
     sq_snapshot := Snapshot q; sq_removed := Removed q; sq_shard := Shard q;
     sq_platform := QPlatform q; sq_version := Version q |}.

(** [INSERT INTO scheduled_queries (pack_id, query_name, name, description,
     `interval`, snapshot, removed, shard, platform, version)
     VALUES (?, ?, ?, ?, ?, ?, ?, ?, ?, ?)]. *)
Definition insert_scheduled_query (packID : N) (q : PackSpecQuery) (t : Tables)
    : Tables + error :=
  if pack_exists packID t && query_exists (QueryName q) t then
    inl (set_scheduled_queries
           (scheduled_queries t ++ [scheduled_query_row packID q]) t)
  else inr foreign_key_fails.

(** [DELETE FROM pack_targets WHERE pack_id = ?]. *)
Definition delete_pack_targets (packID : N) (t : Tables) : Tables + error :=
  inl (set_pack_targets
         (filter (fun r => negb (pt_pack_id r =? packID)) (pack_targets t)) t).

(** The scalar subquery [(SELECT id FROM labels WHERE name = ?)]: NULL
    without a row, an error with more than one. *)
Definition select_label_id (name : string) (t : Tables) : option N + error :=
  match filter (fun l => String.eqb (l_name l) name) (labels t) with
  | [] => inl None
  | [l] => inl (Some (l_id l))
  | _ => inr (MySQLError ER_SUBQUERY_NO_1_ROW "Subquery returns more than 1 row")
  end.

(** [INSERT INTO pack_targets (pack_id, type, target_id)
     VALUES (?, ?, (SELECT id FROM labels WHERE name = ?))]. *)
Definition insert_pack_target (packID : N) (type : TargetType) (label : string)
    (t : Tables) : Tables + error :=
  match select_label_id label t with
  | inr e => inr e
  | inl target =>
      match target with
      | None =>
          if target_id_not_null t then
            inr (MySQLError ER_BAD_NULL_ERROR "Column 'target_id' cannot be null")
          else if pack_exists packID t then
            inl (set_pack_targets
                   (pack_targets t ++
                    [{| pt_pack_id := packID; pt_type := type;
                        pt_target_id := None |}]) t)
          else inr foreign_key_fails
      | Some _ =>
          if pack_exists packID t then
            inl (set_pack_targets
                   (pack_targets t ++
                    [{| pt_pack_id := packID; pt_type := type;
                        pt_target_id := target |}]) t)
          else inr foreign_key_fails
      end
  end.

(** [SELECT id, name, description, platform FROM packs], read into
    [[]*kolide.PackSpec]. *)
Definition select_pack_specs (t : Tables) : list PackSpec :=
  map (fun p =>
         {| ID := p_id p; Name := p_name p; Description := p_description p;
            Platform := p_platform p; Targets := {| Labels := [] |};
            Queries := [] |})
      (packs t).

(** [SELECT l.name FROM labels l JOIN pack_targets pt
     WHERE pack_id = ? AND pt.type = ? AND pt.target_id = l.id]. *)
Definition select_target_label_names (packID : N) (type : TargetType) (t : Tables)
    : list string :=
  flat_map
    (fun l =>
       map (fun _ => l_name l)
           (filter (fun pt =>
                      (pt_pack_id pt =? packID)
                      && TargetType_eqb (pt_type pt) type
                      && match pt_target_id pt with
                         | Some i => i =? l_id l
                         | None => false
                         end)
                   (pack_targets t)))
    (labels t).

Definition pack_spec_query (r : ScheduledQueryRow) : PackSpecQuery :=
  {| QueryName := sq_query_name r; QName := sq_name r;
     QDescription := sq_description r; Interval := sq_interval r;
     Snapshot := sq_snapshot r; Removed := sq_removed r; Shard := sq_shard r;
     QPlatform := sq_platform r; Version := sq_version r |}.

(** [SELECT query_name, name, description, `interval`, snapshot, removed,
     shard, platform, version FROM scheduled_queries WHERE pack_id = ?]. *)
Definition select_pack_queries (packID : N) (t : Tables) : list PackSpecQuery :=
  map pack_spec_query
      (filter (fun r => sq_pack_id r =? packID) (scheduled_queries t)).

(** [SELECT * FROM packs WHERE name = ? AND NOT deleted]. *)
Definition select_pack_by_name (name : string) (t : Tables) : list kolide.Pack :=
  filter (fun p => named name p && negb (p_deleted p)) (packs t).

(** [SELECT * FROM packs WHERE id = ? AND NOT deleted]. *)
Definition select_pack_by_id (pid : N) (t : Tables) : list kolide.Pack :=
  filter (fun p => (p_id p =? pid) && negb (p_deleted p)) (packs t).

(** [SELECT * FROM packs WHERE NOT deleted]. *)
Definition select_packs (t : Tables) : list kolide.Pack :=
  filter (fun p => negb (p_deleted p)) (packs t).

(** [SELECT l.id, l.created_at, l.updated_at, l.name
     FROM labels l JOIN pack_targets pt ON pt.target_id = l.id
     WHERE pt.type = ? AND pt.pack_id = ? AND NOT l.deleted]. *)
Definition select_labels_for_pack (type : TargetType) (pid : N) (t : Tables)
    : list kolide.Label :=
  flat_map
    (fun l =>
       map (fun _ => l)
           (filter (fun pt =>
                      match pt_target_id pt with
                      | Some i => i =? l_id l
                      | None => false
                      end
                      && TargetType_eqb (pt_type pt) type
                      && (pt_pack_id pt =? pid)
                      && negb (l_deleted l))
                   (pack_targets t)))
    (labels t).

(** SELECT DISTINCT: the first occurrence of each row is kept. *)
Fixpoint distinct {A : Type} (eqb : A -> A -> bool) (rows : list A) : list A :=
  match rows with
  | [] => []
  | r :: rest => r :: filter (fun x => negb (eqb r x)) (distinct eqb rest)
  end.

Definition Pack_eqb (a b : kolide.Pack) : bool :=
  (p_id a =? p_id b) && String.eqb (p_name a) (p_name b)
  && String.eqb (p_description a) (p_description b)
  && String.eqb (p_platform a) (p_platform b)
  && Bool.eqb (p_disabled a) (p_disabled b)
  && Bool.eqb (p_deleted a) (p_deleted b).

(** [SELECT DISTINCT p.* FROM packs p JOIN pack_targets pt
     JOIN label_query_executions lqe
     ON (p.id = pt.pack_id AND pt.target_id = lqe.label_id AND pt.type = ?
         AND lqe.matches)
     WHERE lqe.host_id = ? AND NOT p.disabled]. *)
Definition select_packs_for_host (type : TargetType) (hid : N) (t : Tables)
    : list kolide.Pack :=
  distinct Pack_eqb
    (flat_map
       (fun p =>
          flat_map
            (fun pt =>
               map (fun _ => p)
                   (filter (fun lqe =>
                              (p_id p =? pt_pack_id pt)
                              && match pt_target_id pt with
                                 | Some i => i =? lqe_label_id lqe
                                 | None => false
                                 end
                              && TargetType_eqb (pt_type pt) type
                              && lqe_matches lqe
                              && ((lqe_host_id lqe =? hid) && negb (p_disabled p)))
                           (label_query_executions t)))
            (pack_targets t))
       (packs t)).

(** [SELECT DISTINCT h.id FROM hosts h JOIN pack_targets pt
     JOIN label_query_executions lqe
     ON (pt.target_id = lqe.label_id AND lqe.host_id = h.id AND lqe.matches
         AND pt.type = ?)
        OR (pt.target_id = h.id AND pt.type = ?)
     WHERE pt.pack_id = ?]. *)
Definition select_hosts_in_pack (label_type host_type : TargetType) (pid : N)
    (t : Tables) : list N :=
  distinct N.eqb
    (flat_map
       (fun h =>
          flat_map
            (fun pt =>
               map (fun _ => h_id h)
                   (filter (fun lqe =>
                              ((match pt_target_id pt with
                                | Some i => i =? lqe_label_id lqe
                                | None => false
                                end
                                && (lqe_host_id lqe =? h_id h)
                                && lqe_matches lqe
                                && TargetType_eqb (pt_type pt) label_type)
                               || (match pt_target_id pt with
                                   | Some i => i =? h_id h
                                   | None => false
                                   end
                                   && TargetType_eqb (pt_type pt) host_type))
                              && (pt_pack_id pt =? pid))
                           (label_query_executions t)))
            (pack_targets t))
       (hosts t)).

(** [SELECT DISTINCT h.id FROM hosts h JOIN pack_targets pt
     ON (pt.target_id = h.id AND pt.type = ?) WHERE pt.pack_id = ?]. *)
Definition select_explicit_hosts_in_pack (host_type : TargetType) (pid : N)
    (t : Tables) : list N :=
  distinct N.eqb
    (flat_map
       (fun h =>
          map (fun _ => h_id h)
              (filter (fun pt =>
                         match pt_target_id pt with
                         | Some i => i =? h_id h
                         | None => false
                         end
                         && TargetType_eqb (pt_type pt) host_type
                         && (pt_pack_id pt =? pid))
                      (pack_targets t)))
       (hosts t)).

(* ================================================================== *)
(** ** The Go functions *)

(** [applyPackSpec(tx, spec)]. *)
Definition applyPackSpec (spec : PackSpec) : M unit :=
  (* Insert/update pack *)
  wrapping "insert/update pack"
    (tx_Exec (upsert_pack (Name spec) (Description spec) (Platform spec))) ;;;
  (* Get Pack ID *)
  packID <- wrapping "getting pack ID" (tx_Get (select_pack_id (Name spec))) ;;
  (* Delete existing scheduled queries for pack *)
  wrapping "delete existing scheduled queries"
    (tx_Exec (delete_scheduled_queries packID)) ;;;
  (* Insert new scheduled queries for pack *)
  for_range (Queries spec)
    (fun q d =>
       match tx_Exec (insert_scheduled_query packID q) d with
       | (inr err, d') =>
           if isChildForeignKeyError (Some err) then
             (inr (fundamental
                     ("cannot schedule unknown query '" +++ QueryName q +++ "'")), d')
           else
             (inr (withMessage err
                     ("adding query " +++ QName q +++ " referencing " +++ QueryName q)),
              d')
       | ok => ok
       end) ;;;
  (* Delete existing targets *)
  wrapping "delete existing targets" (tx_Exec (delete_pack_targets packID)) ;;;
  (* Insert targets *)
  for_range (Labels (Targets spec))
    (fun l =>
       wrapping "adding label to pack"
         (tx_Exec (insert_pack_target packID TargetLabel l))).

(** The loop of [ApplyPackSpecs]:
    [for _, spec := range specs { err = applyPackSpec(tx, spec);
       if err != nil { return errors.Wrapf(err, "applying pack '%s'", spec.Name) } }]. *)
Definition apply_each (specs : list PackSpec) : M unit :=
  for_range specs
    (fun spec => wrapping ("applying pack '" +++ Name spec +++ "'") (applyPackSpec spec)).

(** [(d *Datastore) ApplyPackSpecs(specs)]. *)
Definition ApplyPackSpecs (specs : list PackSpec) (d : Datastore)
    : outcome (option error) * Datastore :=
  match Beginx d with
  | (inr err, d1) =>
      (Returned (Wrap (Some err) "begin ApplyPackSpec transaction"), d1)
  | (inl _, d1) =>
      let '(err, d2) :=
        match apply_each specs d1 with
        | (inr err, d2) => (Some err, d2)
        | (inl _, d2) =>
            let '(err, d3) := Commit d2 in (Wrap err "commit transaction", d3)
        end in
      match rollback_on_error tt err d2 with
      | (Returned (_, err), d4) => (Returned err, d4)
      | (Panicked msg, d4) => (Panicked msg, d4)
      end
  end.

(** A loop that fills a field of each element through its pointer. *)
Fixpoint load_each (specs : list PackSpec) (load : PackSpec -> M PackSpec)
    : M (list PackSpec) :=
  match specs with
  | [] => ret []
  | spec :: rest =>
      spec' <- load spec ;;
      rest' <- load_each rest load ;;
      ret (spec' :: rest')
  end.

Definition set_Labels (ls : list string) (spec : PackSpec) : PackSpec :=
  {| ID := ID spec; Name := Name spec; Description := Description spec;
     Platform := Platform spec; Targets := {| Labels := ls |};
     Queries := Queries spec |}.

Definition set_Queries (qs : list PackSpecQuery) (spec : PackSpec) : PackSpec :=
  {| ID := ID spec; Name := Name spec; Description := Description spec;
     Platform := Platform spec; Targets := Targets spec; Queries := qs |}.

(** The statements of [GetPackSpecs] between Beginx and Commit.  sqlx
    appends the rows it reads to the slice it is given. *)
Definition load_pack_specs : M (list PackSpec) :=
  (* Get basic specs *)
  specs <- wrapping "get packs" (tx_Select select_pack_specs) ;;
  (* Load targets *)
  specs <- load_each specs
             (fun spec =>
                ls <- wrapping "get pack targets"
                        (tx_Select (select_target_label_names (ID spec) TargetLabel)) ;;
                ret (set_Labels (Labels (Targets spec) ++ ls) spec)) ;;
  (* Load queries *)
  load_each specs
    (fun spec =>
       qs <- wrapping "get pack queries" (tx_Select (select_pack_queries (ID spec))) ;;
       ret (set_Queries (Queries spec ++ qs) spec)).

(** [(d *Datastore) GetPackSpecs()]; a nil slice is the empty list. *)
Definition GetPackSpecs (d : Datastore)
    : outcome (list PackSpec * option error) * Datastore :=
  match Beginx d with
  | (inr err, d1) =>
      (Returned ([], Wrap (Some err) "begin GetPackSpecs transaction"), d1)
  | (inl _, d1) =>
      match load_pack_specs d1 with
      | (inr err, d2) => rollback_on_error [] (Some err) d2
      | (inl specs, d2) =>
          match Commit d2 with
          | (Some err, d3) =>
              rollback_on_error [] (Wrap (Some err) "commit transaction") d3
          | (None, d3) => rollback_on_error specs None d3
          end
      end
  end.

(** [(d *Datastore) PackByName(name)], called without options: it reads
    through [d.db]. *)
Definition PackByName (name : string) (d : Datastore)
    : (option kolide.Pack * bool * option error) * Datastore :=
  match db_Get (select_pack_by_name name) d with
  | (inr err, d') =>
      if is_ErrNoRows err then ((None, false, None), d')
      else ((None, false, Wrap (Some err) "fetching packs by name"), d')
  | (inl pack, d') => ((Some pack, true, None), d')
  end.

(** [(d *Datastore) Pack(pid)]. *)
Definition Pack (pid : N) (d : Datastore)
    : (option kolide.Pack * option error) * Datastore :=
  match db_Get (select_pack_by_id pid) d with
  | (inr err, d') =>
      if is_ErrNoRows err then ((None, Some (notFoundError "Pack" pid)), d')
      else ((None, Wrap (Some err) "getting pack"), d')
  | (inl pack, d') => ((Some pack, None), d')
  end.

(** The shape shared by the listing functions:
    [rows := []T{}; if err := d.db.Select(&rows, query); err != nil &&
     err != sql.ErrNoRows { return nil, errors.Wrap(err, msg) };
     return rows, nil]. *)
Definition listing {A : Type} (msg : string) (query : Tables -> list A)
    (d : Datastore) : (list A * option error) * Datastore :=
  match db_Select query d with
  | (inr err, d') =>
      if is_ErrNoRows err then (([], None), d')
      else (([], Wrap (Some err) msg), d')
  | (inl rows, d') => ((rows, None), d')
  end.

(** [(d *Datastore) ListPacks(opt)]. *)
Definition ListPacks (opt : ListOptions) : Datastore -> _ :=
  listing "listing packs" (fun t => appendListOptionsToSQL (select_packs t) opt).

(** [(d *Datastore) ListLabelsForPack(pid)]. *)
Definition ListLabelsForPack (pid : N) : Datastore -> _ :=
  listing "listing labels for pack" (select_labels_for_pack TargetLabel pid).

(** [(d *Datastore) ListPacksForHost(hid)]. *)
Definition ListPacksForHost (hid : N) : Datastore -> _ :=
  listing "listing hosts in pack" (select_packs_for_host TargetLabel hid).

(** [(d *Datastore) ListHostsInPack(pid, opt)]. *)
Definition ListHostsInPack (pid : N) (opt : ListOptions) : Datastore -> _ :=
  listing "listing hosts in pack"
    (fun t => appendListOptionsToSQL
                (select_hosts_in_pack TargetLabel TargetHost pid t) opt).

(** [(d *Datastore) ListExplicitHostsInPack(pid, opt)]. *)
Definition ListExplicitHostsInPack (pid : N) (opt : ListOptions) : Datastore -> _ :=
  listing "listing explicit hosts in pack"
    (fun t => appendListOptionsToSQL
                (select_explicit_hosts_in_pack TargetHost pid t) opt).

(* ================================================================== *)
(** ** Notions used by the statements and their proofs *)

(** A computation that never touches the committed tables. *)
Definition keeps_committed {A : Type} (m : M A) : Prop :=
  forall d, committed (snd (m d)) = committed d.

(** A store inside a transaction whose working copy is [t], with no
    infrastructure failure ahead; and a store with its failures forgotten. *)
Definition live (c t : Tables) : Datastore :=
  {| committed := c; tx := Some t; faults := [] |}.

Definition clear_faults (d : Datastore) : Datastore :=
  {| committed := committed d; tx := tx d; faults := [] |}.

(** A computation whose successful runs met no failure: they run the same
    on the store with its failures forgotten. *)
Definition erasable {A : Type} (m : M A) : Prop :=
  forall d a d', m d = (inl a, d') -> m (clear_faults d) = (inl a, clear_faults d').

(** The two loop bodies of [applyPackSpec], by name. *)
Definition schedule_query (packID : N) (q : PackSpecQuery) : M unit :=
  fun d =>
    match tx_Exec (insert_scheduled_query packID q) d with
    | (inr err, d') =>
        if isChildForeignKeyError (Some err) then
          (inr (fundamental
                  ("cannot schedule unknown query '" +++ QueryName q +++ "'")), d')
        else
          (inr (withMessage err
                  ("adding query " +++ QName q +++ " referencing " +++ QueryName q)),
           d')
    | ok => ok
    end.

Definition add_label (packID : N) (l : string) : M unit :=
  wrapping "adding label to pack" (tx_Exec (insert_pack_target packID TargetLabel l)).

(** The id that [SELECT id FROM packs WHERE name = ?] gives [tx.Get]. *)
Definition pack_id (name : string) (t : Tables) : N := hd 0 (select_pack_id name t).

(** The tables after the upsert of [applyPackSpec]. *)
Definition upserted (spec : PackSpec) (t : Tables) : Tables :=
  match upsert_pack (Name spec) (Description spec) (Platform spec) t with
  | inl t1 => t1
  | inr _ => t
  end.

(** The target id that the insert of [applyPackSpec] writes for a label
    name, and whether the insert goes through. *)
Definition label_target (t : Tables) (l : string) : option N :=
  match select_label_id l t with
  | inl target => target
  | inr _ => None
  end.

Definition label_insertable (t : Tables) (l : string) : bool :=
  match select_label_id l t with
  | inl None => negb (target_id_not_null t)
  | inl (Some _) => true
  | inr _ => false
  end.

Definition target_row (packID : N) (t : Tables) (l : string) : PackTargetRow :=
  {| pt_pack_id := packID; pt_type := TargetLabel; pt_target_id := label_target t l |}.

(** The data conditions under which [applyPackSpec] goes through. *)
Definition applicable (spec : PackSpec) (t : Tables) : bool :=
  forallb (fun q => query_exists (QueryName q) t) (Queries spec)
  && forallb (label_insertable t) (Labels (Targets spec)).

(** The working copy that a successful [applyPackSpec] leaves. *)
Definition reconciled (spec : PackSpec) (t : Tables) : Tables :=
  let t1 := upserted spec t in
  let packID := pack_id (Name spec) t1 in
  set_pack_targets
    (filter (fun r => negb (pt_pack_id r =? packID)) (pack_targets t)
     ++ map (target_row packID t) (Labels (Targets spec)))
    (set_scheduled_queries
       (filter (fun r => negb (sq_pack_id r =? packID)) (scheduled_queries t)
        ++ map (scheduled_query_row packID) (Queries spec))
       t1).

(** The working copy that the loop of [ApplyPackSpecs] reaches, if it goes
    through. *)
Fixpoint reconciled_all (specs : list PackSpec) (t : Tables) : option Tables :=
  match specs with
  | [] => Some t
  | spec :: rest =>
      if applicable spec t then reconciled_all rest (reconciled spec t) else None
  end.

(** What the upsert writes over a row that bears the spec's name, and the
    row it inserts when no row does. *)
Definition touch (spec : PackSpec) (p : kolide.Pack) : kolide.Pack :=
  if named (Name spec) p then
    {| p_id := p_id p; p_name := Name spec; p_description := Description spec;
       p_platform := Platform spec; p_disabled := p_disabled p; p_deleted := false |}
  else p.

Definition fresh_pack (spec : PackSpec) (ps : list kolide.Pack) : kolide.Pack :=
  {| p_id := next_id (map p_id ps); p_name := Name spec;
     p_description := Description spec; p_platform := Platform spec;
     p_disabled := false; p_deleted := false |}.

(** The keys of the schema: the primary key of packs and of labels, and the
    unique name of each. *)
Definition keys_hold (t : Tables) : Prop :=
  NoDup (map p_id (packs t)) /\ NoDup (map p_name (packs t))
  /\ NoDup (map l_id (labels t)) /\ NoDup (map l_name (labels t)).

(** Wholesale replacement of the rows of one parent. *)
Definition replace_rows {R : Type} (key : R -> N) (parent : N) (rows : list R)
    (table : list R) : list R :=
  filter (fun r => negb (key r =? parent)) table ++ rows.

(** What the upserts of a batch, one after the other, make of a row. *)
Definition touch_all (specs : list PackSpec) (p : kolide.Pack) : kolide.Pack :=
  fold_left (fun p spec => touch spec p) specs p.

(** Equality of two collections of pack specs in the widest sense: up to
    the order of the top-level list and whatever the ids are. *)
Definition forget_ID (spec : PackSpec) : PackSpec :=
  {| ID := 0; Name := Name spec; Description := Description spec;
     Platform := Platform spec; Targets := Targets spec; Queries := Queries spec |}.

Definition same_specs (out specs : list PackSpec) : Prop :=
  Permutation (map forget_ID out) (map forget_ID specs).

(** The spec that [GetPackSpecs] builds from a pack row. *)
Definition read_back (t : Tables) (p : kolide.Pack) : PackSpec :=
  {| ID := p_id p; Name := p_name p; Description := p_description p;
     Platform := p_platform p;
     Targets := {| Labels := select_target_label_names (p_id p) TargetLabel t |};
     Queries := select_pack_queries (p_id p) t |}.

(* ================================================================== *)
(** ** Sample data *)

Module Sample.

Open Scope string_scope.

Definition query_spec (query_name name : string) : PackSpecQuery :=
  {| QueryName := query_name; QName := name; QDescription := "";
     Interval := 3600; Snapshot := Some true; Removed := None; Shard := None;
     QPlatform := None; Version := None |}.

Definition pack_spec (name description : string) (ls : list string)
    (qs : list PackSpecQuery) : PackSpec :=
  {| ID := 0; Name := name; Description := description; Platform := "";
     Targets := {| Labels := ls |}; Queries := qs |}.

(** A store with one pack, two labels, one query, three hosts; host 1 has
    reported that it matches label 1. *)
Definition store : Tables :=
  {| packs :=
       [{| p_id := 7; p_name := "inventory"; p_description := "hardware";
           p_platform := ""; p_disabled := false; p_deleted := false |}];
     scheduled_queries := [];
     pack_targets := [];
     labels := [{| l_id := 1; l_name := "all"; l_deleted := false |};
                {| l_id := 2; l_name := "macs"; l_deleted := false |}];
     queries := [{| q_id := 1; q_name := "uptime" |}];
     hosts := [{| h_id := 1 |}; {| h_id := 2 |}; {| h_id := 3 |}];
     label_query_executions :=
       [{| lqe_host_id := 1; lqe_label_id := 1; lqe_matches := true |}];
     target_id_not_null := false |}.

Definition monitoring : PackSpec :=
  pack_spec "monitoring" "health" ["macs"; "all"] [query_spec "uptime" "uptime_hourly"].

Definition broken : PackSpec :=
  pack_spec "broken" "" [] [query_spec "uptime" "u"; query_spec "no_such_query" "n"].

Definition empty_pack : PackSpec := pack_spec "empty" "" [] [].

Definition ghost_label : PackSpec := pack_spec "ghosts" "" ["no_such_label"] [].

Definition inventory : PackSpec := pack_spec "inventory" "laptops" ["all"] [].

(** The same store, with the pack targeted at host 2 and nothing else. *)
Definition host_2_targeted : Tables :=
  set_pack_targets
    [{| pt_pack_id := 7; pt_type := TargetHost; pt_target_id := Some 2 |}] store.

(** The same, before any host has reported a label match. *)
Definition host_2_targeted_unreported : Tables :=
  {| packs := packs host_2_targeted;
     scheduled_queries := [];
     pack_targets := pack_targets host_2_targeted;
     labels := labels host_2_targeted;
     queries := queries host_2_targeted;
     hosts := hosts host_2_targeted;
     label_query_executions := [];
     target_id_not_null := false |}.

(** The same store, with a schema that refuses NULL in
    [pack_targets.target_id]. *)
Definition strict_store : Tables :=
  {| packs := packs store; scheduled_queries := []; pack_targets := [];
     labels := labels store; queries := queries store; hosts := hosts store;
     label_query_executions := label_query_executions store;
     target_id_not_null := true |}.

(** A store whose pack and whose label "all" are soft-deleted; the pack is
    targeted at that label and at host 2, and host 1 matched the label. *)
Definition soft_deleted : Tables :=
  {| packs :=
       [{| p_id := 7; p_name := "inventory"; p_description := "hardware";
           p_platform := ""; p_disabled := false; p_deleted := true |}];
     scheduled_queries := [];
     pack_targets :=
       [{| pt_pack_id := 7; pt_type := TargetLabel; pt_target_id := Some 1 |};
        {| pt_pack_id := 7; pt_type := TargetHost; pt_target_id := Some 2 |}];
     labels := [{| l_id := 1; l_name := "all"; l_deleted := true |};
                {| l_id := 2; l_name := "macs"; l_deleted := false |}];
     queries := [{| q_id := 1; q_name := "uptime" |}];
     hosts := [{| h_id := 1 |}; {| h_id := 2 |}; {| h_id := 3 |}];
     label_query_executions :=
       [{| lqe_host_id := 1; lqe_label_id := 1; lqe_matches := true |}];
     target_id_not_null := false |}.

End Sample.

(* ================================================================== *)
(** ** Further notions *)


(** The data conditions of [applyPackSpec], spelled out: every scheduled
    query names a query that exists, and every label name can be inserted
    as a target. *)
Definition references_hold (spec : PackSpec) (t : Tables) : Prop :=
  (forall q, In q (Queries spec) -> query_exists (QueryName q) t = true)
  /\ (forall l, In l (Labels (Targets spec)) -> label_insertable t l = true).

(* ================================================================== *)
(** ** The logging middleware of the label service (package service) *)

Module service.

(** [time.Time] as nanoseconds, [time.Duration] as the int64 it is.
    [t.Sub(u)] saturates at the bounds of a Duration. *)
Definition minDuration : Z := (- 2 ^ 63)%Z.
Definition maxDuration : Z := (2 ^ 63 - 1)%Z.

Definition Sub (t u : Z) : Z :=
  let d := (t - u)%Z in
  if (d <? minDuration)%Z then minDuration
  else if (maxDuration <? d)%Z then maxDuration
  else d.

(** A value handed to [logger.Log]. *)
Inductive keyval : Type :=
| kv_string (s : string)
| kv_error (err : option error)
| kv_duration (d : Z).

(** The [kolide] service methods that the file wraps: an interface, over
    whatever state [S] the implementation keeps.  The context is handed
    over as it comes. *)
Record Service (Context S : Type) : Type := {
  ListLabels : Context -> ListOptions -> S -> (list kolide.Label * option error) * S;
  GetLabel : Context -> N -> S -> (option kolide.Label * option error) * S;
  DeleteLabel : Context -> string -> S -> option error * S
}.
Arguments ListLabels {Context S} _ _ _ _.
Arguments GetLabel {Context S} _ _ _ _.
Arguments DeleteLabel {Context S} _ _ _ _.

(** [log.Logger]: [Log(keyvals...)] may fail, and does to its state [L]
    what it does. *)
Record Logger (L : Type) : Type := {
  Log : list keyval -> L -> option error * L
}.
Arguments Log {L} _ _ _.

(** The state behind a [loggingMiddleware]: the state of the service it
    embeds, the state of its logger, and how many times the clock was read;
    the reading number [n] of [time.Now()] is [now n]. *)
Record World (S L : Type) : Type := {
  inner : S;
  logs : L;
  ticks : nat
}.
Arguments inner {S L} _.
Arguments logs {S L} _.
Arguments ticks {S L} _.

Section LoggingMiddleware.

Variables (Context S L : Type).
Variable next : Service Context S.      (* mw.Service *)
Variable logger : Logger L.             (* mw.logger *)
Variable now : nat -> Z.                (* the clock *)

(** [time.Now()]. *)
Definition Now (w : World S L) : Z * World S L :=
  (now (ticks w), {| inner := inner w; logs := logs w; ticks := Datatypes.S (ticks w) |}).

(** The deferred closure of the three methods, called with the [begin] that
    was read when the defer statement ran and the [err] that the method
    holds when it returns: [_ = mw.logger.Log("method", name, "err", err,
    "took", time.Since(begin))]. *)
Definition log_call (method : string) (begin : Z) (err : option error)
    (w : World S L) : World S L :=
  let '(finish, w1) := Now w in
  let '(_, l) :=
    Log logger
      [kv_string "method"; kv_string method; kv_string "err"; kv_error err;
       kv_string "took"; kv_duration (Sub finish begin)]
      (logs w1) in
  {| inner := inner w1; logs := l; ticks := ticks w1 |}.

(** [(mw loggingMiddleware) ListLabels(ctx, opt)]. *)
Definition mw_ListLabels (ctx : Context) (opt : ListOptions) (w : World S L)
    : (list kolide.Label * option error) * World S L :=
  let '(begin, w1) := Now w in
  let '((labels, err), s) := ListLabels next ctx opt (inner w1) in
  let w2 := {| inner := s; logs := logs w1; ticks := ticks w1 |} in
  ((labels, err), log_call "ListLabels" begin err w2).

(** [(mw loggingMiddleware) GetLabel(ctx, id)]. *)
Definition mw_GetLabel (ctx : Context) (id : N) (w : World S L)
    : (option kolide.Label * option error) * World S L :=
  let '(begin, w1) := Now w in
  let '((label, err), s) := GetLabel next ctx id (inner w1) in
  let w2 := {| inner := s; logs := logs w1; ticks := ticks w1 |} in
  ((label, err), log_call "GetLabel" begin err w2).

(** [(mw loggingMiddleware) DeleteLabel(ctx, name)]. *)
Definition mw_DeleteLabel (ctx : Context) (name : string) (w : World S L)
    : option error * World S L :=
  let '(begin, w1) := Now w in
  let '(err, s) := DeleteLabel next ctx name (inner w1) in
  let w2 := {| inner := s; logs := logs w1; ticks := ticks w1 |} in
  (err, log_call "DeleteLabel" begin err w2).

(** The middleware is itself a service. *)
Definition loggingMiddleware : Service Context (World S L) :=
  {| ListLabels := mw_ListLabels;
     GetLabel := mw_GetLabel;
     DeleteLabel := mw_DeleteLabel |}.

End LoggingMiddleware.

(** A caller's use of a label service: a sequence of calls, and what they
    return. *)
Inductive call (Context : Type) : Type :=
| call_ListLabels (ctx : Context) (opt : ListOptions)
| call_GetLabel (ctx : Context) (id : N)
| call_DeleteLabel (ctx : Context) (name : string).
Arguments call_ListLabels {Context} ctx opt.
Arguments call_GetLabel {Context} ctx id.
Arguments call_DeleteLabel {Context} ctx name.

Inductive returned : Type :=
| ret_ListLabels (labels : list kolide.Label) (err : option error)
| ret_GetLabel (label : option kolide.Label) (err : option error)
| ret_DeleteLabel (err : option error).

Definition method_of {Context : Type} (c : call Context) : string :=
  match c with
  | call_ListLabels _ _ => "ListLabels"
  | call_GetLabel _ _ => "GetLabel"
  | call_DeleteLabel _ _ => "DeleteLabel"
  end.

Definition err_of (r : returned) : option error :=
  match r with
  | ret_ListLabels _ err | ret_GetLabel _ err | ret_DeleteLabel err => err
  end.

Definition perform {Context S : Type} (svc : Service Context S) (c : call Context)
    (s : S) : returned * S :=
  match c with
  | call_ListLabels ctx opt =>
      let '((labels, err), s') := ListLabels svc ctx opt s in
      (ret_ListLabels labels err, s')
  | call_GetLabel ctx id =>
      let '((label, err), s') := GetLabel svc ctx id s in
      (ret_GetLabel label err, s')
  | call_DeleteLabel ctx name =>
      let '(err, s') := DeleteLabel svc ctx name s in
      (ret_DeleteLabel err, s')
  end.

Fixpoint perform_all {Context S : Type} (svc : Service Context S)
    (cs : list (call Context)) (s : S) : list returned * S :=
  match cs with
  | [] => ([], s)
  | c :: rest =>
      let '(r, s1) := perform svc c s in
      let '(rs, s2) := perform_all svc rest s1 in
      (r :: rs, s2)
  end.

(** A logger that keeps what it is given. *)
Definition recorder : Logger (list (list keyval)) :=
  {| Log := fun keyvals l => (None, l ++ [keyvals]) |}.

End service.

(* ================================================================== *)
(** ** What a transaction leaves of the committed tables *)

Lemma next_fault_committed d : committed (snd (next_fault d)) = committed d.
Proof. unfold next_fault. destruct (faults d); reflexivity. Qed.

Lemma next_fault_tx d : tx (snd (next_fault d)) = tx d.
Proof. unfold next_fault. destruct (faults d); reflexivity. Qed.

Lemma ret_keeps {A} (a : A) : keeps_committed (ret a).
Proof. intro d. reflexivity. Qed.

Lemma bind_keeps {A B} (m : M A) (k : A -> M B) :
  keeps_committed m -> (forall a, keeps_committed (k a)) -> keeps_committed (bind m k).
Proof.
  intros Hm Hk d. unfold bind. specialize (Hm d).
  destruct (m d) as [[a | e] d']; simpl in *.
  - rewrite Hk. exact Hm.
  - exact Hm.
Qed.

Lemma wrapping_keeps {A} msg (m : M A) :
  keeps_committed m -> keeps_committed (wrapping msg m).
Proof.
  intros Hm d. unfold wrapping. specialize (Hm d).
  destruct (m d) as [[a | e] d']; exact Hm.
Qed.

Lemma tx_Exec_keeps stmt : keeps_committed (tx_Exec stmt).
Proof.
  intro d. unfold tx_Exec.
  pose proof (next_fault_committed d) as H.
  destruct (next_fault d) as [[e |] d']; simpl in *; trivial.
  destruct (tx d'); trivial. destruct (stmt t); trivial.
Qed.

Lemma tx_Select_keeps {A} (query : Tables -> list A) : keeps_committed (tx_Select query).
Proof.
  intro d. unfold tx_Select.
  pose proof (next_fault_committed d) as H.
  destruct (next_fault d) as [[e |] d']; simpl in *; trivial.
  destruct (tx d'); trivial.
Qed.

Lemma tx_Get_keeps {A} (query : Tables -> list A) : keeps_committed (tx_Get query).
Proof.
  intro d. unfold tx_Get. pose proof (tx_Select_keeps query d) as H.
  destruct (tx_Select query d) as [[[| x rows] | e] d']; exact H.
Qed.

Lemma for_range_keeps {A} (xs : list A) body :
  (forall x, keeps_committed (body x)) -> keeps_committed (for_range xs body).
Proof.
  intro Hb. induction xs as [| x xs IH]; simpl.
  - apply ret_keeps.
  - apply bind_keeps; auto.
Qed.

Lemma applyPackSpec_keeps spec : keeps_committed (applyPackSpec spec).
Proof.
  unfold applyPackSpec.
  repeat (apply bind_keeps; [| intro]);
    try apply wrapping_keeps; try apply tx_Exec_keeps; try apply tx_Get_keeps.
  - apply for_range_keeps. intros q d.
    pose proof (tx_Exec_keeps (insert_scheduled_query a0 q) d) as H.
    destruct (tx_Exec (insert_scheduled_query a0 q) d) as [[u | e] d']; trivial.
    destruct (isChildForeignKeyError (Some e)); exact H.
  - apply for_range_keeps. intro l. apply wrapping_keeps, tx_Exec_keeps.
Qed.

Lemma apply_each_keeps specs : keeps_committed (apply_each specs).
Proof.
  apply for_range_keeps. intro spec. apply wrapping_keeps, applyPackSpec_keeps.
Qed.

Lemma for_range_app {A} (xs ys : list A) body d :
  for_range (xs ++ ys) body d =
  match for_range xs body d with
  | (inl _, d') => for_range ys body d'
  | (inr e, d') => (inr e, d')
  end.
Proof.
  revert d. induction xs as [| x xs IH]; intro d; simpl.
  - reflexivity.
  - unfold bind. destruct (body x d) as [[u | e] d']; auto.
Qed.

(** The store after a call of [Beginx] that went through. *)
Lemma Beginx_ok d d1 :
  Beginx d = (inl tt, d1) -> committed d1 = committed d /\ tx d1 = Some (committed d).
Proof.
  unfold Beginx. pose proof (next_fault_committed d) as H.
  destruct (next_fault d) as [[e |] d']; simpl in *; intro E; inversion E; subst.
  simpl. rewrite H. auto.
Qed.

Lemma Beginx_err d e d1 :
  Beginx d = (inr e, d1) -> committed d1 = committed d.
Proof.
  unfold Beginx. pose proof (next_fault_committed d) as H.
  destruct (next_fault d) as [[e' |] d']; simpl in *; intro E; inversion E; subst.
  exact H.
Qed.

Lemma Rollback_leaves d :
  committed (snd (Rollback d)) = committed d /\ tx (snd (Rollback d)) = None.
Proof.
  unfold Rollback. destruct (tx d) eqn:T; simpl; [| auto].
  pose proof (next_fault_committed d) as H.
  destruct (next_fault d) as [rbErr d']; simpl in *. auto.
Qed.

(** What the deferred closure does behind an error: it rolls back, and
    returns unless the rollback fails with an error that is not
    [ErrTxDone]. *)
Lemma rollback_on_error_Some {A} (r : A) e d :
  exists out,
    rollback_on_error r (Some e) d = (out, snd (Rollback d))
    /\ match fst (Rollback d) with
       | None => out = Returned (r, Some e)
       | Some rbErr =>
           if is_ErrTxDone rbErr then out = Returned (r, Some e)
           else out = Panicked ("got err '" +++ Error rbErr
                                +++ "' rolling back after err '" +++ Error e +++ "'")
       end.
Proof.
  unfold rollback_on_error.
  destruct (Rollback d) as [[rbErr |] d']; simpl.
  - destruct (is_ErrTxDone rbErr); eexists; split; reflexivity.
  - eexists; split; reflexivity.
Qed.

(** A spec that fails after the specs before it went through ends the
    loop with its error, wrapped with its pack's name. *)
Lemma apply_each_fails_at pre spec post d1 d2 d3 e :
  apply_each pre d1 = (inl tt, d2) ->
  applyPackSpec spec d2 = (inr e, d3) ->
  apply_each (pre ++ spec :: post) d1
  = (inr (withMessage e ("applying pack '" +++ Name spec +++ "'")), d3).
Proof.
  unfold apply_each. intros Hp Hf.
  rewrite for_range_app, Hp. simpl. unfold bind, wrapping. rewrite Hf.
  reflexivity.
Qed.

(** C1, as the code has it.  [ApplyPackSpecs] is all or nothing over the
    batch as long as the rollback it attempts works.  Whatever the store
    meets, the call leaves no transaction open, and leaves the committed
    tables as it found them unless it returns nil.  When a spec of the
    batch fails, at whatever step, after the specs before it went through,
    nothing is committed, and the call returns that failure wrapped with
    "applying pack '<name of that spec>'" if the rollback works or finds the
    transaction finished; if the rollback fails otherwise, the call does
    not return: it panics, with a message that carries both errors.  It
    panics in no other case.  When it returns nil the committed tables are
    the working copy reached by applying every spec of the batch in
    turn. *)
Theorem ApplyPackSpecs_all_or_nothing (specs : list PackSpec) (d : Datastore) :
  tx d = None ->
  exists r d',
    ApplyPackSpecs specs d = (r, d')
    /\ tx d' = None
    /\ (r <> Returned None -> committed d' = committed d)
    /\ (forall pre spec post d1 d2 d3 e,
          specs = pre ++ spec :: post ->
          Beginx d = (inl tt, d1) ->
          apply_each pre d1 = (inl tt, d2) ->
          applyPackSpec spec d2 = (inr e, d3) ->
          let err := withMessage e ("applying pack '" +++ Name spec +++ "'") in
          Error err = ("applying pack '" +++ Name spec +++ "'") +++ ": " +++ Error e
          /\ committed d' = committed d
          /\ match fst (Rollback d3) with
             | None => r = Returned (Some err)
             | Some rbErr =>
                 if is_ErrTxDone rbErr then r = Returned (Some err)
                 else r = Panicked ("got err '" +++ Error rbErr
                                    +++ "' rolling back after err '"
                                    +++ Error err +++ "'")
             end)
    /\ (r = Returned None ->
        exists d1 d2 t,
          Beginx d = (inl tt, d1)
          /\ apply_each specs d1 = (inl tt, d2)
          /\ tx d2 = Some t
          /\ committed d' = t)
    /\ (forall msg, r = Panicked msg ->
        exists d1 d2 err rbErr,
          Beginx d = (inl tt, d1)
          /\ apply_each specs d1 = (inr err, d2)
          /\ fst (Rollback d2) = Some rbErr
          /\ is_ErrTxDone rbErr = false
          /\ msg = "got err '" +++ Error rbErr +++ "' rolling back after err '"
                   +++ Error err +++ "'").
Proof.
  intro T0. unfold ApplyPackSpecs.
  destruct (Beginx d) as [[[] | e0] d1] eqn:B.
  - destruct (Beginx_ok _ _ B) as [Bc Bt].
    pose proof (apply_each_keeps specs d1) as K.
    destruct (apply_each specs d1) as [[[] | e1] d2] eqn:L; simpl in K.
    + (* every spec went through: commit *)
      assert (NoFail : forall pre spec post d1' d2' d3 e,
                 specs = pre ++ spec :: post ->
                 (inl tt : unit + error, d1) = (inl tt, d1') ->
                 apply_each pre d1' = (inl tt, d2') ->
                 applyPackSpec spec d2' = (inr e, d3) -> False).
      { intros pre spec post d1' d2' d3 e Hs Hb Hp Hf.
        inversion Hb; subst d1' specs.
        rewrite (apply_each_fails_at _ _ post _ _ _ _ Hp Hf) in L. discriminate. }
      unfold Commit. destruct (tx d2) as [t |] eqn:T.
      * pose proof (next_fault_committed d2) as Fc.
        destruct (next_fault d2) as [[e2 |] d3] eqn:F; simpl in *.
        -- eexists _, _. split; [reflexivity |]. simpl.
           split; [reflexivity |].
           split; [intros; congruence |].
           split; [intros; exfalso; eauto |].
           split; [discriminate | discriminate].
        -- eexists _, _. split; [reflexivity |]. simpl.
           split; [reflexivity |].
           split; [congruence |].
           split; [intros; exfalso; eauto |].
           split; [| discriminate].
           intros _. exists d1, d2, t. auto.
      * simpl. unfold Rollback. rewrite T. simpl.
        eexists _, _. split; [reflexivity |].
        split; [exact T |].
        split; [intros; congruence |].
        split; [intros; exfalso; eauto |].
        split; [discriminate | discriminate].
    + (* a spec failed: the deferred rollback *)
      destruct (rollback_on_error_Some tt e1 d2) as [out [R Out]].
      destruct (Rollback_leaves d2) as [Rc Rt].
      rewrite R.
      assert (Shape :
                match fst (Rollback d2) with
                | None => out = Returned (tt, Some e1)
                | Some rbErr =>
                    if is_ErrTxDone rbErr then out = Returned (tt, Some e1)
                    else out = Panicked ("got err '" +++ Error rbErr
                                         +++ "' rolling back after err '"
                                         +++ Error e1 +++ "'")
                end) by exact Out.
      exists (match out with
              | Returned (_, err) => Returned err
              | Panicked msg => Panicked msg
              end), (snd (Rollback d2)).
      split; [destruct out as [[u err] | msg]; reflexivity |].
      split; [exact Rt |].
      split; [intros; congruence |].
      split; [| split].
      * intros pre spec post d1' d2' d3' e Hs Hb Hp Hf.
        inversion Hb; subst d1' specs.
        rewrite (apply_each_fails_at _ _ post _ _ _ _ Hp Hf) in L.
        injection L as He Hd. subst e1 d2. simpl.
        split; [reflexivity |]. split; [congruence |].
        destruct (fst (Rollback d3')) as [rbErr |].
        -- destruct (is_ErrTxDone rbErr); rewrite Out; reflexivity.
        -- rewrite Out. reflexivity.
      * destruct (fst (Rollback d2)) as [rbErr |].
        -- destruct (is_ErrTxDone rbErr); rewrite Out; discriminate.
        -- rewrite Out. discriminate.
      * intros msg Hm. exists d1, d2, e1.
        destruct (fst (Rollback d2)) as [rbErr |] eqn:Rb.
        -- destruct (is_ErrTxDone rbErr) eqn:Done; rewrite Out in Hm.
           ++ discriminate.
           ++ inversion Hm; subst. exists rbErr. auto.
        -- rewrite Out in Hm. discriminate.
  - (* no transaction could be begun *)
    eexists _, _. split; [reflexivity |]. simpl.
    assert (tx d1 = None /\ committed d1 = committed d) as [T1 C1].
    { unfold Beginx in B. pose proof (next_fault_tx d) as Ft.
      pose proof (next_fault_committed d) as Fc.
      destruct (next_fault d) as [[e' |] d'']; inversion B; subst; simpl in *.
      split; congruence. }
    split; [exact T1 |].
    split; [intros; exact C1 |].
    split; [intros; discriminate |].
    split; discriminate.
Qed.

(* ================================================================== *)
(** ** Runs that meet no infrastructure failure *)

Lemma applyPackSpec_unfold spec :
  applyPackSpec spec =
  (wrapping "insert/update pack"
     (tx_Exec (upsert_pack (Name spec) (Description spec) (Platform spec))) ;;;
   packID <- wrapping "getting pack ID" (tx_Get (select_pack_id (Name spec))) ;;
   wrapping "delete existing scheduled queries"
     (tx_Exec (delete_scheduled_queries packID)) ;;;
   for_range (Queries spec) (schedule_query packID) ;;;
   wrapping "delete existing targets" (tx_Exec (delete_pack_targets packID)) ;;;
   for_range (Labels (Targets spec)) (add_label packID)).
Proof. reflexivity. Qed.

Lemma tx_Exec_live stmt c t :
  tx_Exec stmt (live c t) =
  match stmt t with
  | inl t' => (inl tt, live c t')
  | inr e => (inr e, live c t)
  end.
Proof. unfold tx_Exec, live; simpl. destruct (stmt t); reflexivity. Qed.

Lemma tx_Select_live {A} (query : Tables -> list A) c t :
  tx_Select query (live c t) = (inl (query t), live c t).
Proof. reflexivity. Qed.

Lemma tx_Get_live {A} (query : Tables -> list A) c t :
  tx_Get query (live c t) =
  match query t with
  | [] => (inr ErrNoRows, live c t)
  | x :: _ => (inl x, live c t)
  end.
Proof. unfold tx_Get. rewrite tx_Select_live. destruct (query t); reflexivity. Qed.

(** Erasure of the failures that a successful run did not meet. *)
Lemma ret_erasable {A} (a : A) : erasable (ret a).
Proof. intros d a' d' E. inversion E; subst. reflexivity. Qed.

Lemma bind_erasable {A B} (m : M A) (k : A -> M B) :
  erasable m -> (forall a, erasable (k a)) -> erasable (bind m k).
Proof.
  intros Hm Hk d b d' E. unfold bind in *.
  destruct (m d) as [[a | e] d1] eqn:E1; [| discriminate].
  rewrite (Hm _ _ _ E1). apply Hk. exact E.
Qed.

Lemma wrapping_erasable {A} msg (m : M A) : erasable m -> erasable (wrapping msg m).
Proof.
  intros Hm d a d' E. unfold wrapping in *.
  destruct (m d) as [[a1 | e] d1] eqn:E1; [| discriminate].
  inversion E; subst. rewrite (Hm _ _ _ E1). reflexivity.
Qed.

Lemma tx_Exec_erasable stmt : erasable (tx_Exec stmt).
Proof.
  intros d a d' E. unfold tx_Exec, next_fault in *.
  destruct d as [c o fs]; simpl in *.
  destruct fs as [| [e |] fs]; simpl in *; try discriminate;
    (destruct o as [t |]; [| discriminate]);
    (destruct (stmt t) as [t' | e']; [| discriminate]);
    inversion E; subst; reflexivity.
Qed.

Lemma tx_Select_erasable {A} (query : Tables -> list A) : erasable (tx_Select query).
Proof.
  intros d a d' E. unfold tx_Select, next_fault in *.
  destruct d as [c o fs]; simpl in *.
  destruct fs as [| [e |] fs]; simpl in *; try discriminate;
    (destruct o as [t |]; [| discriminate]);
    inversion E; subst; reflexivity.
Qed.

Lemma tx_Get_erasable {A} (query : Tables -> list A) : erasable (tx_Get query).
Proof.
  intros d a d' E. unfold tx_Get in *.
  destruct (tx_Select query d) as [[[| x rows] | e] d1] eqn:E1; try discriminate.
  inversion E; subst. rewrite (tx_Select_erasable _ _ _ _ E1). reflexivity.
Qed.

Lemma for_range_erasable {A} (xs : list A) body :
  (forall x, erasable (body x)) -> erasable (for_range xs body).
Proof.
  intro Hb. induction xs as [| x xs IH]; simpl.
  - apply ret_erasable.
  - apply bind_erasable; auto.
Qed.

Lemma schedule_query_erasable packID q : erasable (schedule_query packID q).
Proof.
  intros d a d' E. unfold schedule_query in *.
  destruct (tx_Exec (insert_scheduled_query packID q) d) as [[u | e] d1] eqn:E1.
  - inversion E; subst. rewrite (tx_Exec_erasable _ _ _ _ E1). reflexivity.
  - destruct (isChildForeignKeyError (Some e)); discriminate.
Qed.

Lemma applyPackSpec_erasable spec : erasable (applyPackSpec spec).
Proof.
  rewrite applyPackSpec_unfold.
  repeat (apply bind_erasable; [| intro]);
    try apply wrapping_erasable; try apply tx_Exec_erasable;
    try apply tx_Get_erasable.
  - apply for_range_erasable. intro. apply schedule_query_erasable.
  - apply for_range_erasable. intro. apply wrapping_erasable, tx_Exec_erasable.
Qed.

Lemma apply_each_erasable specs : erasable (apply_each specs).
Proof.
  apply for_range_erasable. intro. apply wrapping_erasable, applyPackSpec_erasable.
Qed.

(** *** The statements, one by one *)

Lemma set_scheduled_queries_same t : set_scheduled_queries (scheduled_queries t) t = t.
Proof. destruct t; reflexivity. Qed.

Lemma set_pack_targets_same t : set_pack_targets (pack_targets t) t = t.
Proof. destruct t; reflexivity. Qed.

Lemma upsert_pack_upserted spec t :
  upsert_pack (Name spec) (Description spec) (Platform spec) t = inl (upserted spec t).
Proof.
  unfold upserted, upsert_pack.
  destruct (existsb (named (Name spec)) (packs t)); reflexivity.
Qed.

(** The upsert touches the pack table only. *)
Lemma upserted_frame spec t :
  scheduled_queries (upserted spec t) = scheduled_queries t
  /\ pack_targets (upserted spec t) = pack_targets t
  /\ labels (upserted spec t) = labels t
  /\ queries (upserted spec t) = queries t
  /\ hosts (upserted spec t) = hosts t
  /\ label_query_executions (upserted spec t) = label_query_executions t
  /\ target_id_not_null (upserted spec t) = target_id_not_null t.
Proof.
  unfold upserted, upsert_pack.
  destruct (existsb (named (Name spec)) (packs t)); simpl; repeat split.
Qed.

Lemma named_refl name d p b1 b2 i :
  named name {| p_id := i; p_name := name; p_description := d; p_platform := p;
                p_disabled := b1; p_deleted := b2 |} = true.
Proof. unfold named; simpl. apply String.eqb_refl. Qed.

(** After the upsert a row bears the name: the lookup of the id finds it. *)
Lemma select_pack_id_upserted spec t :
  exists rest, select_pack_id (Name spec) (upserted spec t)
               = pack_id (Name spec) (upserted spec t) :: rest.
Proof.
  unfold pack_id.
  assert (H : select_pack_id (Name spec) (upserted spec t) <> []).
  { unfold select_pack_id, upserted, upsert_pack.
    destruct (existsb (named (Name spec)) (packs t)) eqn:E; simpl.
    - apply existsb_exists in E. destruct E as [p [Hin Hn]].
      intro C. apply map_eq_nil in C.
      assert (Hin' : In {| p_id := p_id p; p_name := Name spec;
                           p_description := Description spec;
                           p_platform := Platform spec;
                           p_disabled := p_disabled p; p_deleted := false |}
                        (filter (named (Name spec))
                           (map (fun p0 => if named (Name spec) p0
                                           then {| p_id := p_id p0; p_name := Name spec;
                                                   p_description := Description spec;
                                                   p_platform := Platform spec;
                                                   p_disabled := p_disabled p0;
                                                   p_deleted := false |}
                                           else p0) (packs t)))).
      { apply filter_In. split; [| apply named_refl].
        apply in_map_iff. exists p. rewrite Hn. auto. }
      rewrite C in Hin'. destruct Hin'.
    - rewrite filter_app, map_app. simpl. rewrite named_refl. simpl.
      intro C. apply app_eq_nil in C. destruct C as [_ C]. discriminate. }
  destruct (select_pack_id (Name spec) (upserted spec t)) as [| x rest].
  - congruence.
  - exists rest. reflexivity.
Qed.

Lemma pack_exists_In pid t :
  pack_exists pid t = true <-> In pid (map p_id (packs t)).
Proof.
  unfold pack_exists. rewrite existsb_exists, in_map_iff. split.
  - intros [p [Hin E]]. apply N.eqb_eq in E. eauto.
  - intros [p [E Hin]]. exists p. split; auto. apply N.eqb_eq. auto.
Qed.

Lemma select_pack_id_In pid name t :
  In pid (select_pack_id name t) -> pack_exists pid t = true.
Proof.
  unfold select_pack_id. intro H. apply pack_exists_In.
  apply in_map_iff in H. destruct H as [p [E Hin]].
  apply filter_In in Hin. apply in_map_iff. exists p. tauto.
Qed.

Lemma pack_exists_upserted spec t :
  pack_exists (pack_id (Name spec) (upserted spec t)) (upserted spec t) = true.
Proof.
  destruct (select_pack_id_upserted spec t) as [rest E].
  apply (select_pack_id_In _ (Name spec)). rewrite E. left. reflexivity.
Qed.

(** The loop over the scheduled queries. *)
Lemma schedule_queries_live c packID qs : forall t,
  pack_exists packID t = true ->
  forallb (fun q => query_exists (QueryName q) t) qs = true ->
  for_range qs (schedule_query packID) (live c t)
  = (inl tt,
     live c (set_scheduled_queries
               (scheduled_queries t ++ map (scheduled_query_row packID) qs) t)).
Proof.
  induction qs as [| q qs IH]; intros t Hp Hq; simpl.
  - rewrite app_nil_r, set_scheduled_queries_same. reflexivity.
  - simpl in Hq. apply andb_true_iff in Hq. destruct Hq as [Hq1 Hq2].
    unfold bind. unfold schedule_query at 1. rewrite tx_Exec_live.
    unfold insert_scheduled_query. rewrite Hp, Hq1. simpl.
    rewrite IH; [| exact Hp | exact Hq2].
    simpl. rewrite <- app_assoc. reflexivity.
Qed.

Lemma schedule_queries_inv c packID qs : forall t d',
  for_range qs (schedule_query packID) (live c t) = (inl tt, d') ->
  forallb (fun q => query_exists (QueryName q) t) qs = true.
Proof.
  induction qs as [| q qs IH]; intros t d' E; simpl in *.
  - reflexivity.
  - unfold bind in E. unfold schedule_query at 1 in E. rewrite tx_Exec_live in E.
    unfold insert_scheduled_query in E.
    destruct (pack_exists packID t && query_exists (QueryName q) t) eqn:C.
    + apply andb_true_iff in C. destruct C as [_ C]. rewrite C. simpl.
      apply IH in E. exact E.
    + simpl in E. discriminate.
Qed.

(** The first scheduled query whose query does not exist stops the loop with
    the "unknown query" error. *)
Lemma schedule_queries_unknown c packID qpre q qpost t :
  pack_exists packID t = true ->
  forallb (fun q => query_exists (QueryName q) t) qpre = true ->
  query_exists (QueryName q) t = false ->
  exists t',
    for_range (qpre ++ q :: qpost) (schedule_query packID) (live c t)
    = (inr (fundamental ("cannot schedule unknown query '" +++ QueryName q +++ "'")),
       live c t').
Proof.
  intros Hp Hpre Hq. rewrite for_range_app.
  rewrite (schedule_queries_live _ _ _ _ Hp Hpre). simpl.
  unfold bind. unfold schedule_query at 1. rewrite tx_Exec_live.
  unfold insert_scheduled_query.
  change (query_exists (QueryName q) (set_scheduled_queries ?x t))
    with (query_exists (QueryName q) t).
  rewrite Hq, andb_false_r. simpl.
  eexists. reflexivity.
Qed.

Lemma insert_pack_target_ok packID l t :
  pack_exists packID t = true ->
  label_insertable t l = true ->
  insert_pack_target packID TargetLabel l t
  = inl (set_pack_targets (pack_targets t ++ [target_row packID t l]) t).
Proof.
  unfold insert_pack_target, label_insertable, target_row, label_target.
  intros Hp Hl. destruct (select_label_id l t) as [[i |] | e]; try discriminate.
  - rewrite Hp. reflexivity.
  - apply negb_true_iff in Hl. rewrite Hl, Hp. reflexivity.
Qed.

Lemma insert_pack_target_inv packID l t t' :
  insert_pack_target packID TargetLabel l t = inl t' -> label_insertable t l = true.
Proof.
  unfold insert_pack_target, label_insertable.
  destruct (select_label_id l t) as [[i |] | e]; try discriminate; trivial.
  destruct (target_id_not_null t); [discriminate | reflexivity].
Qed.

Lemma insert_pack_target_frame packID type l t t' :
  insert_pack_target packID type l t = inl t' ->
  labels t' = labels t /\ target_id_not_null t' = target_id_not_null t.
Proof.
  unfold insert_pack_target. intro I.
  destruct (select_label_id l t) as [[i |] | e]; try discriminate;
    destruct (target_id_not_null t) eqn:NN; try discriminate;
    destruct (pack_exists packID t); try discriminate;
    inversion I; subst; simpl; auto.
Qed.

(** The loop over the label targets. *)
Lemma add_labels_live c packID ls : forall t t0,
  pack_exists packID t = true ->
  labels t = labels t0 -> target_id_not_null t = target_id_not_null t0 ->
  forallb (label_insertable t0) ls = true ->
  for_range ls (add_label packID) (live c t)
  = (inl tt,
     live c (set_pack_targets (pack_targets t ++ map (target_row packID t0) ls) t)).
Proof.
  induction ls as [| l ls IH]; intros t t0 Hp HL HN Hl; simpl.
  - rewrite app_nil_r, set_pack_targets_same. reflexivity.
  - simpl in Hl. apply andb_true_iff in Hl. destruct Hl as [Hl1 Hl2].
    assert (Ins : label_insertable t l = label_insertable t0 l).
    { unfold label_insertable, select_label_id. rewrite HL, HN. reflexivity. }
    assert (Row : target_row packID t l = target_row packID t0 l).
    { unfold target_row, label_target, select_label_id. rewrite HL. reflexivity. }
    unfold bind. unfold add_label at 1. unfold wrapping. rewrite tx_Exec_live.
    rewrite insert_pack_target_ok; [| exact Hp | congruence].
    rewrite (IH _ t0); try assumption.
    simpl. rewrite <- app_assoc, Row. reflexivity.
Qed.

Lemma add_labels_inv c packID ls : forall t t0 d',
  labels t = labels t0 -> target_id_not_null t = target_id_not_null t0 ->
  for_range ls (add_label packID) (live c t) = (inl tt, d') ->
  forallb (label_insertable t0) ls = true.
Proof.
  induction ls as [| l ls IH]; intros t t0 d' HL HN E; simpl in *.
  - reflexivity.
  - unfold bind in E. unfold add_label at 1 in E. unfold wrapping in E.
    rewrite tx_Exec_live in E.
    destruct (insert_pack_target packID TargetLabel l t) as [t1 | e] eqn:I;
      [| discriminate].
    assert (Ins : label_insertable t0 l = true).
    { apply insert_pack_target_inv in I as I'.
      unfold label_insertable, select_label_id in *. rewrite <- HL, <- HN. exact I'. }
    rewrite Ins. simpl.
    destruct (insert_pack_target_frame _ _ _ _ _ I) as [F1 F2].
    apply (IH t1 t0 d'); [congruence | congruence | exact E].
Qed.

(** *** One spec, then the batch *)

Lemma applyPackSpec_live_ok c t spec :
  applicable spec t = true ->
  applyPackSpec spec (live c t) = (inl tt, live c (reconciled spec t)).
Proof.
  intro A. apply andb_true_iff in A. destruct A as [Aq Al].
  rewrite applyPackSpec_unfold.
  destruct (upserted_frame spec t) as (Fsq & Fpt & Fl & Fq & Fh & Fe & Fn).
  destruct (select_pack_id_upserted spec t) as [rest Sel].
  pose proof (pack_exists_upserted spec t) as Pe.
  set (t1 := upserted spec t) in *.
  set (packID := pack_id (Name spec) t1) in *.
  unfold bind at 1. unfold wrapping at 1. rewrite tx_Exec_live, upsert_pack_upserted.
  fold t1.
  unfold bind at 1. unfold wrapping at 1. rewrite tx_Get_live, Sel.
  unfold bind at 1. unfold wrapping at 1. rewrite tx_Exec_live. simpl delete_scheduled_queries.
  unfold delete_scheduled_queries.
  unfold bind at 1.
  rewrite schedule_queries_live.
  - unfold bind at 1. unfold wrapping at 1. rewrite tx_Exec_live.
    unfold delete_pack_targets.
    rewrite (add_labels_live c packID _ _ t).
    + unfold reconciled. fold t1. fold packID. simpl.
      rewrite Fsq, Fpt. reflexivity.
    + exact Pe.
    + simpl. exact Fl.
    + simpl. exact Fn.
    + exact Al.
  - exact Pe.
  - unfold query_exists in *. simpl. rewrite Fq. exact Aq.
Qed.

Lemma applyPackSpec_live_inv c t spec d' :
  applyPackSpec spec (live c t) = (inl tt, d') -> applicable spec t = true.
Proof.
  rewrite applyPackSpec_unfold.
  destruct (upserted_frame spec t) as (Fsq & Fpt & Fl & Fq & Fh & Fe & Fn).
  destruct (select_pack_id_upserted spec t) as [rest Sel].
  pose proof (pack_exists_upserted spec t) as Pe.
  set (t1 := upserted spec t) in *.
  set (packID := pack_id (Name spec) t1) in *.
  unfold bind at 1. unfold wrapping at 1. rewrite tx_Exec_live, upsert_pack_upserted.
  fold t1.
  unfold bind at 1. unfold wrapping at 1. rewrite tx_Get_live, Sel.
  unfold bind at 1. unfold wrapping at 1. rewrite tx_Exec_live.
  unfold delete_scheduled_queries.
  unfold bind at 1.
  intro E.
  match type of E with
  | context [for_range (Queries spec) (schedule_query packID) ?d] =>
      destruct (for_range (Queries spec) (schedule_query packID) d)
        as [[[] | e] d1] eqn:Q; [| discriminate]
  end.
  pose proof (schedule_queries_inv _ _ _ _ _ Q) as Aq.
  rewrite schedule_queries_live in Q; [| exact Pe | exact Aq].
  inversion Q; subst d1. clear Q.
  unfold bind at 1 in E. unfold wrapping at 1 in E. rewrite tx_Exec_live in E.
  unfold delete_pack_targets in E.
  apply (add_labels_inv c packID _ _ t) in E; [| exact Fl | exact Fn].
  unfold applicable. rewrite E, andb_true_r.
  unfold query_exists in *. simpl in Aq. rewrite Fq in Aq. exact Aq.
Qed.

Lemma apply_each_live c specs : forall t t',
  reconciled_all specs t = Some t' ->
  apply_each specs (live c t) = (inl tt, live c t').
Proof.
  unfold apply_each.
  induction specs as [| spec rest IH]; intros t t' R; simpl in *.
  - inversion R; subst. reflexivity.
  - destruct (applicable spec t) eqn:A; [| discriminate].
    unfold bind, wrapping. rewrite (applyPackSpec_live_ok _ _ _ A).
    apply IH. exact R.
Qed.

Lemma apply_each_live_inv c specs : forall t d',
  apply_each specs (live c t) = (inl tt, d') ->
  exists t', reconciled_all specs t = Some t' /\ d' = live c t'.
Proof.
  unfold apply_each.
  induction specs as [| spec rest IH]; intros t d' E; simpl in *.
  - inversion E; subst. eauto.
  - unfold bind, wrapping in E.
    destruct (applyPackSpec spec (live c t)) as [[[] | e] d1] eqn:S; [| discriminate].
    pose proof (applyPackSpec_live_inv _ _ _ _ S) as A.
    rewrite (applyPackSpec_live_ok _ _ _ A) in S. inversion S; subst d1.
    rewrite A. apply IH. exact E.
Qed.

(** A call of [ApplyPackSpecs] that returns nil has committed what the loop
    reaches from the tables it found. *)
Lemma ApplyPackSpecs_ok specs d d' :
  ApplyPackSpecs specs d = (Returned None, d') ->
  reconciled_all specs (committed d) = Some (committed d').
Proof.
  unfold ApplyPackSpecs.
  destruct (Beginx d) as [[[] | e0] d1] eqn:B; [| discriminate].
  destruct (Beginx_ok _ _ B) as [Bc Bt].
  destruct (apply_each specs d1) as [[[] | e1] d2] eqn:L.
  - pose proof (apply_each_erasable _ _ _ _ L) as L'.
    assert (clear_faults d1 = live (committed d) (committed d)) as Cl.
    { unfold clear_faults, live. rewrite Bc, Bt. reflexivity. }
    rewrite Cl in L'.
    apply apply_each_live_inv in L'. destruct L' as [t' [R D2]].
    unfold Commit.
    assert (T2 : tx d2 = Some t').
    { change (tx d2) with (tx (clear_faults d2)). rewrite D2. reflexivity. }
    rewrite T2. unfold next_fault.
    destruct (faults d2) as [| [e |] fs]; simpl; intro E; inversion E; subst; simpl.
    exact R. exact R.
  - destruct (rollback_on_error_Some tt e1 d2) as [out [R Out]]. rewrite R.
    destruct (fst (Rollback d2)) as [rbErr |];
      [destruct (is_ErrTxDone rbErr) |]; subst out; discriminate.
Qed.

(** Without infrastructure failures, [ApplyPackSpecs] returns nil exactly
    when the data conditions of every spec hold in turn. *)
Lemma ApplyPackSpecs_connect specs t t' :
  reconciled_all specs t = Some t' ->
  ApplyPackSpecs specs (connect t) = (Returned None, connect t').
Proof.
  intro R. unfold ApplyPackSpecs.
  replace (Beginx (connect t)) with (inl tt : unit + error, live t t)
    by reflexivity.
  rewrite (apply_each_live t _ _ _ R). reflexivity.
Qed.

(* ================================================================== *)
(** ** The upsert by name *)

Lemma packs_upserted spec t :
  packs (upserted spec t) =
  if existsb (named (Name spec)) (packs t)
  then map (touch spec) (packs t)
  else packs t ++ [fresh_pack spec (packs t)].
Proof.
  unfold upserted, upsert_pack.
  destruct (existsb (named (Name spec)) (packs t)); reflexivity.
Qed.

Lemma named_iff name p : named name p = true <-> p_name p = name.
Proof. unfold named. apply String.eqb_eq. Qed.

Lemma touch_id spec p : p_id (touch spec p) = p_id p.
Proof. unfold touch. destruct (named (Name spec) p); reflexivity. Qed.

Lemma touch_name spec p : p_name (touch spec p) = p_name p.
Proof.
  unfold touch. destruct (named (Name spec) p) eqn:E; [| reflexivity].
  simpl. symmetry. apply named_iff. exact E.
Qed.

Lemma touch_disabled spec p : p_disabled (touch spec p) = p_disabled p.
Proof. unfold touch. destruct (named (Name spec) p); reflexivity. Qed.

Lemma map_id_touch spec ps : map p_id (map (touch spec) ps) = map p_id ps.
Proof. rewrite map_map. apply map_ext. intro. apply touch_id. Qed.

Lemma map_name_touch spec ps : map p_name (map (touch spec) ps) = map p_name ps.
Proof. rewrite map_map. apply map_ext. intro. apply touch_name. Qed.

Lemma named_touch name spec p : named name (touch spec p) = named name p.
Proof. unfold named. rewrite touch_name. reflexivity. Qed.

Lemma filter_map_commute {A B} (f : A -> B) (g : B -> bool) (l : list A) :
  filter g (map f l) = map f (filter (fun x => g (f x)) l).
Proof.
  induction l as [| x l IH]; simpl; [reflexivity |].
  destruct (g (f x)); simpl; rewrite IH; reflexivity.
Qed.

Lemma existsb_named_In name ps :
  existsb (named name) ps = true <-> In name (map p_name ps).
Proof.
  rewrite existsb_exists, in_map_iff. split.
  - intros [p [Hin E]]. apply named_iff in E. eauto.
  - intros [p [E Hin]]. exists p. split; auto. apply named_iff. auto.
Qed.

Lemma next_id_above ids i : In i ids -> i < next_id ids.
Proof.
  unfold next_id. induction ids as [| j ids IH]; simpl; intro H; [tauto |].
  destruct H as [-> | H]; [lia |]. specialize (IH H). lia.
Qed.

Lemma next_id_fresh ids : ~ In (next_id ids) ids.
Proof. intro H. apply next_id_above in H. lia. Qed.

(** The lookup of an id by name, after the upsert: the ids found before,
    then the fresh row if the upsert inserted one under that name. *)
Lemma select_pack_id_upserted_any name spec t :
  exists extra,
    select_pack_id name (upserted spec t) = select_pack_id name t ++ extra
    /\ (existsb (named (Name spec)) (packs t) = true -> extra = []).
Proof.
  unfold select_pack_id. rewrite packs_upserted.
  destruct (existsb (named (Name spec)) (packs t)) eqn:E.
  - exists []. split; [| reflexivity]. rewrite app_nil_r.
    rewrite filter_map_commute, map_id_touch.
    f_equal. apply filter_ext. intro p. apply named_touch.
  - rewrite filter_app, map_app. eexists. split; [reflexivity | discriminate].
Qed.

(** A name that has a row keeps its id through every later upsert. *)
Lemma pack_id_upserted_stable name spec t :
  select_pack_id name t <> [] ->
  select_pack_id name (upserted spec t) <> []
  /\ pack_id name (upserted spec t) = pack_id name t.
Proof.
  intro H. destruct (select_pack_id_upserted_any name spec t) as [extra [E _]].
  unfold pack_id. rewrite E.
  destruct (select_pack_id name t); [congruence |]. simpl. split; [discriminate | reflexivity].
Qed.

Lemma select_pack_id_nonempty name t :
  select_pack_id name t <> [] <-> In name (map p_name (packs t)).
Proof.
  rewrite <- existsb_named_In. unfold select_pack_id. split.
  - intro H. destruct (filter (named name) (packs t)) as [| p l] eqn:F; [easy |].
    assert (In p (filter (named name) (packs t))) as Hin by (rewrite F; left; reflexivity).
    apply filter_In in Hin. apply existsb_exists. exists p. exact Hin.
  - intros H C. apply existsb_exists in H. destruct H as [p [Hin Hn]].
    apply map_eq_nil in C.
    assert (In p (filter (named name) (packs t))) as Hin' by (apply filter_In; auto).
    rewrite C in Hin'. destruct Hin'.
Qed.

(** The id found for a name is the id of a row that bears the name. *)
Lemma pack_id_row name t :
  select_pack_id name t <> [] ->
  exists p, In p (packs t) /\ p_name p = name /\ p_id p = pack_id name t.
Proof.
  unfold pack_id, select_pack_id. intro H.
  destruct (filter (named name) (packs t)) as [| p l] eqn:F; [easy |].
  assert (In p (filter (named name) (packs t))) as Hin by (rewrite F; left; reflexivity).
  apply filter_In in Hin. destruct Hin as [Hin Hn].
  exists p. split; [exact Hin |]. split; [apply named_iff; exact Hn | reflexivity].
Qed.

Lemma NoDup_map_inj {A B} (f : A -> B) (l : list A) x y :
  NoDup (map f l) -> In x l -> In y l -> f x = f y -> x = y.
Proof.
  induction l as [| a l IH]; simpl; intros ND Hx Hy E; [tauto |].
  inversion ND as [| ? ? Hn ND']; subst.
  destruct Hx as [-> | Hx], Hy as [-> | Hy]; auto.
  - exfalso. apply Hn. rewrite E. apply in_map. exact Hy.
  - exfalso. apply Hn. rewrite <- E. apply in_map. exact Hx.
Qed.

(** Two names that have rows have different ids. *)
Lemma pack_id_inj n m t :
  NoDup (map p_id (packs t)) ->
  select_pack_id n t <> [] -> select_pack_id m t <> [] ->
  n <> m -> pack_id n t <> pack_id m t.
Proof.
  intros ND Hn Hm Neq E.
  destruct (pack_id_row _ _ Hn) as [p [Pin [Pn Pi]]].
  destruct (pack_id_row _ _ Hm) as [q [Qin [Qn Qi]]].
  assert (p = q) by (apply (NoDup_map_inj p_id (packs t)); congruence).
  subst q. congruence.
Qed.

(** The upsert keeps the keys of the pack table. *)
Lemma upserted_keys spec t : keys_hold t -> keys_hold (upserted spec t).
Proof.
  intros (Hi & Hn & Hli & Hln).
  destruct (upserted_frame spec t) as (_ & _ & Fl & _).
  unfold keys_hold. rewrite Fl, packs_upserted.
  destruct (existsb (named (Name spec)) (packs t)) eqn:E.
  - rewrite map_id_touch, map_name_touch. auto.
  - rewrite !map_app. simpl. repeat split; auto.
    + apply NoDup_app; try assumption.
      * repeat constructor. simpl. tauto.
      * intros x Hx [<- | []]. apply (next_id_fresh _ Hx).
    + apply NoDup_app; try assumption.
      * repeat constructor. simpl. tauto.
      * intros x Hx [<- | []]. apply existsb_named_In in Hx. congruence.
Qed.

Lemma applyPackSpec_ok spec d d' t :
  tx d = Some t ->
  applyPackSpec spec d = (inl tt, d') ->
  applicable spec t = true /\ tx d' = Some (reconciled spec t)
  /\ committed d' = committed d.
Proof.
  intros T E.
  pose proof (applyPackSpec_keeps spec d) as K. rewrite E in K. simpl in K.
  apply applyPackSpec_erasable in E.
  assert (clear_faults d = live (committed d) t) as Cl.
  { unfold clear_faults, live. rewrite T. reflexivity. }
  rewrite Cl in E.
  pose proof (applyPackSpec_live_inv _ _ _ _ E) as A.
  rewrite (applyPackSpec_live_ok _ _ _ A) in E.
  split; [exact A |]. split; [| exact K].
  change (tx d') with (tx (clear_faults d')).
  replace (clear_faults d') with (live (committed d) (reconciled spec t))
    by congruence.
  reflexivity.
Qed.

(** C8.  The pack row is upserted by name.  Whatever the statement finds, it
    raises no error.  When [applyPackSpec] goes through on a working copy
    where a row bears the spec's name, deleted or not, the pack table keeps
    its rows, in place and with their ids: the row of that name takes the
    spec's description and platform and is no longer deleted, every other
    row is left as it was.  When no row bears the name, one row is added
    with a fresh id. *)
Theorem applyPackSpec_upserts_by_name (spec : PackSpec) (d d' : Datastore) (t : Tables) :
  tx d = Some t ->
  applyPackSpec spec d = (inl tt, d') ->
  (exists t1, upsert_pack (Name spec) (Description spec) (Platform spec) t = inl t1)
  /\ exists t',
      tx d' = Some t'
      /\ (In (Name spec) (map p_name (packs t)) ->
          packs t' =
          map (fun p =>
                 if String.eqb (p_name p) (Name spec) then
                   {| p_id := p_id p; p_name := p_name p;
                      p_description := Description spec;
                      p_platform := Platform spec;
                      p_disabled := p_disabled p; p_deleted := false |}
                 else p)
              (packs t))
      /\ (~ In (Name spec) (map p_name (packs t)) ->
          exists id,
            ~ In id (map p_id (packs t))
            /\ packs t' =
               packs t ++
               [{| p_id := id; p_name := Name spec;
                   p_description := Description spec;
                   p_platform := Platform spec;
                   p_disabled := false; p_deleted := false |}]).
Proof.
  intros T E. split.
  - eexists. apply upsert_pack_upserted.
  - destruct (applyPackSpec_ok _ _ _ _ T E) as (_ & T' & _).
    exists (reconciled spec t). split; [exact T' |].
    assert (P : packs (reconciled spec t) = packs (upserted spec t)) by reflexivity.
    rewrite P, packs_upserted. split.
    + intro H. apply existsb_named_In in H. rewrite H.
      apply map_ext. intro p. unfold touch, named.
      destruct (String.eqb (p_name p) (Name spec)) eqn:N; [| reflexivity].
      apply String.eqb_eq in N. rewrite N. reflexivity.
    + intro H.
      destruct (existsb (named (Name spec)) (packs t)) eqn:X.
      * exfalso. apply H. apply existsb_named_In. exact X.
      * exists (next_id (map p_id (packs t))). split; [apply next_id_fresh | reflexivity].
Qed.

(* ================================================================== *)
(** ** Wholesale replacement of child rows, parent after parent *)

Section Replace.

Variables (R S : Type) (key : R -> N) (parent : S -> N) (rows : S -> list R).
Hypothesis rows_key : forall s r, In r (rows s) -> key r = parent s.

Local Abbreviation step := (fun X s => replace_rows key (parent s) (rows s) X).
Local Abbreviation foreign specs :=
  (fun r => negb (existsb (fun s => key r =? parent s) specs)).

Lemma filter_filter (f g : R -> bool) (l : list R) :
  filter f (filter g l) = filter (fun r => g r && f r) l.
Proof.
  induction l as [| x l IH]; simpl; [reflexivity |].
  destruct (g x); simpl; [destruct (f x) |]; rewrite IH; reflexivity.
Qed.

Lemma filter_none (f : R -> bool) (l : list R) :
  (forall r, In r l -> f r = false) -> filter f l = [].
Proof.
  induction l as [| x l IH]; simpl; intro H; [reflexivity |].
  rewrite (H x (or_introl eq_refl)). apply IH. intros. apply H. auto.
Qed.

Lemma filter_all (f : R -> bool) (l : list R) :
  (forall r, In r l -> f r = true) -> filter f l = l.
Proof.
  induction l as [| x l IH]; simpl; intro H; [reflexivity |].
  rewrite (H x (or_introl eq_refl)). f_equal. apply IH. intros. apply H. auto.
Qed.

(** Rows put before the table only pass the filters. *)
Lemma fold_replace_split specs : forall X Y,
  fold_left step specs (X ++ Y) = filter (foreign specs) X ++ fold_left step specs Y.
Proof.
  induction specs as [| s specs IH]; intros X Y; simpl.
  - rewrite filter_all; auto.
  - unfold replace_rows at 2 3. rewrite filter_app, <- app_assoc, IH.
    f_equal. rewrite filter_filter. apply filter_ext. intro r.
    destruct (key r =? parent s); reflexivity.
Qed.

(** Every row written belongs to a parent of the batch. *)
Lemma fold_replace_keys specs : forall X r,
  In r (fold_left step specs X) ->
  In r X \/ exists s, In s specs /\ key r = parent s.
Proof.
  induction specs as [| s specs IH]; intros X r H; simpl in *.
  - auto.
  - apply IH in H. destruct H as [H | [s' [Hs' Hk]]].
    + unfold replace_rows in H. apply in_app_or in H. destruct H as [H | H].
      * apply filter_In in H. tauto.
      * right. exists s. split; auto.
    + right. exists s'. auto.
Qed.

(** Replacing twice is replacing once. *)
Lemma fold_replace_idem specs X :
  fold_left step specs (fold_left step specs X) = fold_left step specs X.
Proof.
  assert (Split : forall Z,
             fold_left step specs Z
             = filter (foreign specs) Z ++ fold_left step specs []).
  { intro Z. rewrite <- (app_nil_r Z) at 1. apply fold_replace_split. }
  rewrite (Split (fold_left step specs X)).
  rewrite (Split X) at 1.
  rewrite filter_app, filter_filter.
  rewrite (filter_none _ (fold_left step specs [])).
  - rewrite app_nil_r, (Split X). f_equal.
    apply filter_ext. intro r. apply andb_diag.
  - intros r H. apply fold_replace_keys in H. destruct H as [[] | [s [Hs Hk]]].
    apply negb_false_iff. apply existsb_exists. exists s. split; auto.
    apply N.eqb_eq. exact Hk.
Qed.

(** The rows of a parent that the batch does not name are left alone. *)
Lemma fold_replace_other specs p : forall X,
  (forall s, In s specs -> parent s <> p) ->
  filter (fun r => key r =? p) (fold_left step specs X)
  = filter (fun r => key r =? p) X.
Proof.
  induction specs as [| s specs IH]; intros X H; simpl.
  - reflexivity.
  - rewrite IH by (intros; apply H; simpl; auto).
    unfold replace_rows. rewrite filter_app, filter_filter.
    rewrite (filter_none _ (rows s)).
    + rewrite app_nil_r. apply filter_ext. intro r.
      destruct (key r =? p) eqn:E; [| apply andb_false_r].
      apply N.eqb_eq in E. rewrite andb_true_r. apply negb_true_iff.
      apply N.eqb_neq. rewrite E. intro C. apply (H s); simpl; auto.
    + intros r Hr. apply N.eqb_neq. rewrite (rows_key _ _ Hr).
      apply H. simpl. auto.
Qed.

(** The rows of a parent are those of the last element that names it. *)
Lemma fold_replace_last pre s post X :
  (forall s', In s' post -> parent s' <> parent s) ->
  filter (fun r => key r =? parent s) (fold_left step (pre ++ s :: post) X)
  = rows s.
Proof.
  intro H. rewrite fold_left_app. simpl.
  rewrite fold_replace_other by exact H.
  unfold replace_rows. rewrite filter_app, filter_filter.
  rewrite filter_none.
  - simpl. apply filter_all. intros r Hr. apply N.eqb_eq. apply rows_key. exact Hr.
  - intros r _. destruct (key r =? parent s); reflexivity.
Qed.

End Replace.

Lemma fold_left_ext {A B} (f g : A -> B -> A) (l : list B) : forall a,
  (forall a b, In b l -> f a b = g a b) -> fold_left f l a = fold_left g l a.
Proof.
  induction l as [| b l IH]; intros a H; simpl; [reflexivity |].
  rewrite H by (simpl; auto). apply IH. intros. apply H. simpl. auto.
Qed.

(* ================================================================== *)
(** ** The tables after a batch *)

Lemma reconciled_frame spec t :
  packs (reconciled spec t) = packs (upserted spec t)
  /\ labels (reconciled spec t) = labels t
  /\ queries (reconciled spec t) = queries t
  /\ hosts (reconciled spec t) = hosts t
  /\ label_query_executions (reconciled spec t) = label_query_executions t
  /\ target_id_not_null (reconciled spec t) = target_id_not_null t.
Proof.
  destruct (upserted_frame spec t) as (Fsq & Fpt & Fl & Fq & Fh & Fe & Fn).
  unfold reconciled; simpl. auto 10.
Qed.

Lemma select_pack_id_packs name t1 t2 :
  packs t1 = packs t2 -> select_pack_id name t1 = select_pack_id name t2.
Proof. unfold select_pack_id. intros ->. reflexivity. Qed.

Lemma pack_id_packs name t1 t2 :
  packs t1 = packs t2 -> pack_id name t1 = pack_id name t2.
Proof. unfold pack_id. intro H. rewrite (select_pack_id_packs _ _ _ H). reflexivity. Qed.

Lemma label_target_labels t1 t2 l :
  labels t1 = labels t2 -> label_target t1 l = label_target t2 l.
Proof. unfold label_target, select_label_id. intros ->. reflexivity. Qed.

Lemma reconciled_keys spec t : keys_hold t -> keys_hold (reconciled spec t).
Proof.
  intro K. apply (upserted_keys spec) in K.
  destruct (reconciled_frame spec t) as (Fp & Fl & _).
  destruct (upserted_frame spec t) as (_ & _ & Fl' & _).
  unfold keys_hold in *. rewrite Fp, Fl. rewrite Fl' in K. exact K.
Qed.

Lemma reconciled_all_keys specs : forall t t',
  reconciled_all specs t = Some t' -> keys_hold t -> keys_hold t'.
Proof.
  induction specs as [| s specs IH]; simpl; intros t t' R K.
  - inversion R; subst. exact K.
  - destruct (applicable s t); [| discriminate].
    apply (IH _ _ R). apply reconciled_keys. exact K.
Qed.

(** A name that has a row keeps it, and its id, through the batch. *)
Lemma reconciled_all_stable specs : forall t t' name,
  reconciled_all specs t = Some t' ->
  select_pack_id name t <> [] ->
  select_pack_id name t' <> [] /\ pack_id name t' = pack_id name t.
Proof.
  induction specs as [| s specs IH]; simpl; intros t t' name R H.
  - inversion R; subst. auto.
  - destruct (applicable s t); [| discriminate].
    destruct (pack_id_upserted_stable name s t H) as [H1 H2].
    destruct (reconciled_frame s t) as (Fp & _).
    rewrite <- (select_pack_id_packs name _ _ Fp) in H1.
    destruct (IH _ _ name R H1) as [H3 H4].
    split; [exact H3 |]. rewrite H4, (pack_id_packs _ _ _ Fp). exact H2.
Qed.

(** The tables that the loop of [ApplyPackSpecs] reaches: every spec has its
    pack row, the child tables are replaced pack after pack under the ids
    that the names have in the end, and nothing else is written. *)
Lemma reconciled_all_closed specs : forall t t',
  reconciled_all specs t = Some t' ->
  (forall s, In s specs -> select_pack_id (Name s) t' <> [])
  /\ scheduled_queries t' =
     fold_left (fun X s =>
                  replace_rows sq_pack_id (pack_id (Name s) t')
                    (map (scheduled_query_row (pack_id (Name s) t')) (Queries s)) X)
               specs (scheduled_queries t)
  /\ pack_targets t' =
     fold_left (fun X s =>
                  replace_rows pt_pack_id (pack_id (Name s) t')
                    (map (target_row (pack_id (Name s) t') t) (Labels (Targets s))) X)
               specs (pack_targets t)
  /\ labels t' = labels t /\ queries t' = queries t /\ hosts t' = hosts t
  /\ label_query_executions t' = label_query_executions t
  /\ target_id_not_null t' = target_id_not_null t.
Proof.
  induction specs as [| s specs IH]; simpl; intros t t' R.
  - inversion R; subst. repeat split. intros s [].
  - destruct (applicable s t); [| discriminate].
    destruct (IH _ _ R) as (Hex & Hsq & Hpt & Hl & Hq & Hh & He & Hn).
    destruct (reconciled_frame s t) as (Fp & Fl & Fq & Fh & Fe & Fn).
    destruct (select_pack_id_upserted s t) as [rest Sel].
    assert (Here : select_pack_id (Name s) (reconciled s t) <> []).
    { rewrite (select_pack_id_packs _ _ _ Fp), Sel. discriminate. }
    destruct (reconciled_all_stable _ _ _ (Name s) R Here) as [Ex Id].
    rewrite (pack_id_packs _ _ _ Fp) in Id.
    repeat split; try congruence.
    + intros s' [<- | Hs']; auto.
    + rewrite Hsq. unfold reconciled; simpl. rewrite Id. reflexivity.
    + rewrite Hpt. unfold reconciled at 2; simpl. rewrite Id.
      apply fold_left_ext. intros X s' _. f_equal.
      apply map_ext. intro l. unfold target_row. f_equal.
      apply label_target_labels. exact Fl.
Qed.

Lemma scheduled_query_row_key packID q :
  sq_pack_id (scheduled_query_row packID q) = packID.
Proof. reflexivity. Qed.

(** The ids of the names of a batch, once it is applied: different names,
    different ids. *)
Lemma reconciled_all_ids_differ specs t t' s s' :
  reconciled_all specs t = Some t' -> keys_hold t ->
  In s specs -> In s' specs -> Name s' <> Name s ->
  pack_id (Name s') t' <> pack_id (Name s) t'.
Proof.
  intros R K Hs Hs' Neq.
  destruct (reconciled_all_closed _ _ _ R) as (Hex & _).
  destruct (reconciled_all_keys _ _ _ R K) as (Hid & _).
  apply pack_id_inj; auto.
Qed.

(** The child rows of a pack of the batch are those of the last spec that
    names it. *)
Lemma reconciled_all_children pre spec post t t' :
  reconciled_all (pre ++ spec :: post) t = Some t' -> keys_hold t ->
  (forall s', In s' post -> Name s' <> Name spec) ->
  filter (fun r => sq_pack_id r =? pack_id (Name spec) t') (scheduled_queries t')
  = map (scheduled_query_row (pack_id (Name spec) t')) (Queries spec)
  /\ filter (fun r => pt_pack_id r =? pack_id (Name spec) t') (pack_targets t')
     = map (target_row (pack_id (Name spec) t') t') (Labels (Targets spec)).
Proof.
  intros R K Last.
  destruct (reconciled_all_closed _ _ _ R) as (Hex & Hsq & Hpt & Hl & _).
  assert (Diff : forall s', In s' post ->
                   pack_id (Name s') t' <> pack_id (Name spec) t').
  { intros s' Hs'. apply (reconciled_all_ids_differ _ _ _ _ _ R K).
    - apply in_or_app. right. left. reflexivity.
    - apply in_or_app. right. right. exact Hs'.
    - apply Last. exact Hs'. }
  split.
  - rewrite Hsq.
    apply (fold_replace_last _ _ sq_pack_id (fun s => pack_id (Name s) t')
             (fun s => map (scheduled_query_row (pack_id (Name s) t')) (Queries s))).
    + intros s r Hr. apply in_map_iff in Hr. destruct Hr as [q [<- _]]. reflexivity.
    + exact Diff.
  - rewrite Hpt.
    rewrite (fold_replace_last _ _ pt_pack_id (fun s => pack_id (Name s) t')
             (fun s => map (target_row (pack_id (Name s) t') t) (Labels (Targets s)))).
    + apply map_ext. intro l. unfold target_row. f_equal.
      apply label_target_labels. congruence.
    + intros s r Hr. apply in_map_iff in Hr. destruct Hr as [q [<- _]]. reflexivity.
    + exact Diff.
Qed.

(** With unique names, the row that bears a name has the id that the lookup
    by name finds. *)
Lemma pack_row_id t p :
  NoDup (map p_name (packs t)) -> In p (packs t) ->
  p_id p = pack_id (p_name p) t.
Proof.
  intros ND Hin.
  assert (Ex : select_pack_id (p_name p) t <> []).
  { apply select_pack_id_nonempty. apply in_map. exact Hin. }
  destruct (pack_id_row _ _ Ex) as [q [Qin [Qn Qi]]].
  rewrite <- Qi. f_equal.
  apply (NoDup_map_inj p_name (packs t)); auto.
Qed.

Lemma appendListOptionsToSQL_nil {A} opt : @appendListOptionsToSQL A [] opt = [].
Proof.
  unfold appendListOptionsToSQL.
  destruct (Limit opt); rewrite skipn_nil; [apply firstn_nil | reflexivity].
Qed.

Lemma flat_map_nil {A B} (f : A -> list B) (l : list A) :
  (forall x, In x l -> f x = []) -> flat_map f l = [].
Proof.
  induction l as [| x l IH]; simpl; intro H; [reflexivity |].
  rewrite (H x (or_introl eq_refl)). apply IH. intros. apply H. auto.
Qed.

(** A pack whose target rows are all of kind Label has no explicit host. *)
Lemma select_explicit_hosts_none pid t :
  (forall r, In r (pack_targets t) -> pt_pack_id r = pid -> pt_type r = TargetLabel) ->
  select_explicit_hosts_in_pack TargetHost pid t = [].
Proof.
  intro H. unfold select_explicit_hosts_in_pack.
  rewrite flat_map_nil; [reflexivity |].
  intros h _. rewrite filter_none; [reflexivity |].
  intros r Hr. destruct (pt_pack_id r =? pid) eqn:E; [| apply andb_false_r].
  apply N.eqb_eq in E. rewrite (H r Hr E). simpl.
  rewrite andb_false_r. reflexivity.
Qed.

Lemma listing_clear {A} msg (query : Tables -> list A) d :
  listing msg query (clear_faults d) = ((query (committed d), None), clear_faults d).
Proof. reflexivity. Qed.

(** C10.  After a call of [ApplyPackSpecs] that returned nil, each pack
    named in the batch has a row, and the target rows of that pack are
    exactly one row of kind Label per entry of [Targets.Labels] of its spec
    (the last spec of the batch that bears the name), in that order, with
    the id that the label name resolves to: whatever targets the pack had
    before, of kind Host too, are gone, and [ListExplicitHostsInPack]
    returns no host for it. *)
Theorem ApplyPackSpecs_replaces_targets (specs : list PackSpec) (d d' : Datastore) :
  keys_hold (committed d) ->
  ApplyPackSpecs specs d = (Returned None, d') ->
  forall pre spec post,
    specs = pre ++ spec :: post ->
    (forall s, In s post -> Name s <> Name spec) ->
    (exists p, In p (packs (committed d')) /\ p_name p = Name spec)
    /\ forall p, In p (packs (committed d')) -> p_name p = Name spec ->
         filter (fun r => pt_pack_id r =? p_id p) (pack_targets (committed d'))
         = map (fun l => {| pt_pack_id := p_id p; pt_type := TargetLabel;
                            pt_target_id := label_target (committed d') l |})
               (Labels (Targets spec))
         /\ (forall r, In r (pack_targets (committed d')) ->
                       pt_pack_id r = p_id p -> pt_type r = TargetLabel)
         /\ forall opt,
              ListExplicitHostsInPack (p_id p) opt (clear_faults d')
              = (([], None), clear_faults d').
Proof.
  intros K A pre spec post -> Last.
  apply ApplyPackSpecs_ok in A.
  set (t' := committed d') in *.
  destruct (reconciled_all_closed _ _ _ A) as (Hex & _).
  pose proof (reconciled_all_keys _ _ _ A K) as (_ & Kn & _).
  destruct (reconciled_all_children _ _ _ _ _ A K Last) as [_ Hpt].
  assert (Ex : select_pack_id (Name spec) t' <> []).
  { apply Hex. apply in_or_app. right. left. reflexivity. }
  split.
  - destruct (pack_id_row _ _ Ex) as [p [Pin [Pn _]]]. eauto.
  - intros p Pin Pn.
    assert (Pid : pack_id (Name spec) t' = p_id p).
    { rewrite <- Pn. symmetry. apply pack_row_id; assumption. }
    rewrite Pid in Hpt.
    assert (Kind : forall r, In r (pack_targets t') ->
                     pt_pack_id r = p_id p -> pt_type r = TargetLabel).
    { intros r Hr Hk.
      assert (In r (filter (fun r => pt_pack_id r =? p_id p) (pack_targets t'))) as Hf.
      { apply filter_In. split; [exact Hr | apply N.eqb_eq; exact Hk]. }
      rewrite Hpt in Hf. apply in_map_iff in Hf. destruct Hf as [l [<- _]].
      reflexivity. }
    split; [exact Hpt |]. split; [exact Kind |].
    intro opt. unfold ListExplicitHostsInPack. rewrite listing_clear.
    fold t'. rewrite (select_explicit_hosts_none _ _ Kind).
    rewrite appendListOptionsToSQL_nil. reflexivity.
Qed.

(* ================================================================== *)
(** ** References to queries that do not exist *)

Lemma applicable_frame spec t1 t2 :
  queries t1 = queries t2 -> labels t1 = labels t2 ->
  target_id_not_null t1 = target_id_not_null t2 ->
  applicable spec t1 = applicable spec t2.
Proof.
  intros Hq Hl Hn.
  unfold applicable, query_exists, label_insertable, select_label_id.
  rewrite Hq, Hl, Hn. reflexivity.
Qed.

(** The data conditions of the specs of a batch, read on the tables the
    batch starts from, let the loop go through. *)
Lemma reconciled_all_applicable specs : forall t,
  (forall s, In s specs -> applicable s t = true) ->
  exists t', reconciled_all specs t = Some t'.
Proof.
  induction specs as [| s specs IH]; simpl; intros t H.
  - eauto.
  - rewrite (H s (or_introl eq_refl)).
    apply IH. intros s' Hs'.
    destruct (reconciled_frame s t) as (_ & Fl & Fq & _ & _ & Fn).
    rewrite (applicable_frame s' _ t); auto.
Qed.

Lemma reconciled_all_applicable_inv specs : forall t t',
  reconciled_all specs t = Some t' ->
  forall s, In s specs -> applicable s t = true.
Proof.
  induction specs as [| s specs IH]; simpl; intros t t' R s' Hs'; [tauto |].
  destruct (applicable s t) eqn:A; [| discriminate].
  destruct Hs' as [<- | Hs']; [exact A |].
  destruct (reconciled_frame s t) as (_ & Fl & Fq & _ & _ & Fn).
  rewrite <- (applicable_frame s' (reconciled s t) t); auto.
  apply (IH _ _ R). exact Hs'.
Qed.

Lemma applyPackSpec_live_unknown c t spec qpre q qpost :
  Queries spec = qpre ++ q :: qpost ->
  forallb (fun q => query_exists (QueryName q) t) qpre = true ->
  query_exists (QueryName q) t = false ->
  exists t',
    applyPackSpec spec (live c t)
    = (inr (fundamental ("cannot schedule unknown query '" +++ QueryName q +++ "'")),
       live c t').
Proof.
  intros Hqs Hpre Hq.
  rewrite applyPackSpec_unfold.
  destruct (upserted_frame spec t) as (Fsq & Fpt & Fl & Fq & Fh & Fe & Fn).
  destruct (select_pack_id_upserted spec t) as [rest Sel].
  pose proof (pack_exists_upserted spec t) as Pe.
  set (t1 := upserted spec t) in *.
  set (packID := pack_id (Name spec) t1) in *.
  unfold bind at 1. unfold wrapping at 1. rewrite tx_Exec_live, upsert_pack_upserted.
  fold t1.
  unfold bind at 1. unfold wrapping at 1. rewrite tx_Get_live, Sel.
  unfold bind at 1. unfold wrapping at 1. rewrite tx_Exec_live.
  unfold delete_scheduled_queries.
  unfold bind at 1. rewrite Hqs.
  match goal with
  | |- context [for_range _ _ (live c ?t2)] =>
      destruct (schedule_queries_unknown c packID qpre q qpost t2) as [t' U]
  end.
  - exact Pe.
  - unfold query_exists in *. simpl. rewrite Fq. exact Hpre.
  - unfold query_exists in *. simpl. rewrite Fq. exact Hq.
  - rewrite U. eexists. reflexivity.
Qed.

(** A failure of the insert that is not a foreign-key failure is reported
    as the generic write failure, wrapped around the store's error. *)
Lemma schedule_query_generic_failure packID q c t e fs :
  isChildForeignKeyError (Some e) = false ->
  fst (schedule_query packID q {| committed := c; tx := Some t; faults := Some e :: fs |})
  = inr (withMessage e ("adding query " +++ QName q +++ " referencing " +++ QueryName q)).
Proof.
  intro H. unfold schedule_query.
  replace (tx_Exec (insert_scheduled_query packID q)
             {| committed := c; tx := Some t; faults := Some e :: fs |})
    with (inr e : unit + error, {| committed := c; tx := Some t; faults := fs |})
    by reflexivity.
  rewrite H. reflexivity.
Qed.

(** C4.  A scheduled query that names a query which does not exist: when
    the specs before its pack apply and the scheduled queries before it name
    queries that exist, [ApplyPackSpecs] returns the error built for this
    case, "cannot schedule unknown query '<query name>'", wrapped with
    "applying pack '<pack name>'", and the store is left as it was found:
    no row of the batch remains. *)
Theorem ApplyPackSpecs_unknown_query (t : Tables) (pre post : list PackSpec)
    (spec : PackSpec) (qpre qpost : list PackSpecQuery) (q : PackSpecQuery) :
  (forall s, In s pre -> applicable s t = true) ->
  Queries spec = qpre ++ q :: qpost ->
  (forall q', In q' qpre -> query_exists (QueryName q') t = true) ->
  query_exists (QueryName q) t = false ->
  ApplyPackSpecs (pre ++ spec :: post) (connect t)
  = (Returned
       (Some (withMessage
                (fundamental ("cannot schedule unknown query '" +++ QueryName q +++ "'"))
                ("applying pack '" +++ Name spec +++ "'"))),
     connect t)
  /\ Error (withMessage
              (fundamental ("cannot schedule unknown query '" +++ QueryName q +++ "'"))
              ("applying pack '" +++ Name spec +++ "'"))
     = ("applying pack '" +++ Name spec +++ "'") +++ ": "
       +++ "cannot schedule unknown query '" +++ QueryName q +++ "'".
Proof.
  intros Hpre Hqs Hqpre Hq. split; [| reflexivity].
  destruct (reconciled_all_applicable _ _ Hpre) as [t1 R].
  destruct (reconciled_all_closed _ _ _ R) as (_ & _ & _ & _ & Fq & _).
  destruct (applyPackSpec_live_unknown t t1 spec qpre q qpost Hqs) as [t' U].
  - apply forallb_forall. intros q' Hq'. unfold query_exists. rewrite Fq.
    apply Hqpre. exact Hq'.
  - unfold query_exists. rewrite Fq. exact Hq.
  - unfold ApplyPackSpecs.
    replace (Beginx (connect t)) with (inl tt : unit + error, live t t) by reflexivity.
    rewrite (apply_each_fails_at pre spec post _ _ _ _ (apply_each_live t _ _ _ R) U).
    reflexivity.
Qed.

(* ================================================================== *)
(** ** Applying a batch again *)

Lemma reconciled_all_app l1 : forall l2 t,
  reconciled_all (l1 ++ l2) t =
  match reconciled_all l1 t with
  | Some t1 => reconciled_all l2 t1
  | None => None
  end.
Proof.
  induction l1 as [| s l1 IH]; simpl; intros l2 t; [reflexivity |].
  destruct (applicable s t); [apply IH | reflexivity].
Qed.

Lemma touch_all_id specs : forall p, p_id (touch_all specs p) = p_id p.
Proof.
  unfold touch_all. induction specs as [| s specs IH]; simpl; intro p; [reflexivity |].
  rewrite IH. apply touch_id.
Qed.

Lemma touch_all_name specs : forall p, p_name (touch_all specs p) = p_name p.
Proof.
  unfold touch_all. induction specs as [| s specs IH]; simpl; intro p; [reflexivity |].
  rewrite IH. apply touch_name.
Qed.

Lemma touch_all_disabled specs : forall p,
  p_disabled (touch_all specs p) = p_disabled p.
Proof.
  unfold touch_all. induction specs as [| s specs IH]; simpl; intro p; [reflexivity |].
  rewrite IH. apply touch_disabled.
Qed.

Lemma touch_all_snoc specs s p :
  touch_all (specs ++ [s]) p = touch s (touch_all specs p).
Proof. unfold touch_all. rewrite fold_left_app. reflexivity. Qed.

Lemma touch_named spec p :
  p_name p = Name spec ->
  touch spec p = {| p_id := p_id p; p_name := Name spec;
                    p_description := Description spec; p_platform := Platform spec;
                    p_disabled := p_disabled p; p_deleted := false |}.
Proof. intro H. unfold touch. apply named_iff in H. rewrite H. reflexivity. Qed.

Lemma touch_other spec p : p_name p <> Name spec -> touch spec p = p.
Proof.
  intro H. unfold touch. destruct (named (Name spec) p) eqn:E; [| reflexivity].
  apply named_iff in E. contradiction.
Qed.

(** After a batch, each pack row is what the upserts of the batch make of
    it: applying them again changes nothing. *)
Lemma reconciled_all_settled specs : forall t t',
  reconciled_all specs t = Some t' ->
  forall p, In p (packs t') -> touch_all specs p = p.
Proof.
  induction specs as [| s specs IH] using rev_ind; intros t t' R p Hin.
  - reflexivity.
  - rewrite reconciled_all_app in R.
    destruct (reconciled_all specs t) as [tm |] eqn:Rm; [| discriminate].
    simpl in R. destruct (applicable s tm); [| discriminate].
    inversion R; subst t'. clear R.
    destruct (reconciled_frame s tm) as (Fp & _).
    rewrite Fp, packs_upserted in Hin.
    rewrite touch_all_snoc.
    destruct (existsb (named (Name s)) (packs tm)) eqn:X.
    + apply in_map_iff in Hin. destruct Hin as [p0 [<- Hin0]].
      pose proof (IH _ _ Rm p0 Hin0) as S0.
      destruct (named (Name s) p0) eqn:N0.
      * apply named_iff in N0.
        rewrite (touch_named s (touch_all specs (touch s p0)))
          by (rewrite touch_all_name, touch_name; exact N0).
        rewrite touch_all_id, touch_all_disabled, touch_id, touch_disabled.
        symmetry. apply touch_named. exact N0.
      * assert (O : touch s p0 = p0) by (unfold touch; rewrite N0; reflexivity).
        rewrite O, S0. exact O.
    + apply in_app_or in Hin. destruct Hin as [Hin | [<- | []]].
      * rewrite (IH _ _ Rm p Hin). apply touch_other.
        intro C. apply named_iff in C.
        assert (existsb (named (Name s)) (packs tm) = true) as Y.
        { apply existsb_exists. eauto. }
        congruence.
      * rewrite touch_named by (rewrite touch_all_name; reflexivity).
        rewrite touch_all_id, touch_all_disabled. reflexivity.
Qed.

(** The pack table after a batch whose names all have rows already. *)
Lemma reconciled_all_packs_existing specs : forall t t',
  reconciled_all specs t = Some t' ->
  (forall s, In s specs -> In (Name s) (map p_name (packs t))) ->
  packs t' = map (touch_all specs) (packs t).
Proof.
  induction specs as [| s specs IH]; simpl; intros t t' R H.
  - inversion R; subst. symmetry. apply map_id.
  - destruct (applicable s t); [| discriminate].
    destruct (reconciled_frame s t) as (Fp & _).
    assert (P : packs (reconciled s t) = map (touch s) (packs t)).
    { rewrite Fp, packs_upserted.
      rewrite (proj2 (existsb_named_In _ _) (H s (or_introl eq_refl))). reflexivity. }
    rewrite (IH _ _ R).
    + rewrite P, map_map. reflexivity.
    + intros s' Hs'. rewrite P, map_name_touch. apply H. auto.
Qed.

Lemma Tables_ext t1 t2 :
  packs t1 = packs t2 -> scheduled_queries t1 = scheduled_queries t2 ->
  pack_targets t1 = pack_targets t2 -> labels t1 = labels t2 ->
  queries t1 = queries t2 -> hosts t1 = hosts t2 ->
  label_query_executions t1 = label_query_executions t2 ->
  target_id_not_null t1 = target_id_not_null t2 ->
  t1 = t2.
Proof. destruct t1, t2; simpl; intros; subst; reflexivity. Qed.

(** Applied to the tables it produced, a batch goes through and produces
    them again. *)
Lemma reconciled_all_idempotent specs t t1 :
  reconciled_all specs t = Some t1 -> reconciled_all specs t1 = Some t1.
Proof.
  intro R.
  destruct (reconciled_all_closed _ _ _ R) as (Hex & Hsq & Hpt & Hl & Hq & Hh & He & Hn).
  assert (App : forall s, In s specs -> applicable s t1 = true).
  { intros s Hs. rewrite (applicable_frame s t1 t); auto.
    apply (reconciled_all_applicable_inv _ _ _ R). exact Hs. }
  destruct (reconciled_all_applicable _ _ App) as [t2 R2].
  rewrite R2. f_equal.
  destruct (reconciled_all_closed _ _ _ R2)
    as (Hex2 & Hsq2 & Hpt2 & Hl2 & Hq2 & Hh2 & He2 & Hn2).
  assert (P : packs t2 = packs t1).
  { rewrite (reconciled_all_packs_existing _ _ _ R2).
    - rewrite <- (map_id (packs t1)) at 2. apply map_ext_in.
      intros p Hp. apply (reconciled_all_settled _ _ _ R). exact Hp.
    - intros s Hs. apply select_pack_id_nonempty. apply Hex. exact Hs. }
  assert (Id : forall name, pack_id name t2 = pack_id name t1).
  { intro name. apply pack_id_packs. exact P. }
  apply Tables_ext; try congruence.
  - rewrite Hsq2.
    rewrite (fold_left_ext _
               (fun X s =>
                  replace_rows sq_pack_id (pack_id (Name s) t1)
                    (map (scheduled_query_row (pack_id (Name s) t1)) (Queries s)) X)).
    + rewrite Hsq.
      apply (fold_replace_idem _ _ sq_pack_id (fun s => pack_id (Name s) t1)
               (fun s => map (scheduled_query_row (pack_id (Name s) t1)) (Queries s))).
      intros s r Hr. apply in_map_iff in Hr. destruct Hr as [q [<- _]]. reflexivity.
    + intros X s _. rewrite Id. reflexivity.
  - rewrite Hpt2.
    rewrite (fold_left_ext _
               (fun X s =>
                  replace_rows pt_pack_id (pack_id (Name s) t1)
                    (map (target_row (pack_id (Name s) t1) t) (Labels (Targets s))) X)).
    + rewrite Hpt.
      apply (fold_replace_idem _ _ pt_pack_id (fun s => pack_id (Name s) t1)
               (fun s => map (target_row (pack_id (Name s) t1) t) (Labels (Targets s)))).
      intros s r Hr. apply in_map_iff in Hr. destruct Hr as [q [<- _]]. reflexivity.
    + intros X s _. rewrite Id. f_equal. apply map_ext. intro l.
      unfold target_row. f_equal. apply label_target_labels. exact Hl.
Qed.

Lemma ApplyPackSpecs_failure_keeps specs d r d' :
  ApplyPackSpecs specs d = (r, d') -> r <> Returned None ->
  committed d' = committed d.
Proof.
  unfold ApplyPackSpecs.
  destruct (Beginx d) as [[[] | e0] d1] eqn:B.
  - destruct (Beginx_ok _ _ B) as [Bc _].
    pose proof (apply_each_keeps specs d1) as K.
    destruct (apply_each specs d1) as [[[] | e1] d2]; simpl in K.
    + unfold Commit. destruct (tx d2) as [t |] eqn:T.
      * pose proof (next_fault_committed d2) as Fc.
        destruct (next_fault d2) as [[e2 |] d3]; simpl in *;
          intros E Hr; inversion E; subst; simpl; congruence.
      * simpl. unfold Rollback. rewrite T. simpl.
        intros E Hr; inversion E; subst; congruence.
    + destruct (rollback_on_error_Some tt e1 d2) as [out [R _]].
      destruct (Rollback_leaves d2) as [Rc _].
      rewrite R. intros E Hr.
      destruct out as [[u err] | msg]; inversion E; subst; congruence.
  - intros E _. inversion E; subst. apply (Beginx_err _ _ _ B).
Qed.

(** C6, as the code has it.  A second application of the same list, after
    a first one that returned nil, goes through when the store meets no
    failure and leaves the tables exactly as the first one left them; and
    whatever the second application meets, the committed tables after it are
    those after the first, so [GetPackSpecs] returns after the second what
    it returned after the first. *)
Theorem ApplyPackSpecs_twice (specs : list PackSpec) (d d1 : Datastore) :
  ApplyPackSpecs specs d = (Returned None, d1) ->
  ApplyPackSpecs specs (connect (committed d1))
  = (Returned None, connect (committed d1))
  /\ forall r d2,
       ApplyPackSpecs specs d1 = (r, d2) ->
       committed d2 = committed d1
       /\ GetPackSpecs (connect (committed d2)) = GetPackSpecs (connect (committed d1)).
Proof.
  intro A. apply ApplyPackSpecs_ok in A.
  pose proof (reconciled_all_idempotent _ _ _ A) as I.
  split.
  - apply ApplyPackSpecs_connect. exact I.
  - intros r d2 A2.
    assert (C : committed d2 = committed d1).
    { destruct r as [[e |] | msg].
      - apply (ApplyPackSpecs_failure_keeps _ _ _ _ A2). discriminate.
      - apply ApplyPackSpecs_ok in A2. congruence.
      - apply (ApplyPackSpecs_failure_keeps _ _ _ _ A2). discriminate. }
    rewrite C. auto.
Qed.

Lemma ApplyPackSpecs_twice_witness :
  ApplyPackSpecs [Sample.monitoring; Sample.empty_pack] (connect Sample.store)
  = (Returned None,
     snd (ApplyPackSpecs [Sample.monitoring; Sample.empty_pack] (connect Sample.store)))
  /\ ApplyPackSpecs [Sample.monitoring; Sample.empty_pack]
       (connect (committed
          (snd (ApplyPackSpecs [Sample.monitoring; Sample.empty_pack]
                  (connect Sample.store)))))
     = (Returned None,
        connect (committed
          (snd (ApplyPackSpecs [Sample.monitoring; Sample.empty_pack]
                  (connect Sample.store))))).
Proof.
  assert (H : ApplyPackSpecs [Sample.monitoring; Sample.empty_pack]
                (connect Sample.store)
              = (Returned None,
                 snd (ApplyPackSpecs [Sample.monitoring; Sample.empty_pack]
                        (connect Sample.store))))
    by (vm_compute; reflexivity).
  split; [exact H |].
  exact (proj1 (ApplyPackSpecs_twice _ _ _ H)).
Defined.

(** C6 as stated fails: on a store that already holds a pack, what
    [GetPackSpecs] returns after two applications of a list is not the
    list, even up to order and ids. *)
Lemma GetPackSpecs_after_two_applications_is_not_the_input :
  exists d1 d2 out d3,
    ApplyPackSpecs [Sample.monitoring] (connect Sample.store) = (Returned None, d1)
    /\ ApplyPackSpecs [Sample.monitoring] d1 = (Returned None, d2)
    /\ GetPackSpecs d2 = (Returned (out, None), d3)
    /\ ~ same_specs out [Sample.monitoring].
Proof.
  pose (d1 := snd (ApplyPackSpecs [Sample.monitoring] (connect Sample.store))).
  pose (d2 := snd (ApplyPackSpecs [Sample.monitoring] d1)).
  exists d1, d2.
  exists (map (read_back (committed d2)) (packs (committed d2))), d2.
  split; [vm_compute; reflexivity |].
  split; [vm_compute; reflexivity |].
  split; [vm_compute; reflexivity |].
  intro P. apply Permutation_length in P. vm_compute in P. discriminate.
Qed.

(* ================================================================== *)
(** ** Reading the specs back *)

Lemma load_each_live c t specs (load : PackSpec -> M PackSpec) (g : PackSpec -> PackSpec) :
  (forall spec, load spec (live c t) = (inl (g spec), live c t)) ->
  load_each specs load (live c t) = (inl (map g specs), live c t).
Proof.
  intro H. induction specs as [| s specs IH]; simpl.
  - reflexivity.
  - unfold bind at 1. rewrite H. unfold bind at 1. rewrite IH. reflexivity.
Qed.

(** Without infrastructure failures, [GetPackSpecs] returns one spec per
    row of the pack table, in the order of the table, deleted rows too. *)
Lemma GetPackSpecs_connect t :
  GetPackSpecs (connect t) = (Returned (map (read_back t) (packs t), None), connect t).
Proof.
  unfold GetPackSpecs.
  replace (Beginx (connect t)) with (inl tt : unit + error, live t t) by reflexivity.
  unfold load_pack_specs.
  unfold bind at 1. unfold wrapping at 1. rewrite tx_Select_live.
  unfold bind at 1.
  rewrite (load_each_live t t _ _
             (fun spec => set_Labels (Labels (Targets spec)
                            ++ select_target_label_names (ID spec) TargetLabel t) spec))
    by reflexivity.
  rewrite (load_each_live t t _ _
             (fun spec => set_Queries (Queries spec ++ select_pack_queries (ID spec) t) spec))
    by reflexivity.
  unfold select_pack_specs. rewrite !map_map. reflexivity.
Qed.

Lemma pack_spec_query_row packID q : pack_spec_query (scheduled_query_row packID q) = q.
Proof. destruct q; reflexivity. Qed.

Lemma touch_all_other specs : forall p,
  (forall s, In s specs -> Name s <> p_name p) -> touch_all specs p = p.
Proof.
  unfold touch_all. induction specs as [| s specs IH]; simpl; intros p H; [reflexivity |].
  rewrite touch_other by (intro C; apply (H s); auto).
  apply IH. intros s' Hs'. apply H. auto.
Qed.

(** The row of a pack of the batch carries the fields of the last spec
    that names it, and is not deleted. *)
Lemma reconciled_all_row pre spec post t t' p :
  reconciled_all (pre ++ spec :: post) t = Some t' ->
  (forall s, In s post -> Name s <> Name spec) ->
  In p (packs t') -> p_name p = Name spec ->
  p_description p = Description spec /\ p_platform p = Platform spec
  /\ p_deleted p = false.
Proof.
  intros R Last Hin Hn.
  pose proof (reconciled_all_settled _ _ _ R p Hin) as S.
  unfold touch_all in S. rewrite fold_left_app in S. simpl in S.
  fold (touch_all pre p) in S.
  rewrite (touch_named spec (touch_all pre p)) in S
    by (rewrite touch_all_name; exact Hn).
  fold (touch_all post
          {| p_id := p_id (touch_all pre p); p_name := Name spec;
             p_description := Description spec; p_platform := Platform spec;
             p_disabled := p_disabled (touch_all pre p); p_deleted := false |}) in S.
  rewrite touch_all_other in S by exact Last.
  rewrite <- S. simpl. auto.
Qed.

(** The pack rows after a batch bear names that the table had or that the
    batch brings. *)
Lemma reconciled_all_names specs : forall t t' p,
  reconciled_all specs t = Some t' -> In p (packs t') ->
  In (p_name p) (map Name specs) \/ In (p_name p) (map p_name (packs t)).
Proof.
  induction specs as [| s specs IH]; simpl; intros t t' p R Hin.
  - inversion R; subst. right. apply in_map. exact Hin.
  - destruct (applicable s t); [| discriminate].
    destruct (IH _ _ p R Hin) as [H | H]; [auto |].
    destruct (reconciled_frame s t) as (Fp & _).
    rewrite Fp, packs_upserted in H.
    destruct (existsb (named (Name s)) (packs t)).
    + rewrite map_name_touch in H. auto.
    + rewrite map_app in H. apply in_app_or in H. simpl in H.
      destruct H as [H | [H | []]]; auto.
Qed.

(** *** Label names, read back through the label table *)

Lemma filter_partition_permutation {A} (f : A -> bool) (l : list A) :
  Permutation (filter f l ++ filter (fun x => negb (f x)) l) l.
Proof.
  induction l as [| x l IH]; simpl; [constructor |].
  destruct (f x); simpl.
  - constructor. exact IH.
  - apply Permutation_sym. apply Permutation_cons_app. apply Permutation_sym. exact IH.
Qed.

Lemma flat_map_ext_in {A B} (f g : A -> list B) (l : list A) :
  (forall x, In x l -> f x = g x) -> flat_map f l = flat_map g l.
Proof.
  induction l as [| x l IH]; simpl; intro H; [reflexivity |].
  rewrite (H x (or_introl eq_refl)), IH; [reflexivity |].
  intros. apply H. auto.
Qed.

(** Sorting a list of names along a duplicate-free list that holds them all
    only reorders it. *)
Lemma collect_permutation (names : list string) :
  NoDup names -> forall ls,
  (forall x, In x ls -> In x names) ->
  Permutation (flat_map (fun n => filter (fun x => String.eqb x n) ls) names) ls.
Proof.
  induction names as [| n ns IH]; intros ND ls H; simpl.
  - destruct ls as [| x ls]; [constructor | destruct (H x (or_introl eq_refl))].
  - inversion ND as [| ? ? Hn ND']; subst.
    set (ls' := filter (fun x => negb (String.eqb x n)) ls).
    assert (E : flat_map (fun m => filter (fun x => String.eqb x m) ls) ns
                = flat_map (fun m => filter (fun x => String.eqb x m) ls') ns).
    { apply flat_map_ext_in. intros m Hm. unfold ls'.
      rewrite filter_filter. apply filter_ext. intro x.
      destruct (String.eqb x m) eqn:Exm; [| symmetry; apply andb_false_r].
      apply String.eqb_eq in Exm. subst x.
      destruct (String.eqb m n) eqn:Emn; [| reflexivity].
      apply String.eqb_eq in Emn. subst m. contradiction. }
    rewrite E.
    apply Permutation_trans with (filter (fun x => String.eqb x n) ls ++ ls').
    + apply Permutation_app_head. apply IH; [exact ND' |].
      intros x Hx. unfold ls' in Hx. apply filter_In in Hx. destruct Hx as [Hx Hne].
      destruct (H x Hx) as [<- | Hin]; [| exact Hin].
      rewrite String.eqb_refl in Hne. discriminate.
    + apply filter_partition_permutation.
Qed.

Lemma filter_unique {A} (f : A -> string) (l : list A) x :
  NoDup (map f l) -> In x l ->
  filter (fun y => String.eqb (f y) (f x)) l = [x].
Proof.
  induction l as [| a l IH]; simpl; intros ND Hin; [tauto |].
  inversion ND as [| ? ? Hn ND']; subst.
  destruct Hin as [-> | Hin].
  - rewrite String.eqb_refl. f_equal.
    apply filter_none. intros r Hr.
    apply String.eqb_neq. intro C. apply Hn. rewrite <- C. apply in_map. exact Hr.
  - destruct (String.eqb (f a) (f x)) eqn:E.
    + apply String.eqb_eq in E. exfalso. apply Hn. rewrite E. apply in_map. exact Hin.
    + apply IH; assumption.
Qed.

(** With unique label names, the subquery finds the id of the label. *)
Lemma label_target_found t l :
  NoDup (map l_name (labels t)) -> In l (labels t) ->
  label_target t (l_name l) = Some (l_id l).
Proof.
  intros ND Hin. unfold label_target, select_label_id.
  rewrite (filter_unique l_name (labels t) l ND Hin). reflexivity.
Qed.

(** The label names of a pack whose target rows were written from [ls],
    all of them names of labels: [ls], in the order of the label table. *)
Lemma select_target_label_names_written packID t ls :
  NoDup (map l_id (labels t)) -> NoDup (map l_name (labels t)) ->
  filter (fun r => pt_pack_id r =? packID) (pack_targets t)
  = map (target_row packID t) ls ->
  (forall x, In x ls -> In x (map l_name (labels t))) ->
  select_target_label_names packID TargetLabel t
  = flat_map (fun n => filter (fun x => String.eqb x n) ls) (map l_name (labels t)).
Proof.
  intros NDi NDn Rows Known.
  unfold select_target_label_names.
  rewrite flat_map_concat_map, (flat_map_concat_map _ (map l_name (labels t))).
  rewrite map_map. f_equal. apply map_ext_in. intros l Hl.
  transitivity
    (map (fun _ : PackTargetRow => l_name l)
       (filter (fun pt => TargetType_eqb (pt_type pt) TargetLabel
                          && match pt_target_id pt with
                             | Some i => i =? l_id l
                             | None => false
                             end)
          (filter (fun r => pt_pack_id r =? packID) (pack_targets t)))).
  { f_equal. rewrite filter_filter. apply filter_ext. intro pt.
    rewrite andb_assoc. reflexivity. }
  rewrite Rows, filter_map_commute, map_map. simpl.
  assert (Same : forall x, In x ls ->
            match label_target t x with
            | Some i => i =? l_id l
            | None => false
            end = String.eqb x (l_name l)).
  { intros x Hx. apply Known in Hx. apply in_map_iff in Hx.
    destruct Hx as [l0 [<- Hl0]].
    rewrite (label_target_found _ _ NDn Hl0).
    destruct (String.eqb (l_name l0) (l_name l)) eqn:E.
    - apply String.eqb_eq in E.
      assert (l0 = l) by (apply (NoDup_map_inj l_name (labels t)); auto).
      subst. apply N.eqb_refl.
    - apply N.eqb_neq. intro C.
      assert (l0 = l) by (apply (NoDup_map_inj l_id (labels t)); auto).
      subst. rewrite String.eqb_refl in E. discriminate. }
  rewrite (filter_ext_in _ (fun x => String.eqb x (l_name l))) by exact Same.
  rewrite <- (map_id (filter (fun x => String.eqb x (l_name l)) ls)) at 2.
  apply map_ext_in. intros x Hx. apply filter_In in Hx. destruct Hx as [_ Hx].
  apply String.eqb_eq in Hx. auto.
Qed.

(** The pack table after a batch: the rows it had, each as the upserts of
    the batch leave it, then the rows inserted. *)
Lemma reconciled_all_packs specs : forall t t',
  reconciled_all specs t = Some t' ->
  exists inserted,
    packs t' = map (touch_all specs) (packs t) ++ inserted
    /\ forall p, In p inserted -> In (p_name p) (map Name specs).
Proof.
  induction specs as [| s specs IH]; simpl; intros t t' R.
  - inversion R; subst. exists []. rewrite app_nil_r. split.
    + symmetry. apply map_id.
    + intros p [].
  - destruct (applicable s t); [| discriminate].
    destruct (IH _ _ R) as (ins & P & Hins).
    destruct (reconciled_frame s t) as (Fp & _).
    rewrite Fp, packs_upserted in P.
    destruct (existsb (named (Name s)) (packs t)) eqn:X.
    + exists ins. split.
      * rewrite P, map_map. reflexivity.
      * intros p Hp. right. apply Hins. exact Hp.
    + exists (map (touch_all specs) [fresh_pack s (packs t)] ++ ins). split.
      * rewrite P, map_app, <- app_assoc. f_equal.
        apply map_ext_in. intros p Hp. unfold touch_all. simpl.
        rewrite touch_other; [reflexivity |].
        intro C. apply named_iff in C.
        assert (existsb (named (Name s)) (packs t) = true) as Y
            by (apply existsb_exists; eauto).
        congruence.
      * intros p Hp. apply in_app_or in Hp. destruct Hp as [Hp | Hp].
        -- simpl in Hp. destruct Hp as [<- | []].
           left. rewrite touch_all_name. reflexivity.
        -- right. apply Hins. exact Hp.
Qed.

(** C2, as the code has it.  After a call of [ApplyPackSpecs] that
    returned nil on a store whose keys hold, [GetPackSpecs] returns, for
    each pack of the batch, exactly one spec of that name; that spec carries
    as ID the id of the row of the pack, the description, the platform and
    the scheduled queries, in the order submitted, of the spec of the batch
    (the last one of that name), and, when every label it names exists, its
    label names up to order.  The packs that the store held already and that
    are not deleted are returned as well, under their ids and names; and
    every spec returned bears the name of a pack of the batch or of a pack
    that the store held. *)
Theorem GetPackSpecs_after_ApplyPackSpecs (specs : list PackSpec) (d d1 : Datastore) :
  keys_hold (committed d) ->
  ApplyPackSpecs specs d = (Returned None, d1) ->
  exists out,
    GetPackSpecs (connect (committed d1))
    = (Returned (out, None), connect (committed d1))
    /\ (forall r, In r out ->
          In (Name r) (map Name specs)
          \/ In (Name r) (map p_name (packs (committed d))))
    /\ (forall p, In p (packs (committed d)) -> p_deleted p = false ->
          exists r, In r out /\ ID r = p_id p /\ Name r = p_name p)
    /\ forall pre spec post,
         specs = pre ++ spec :: post ->
         (forall s, In s post -> Name s <> Name spec) ->
         exists r,
           In r out /\ Name r = Name spec
           /\ (forall r', In r' out -> Name r' = Name spec -> r' = r)
           /\ (exists p, In p (packs (committed d1))
                         /\ p_name p = Name spec /\ ID r = p_id p)
           /\ Description r = Description spec
           /\ Platform r = Platform spec
           /\ Queries r = Queries spec
           /\ ((forall l, In l (Labels (Targets spec)) ->
                          In l (map l_name (labels (committed d)))) ->
               Permutation (Labels (Targets r)) (Labels (Targets spec))).
Proof.
  intros K A. apply ApplyPackSpecs_ok in A.
  set (t := committed d) in *. set (t' := committed d1) in *.
  exists (map (read_back t') (packs t')).
  split; [apply GetPackSpecs_connect |].
  split.
  { intros r Hr. apply in_map_iff in Hr. destruct Hr as [p [<- Hp]].
    apply (reconciled_all_names _ _ _ _ A Hp). }
  split.
  { intros p Hp _.
    destruct (reconciled_all_packs _ _ _ A) as (ins & P & _).
    exists (read_back t' (touch_all specs p)).
    split.
    - apply in_map. rewrite P. apply in_or_app. left. apply in_map. exact Hp.
    - simpl. split; [apply touch_all_id | apply touch_all_name]. }
  intros pre spec post -> Last.
  destruct (reconciled_all_closed _ _ _ A) as (Hex & _ & _ & Hl & _).
  pose proof (reconciled_all_keys _ _ _ A K) as (Ki & Kn & Kli & Kln).
  destruct (reconciled_all_children _ _ _ _ _ A K Last) as [Hsq Hpt].
  assert (Ex : select_pack_id (Name spec) t' <> []).
  { apply Hex. apply in_or_app. right. left. reflexivity. }
  destruct (pack_id_row _ _ Ex) as [p [Pin [Pn Pi]]].
  rewrite <- Pi in Hsq, Hpt.
  destruct (reconciled_all_row _ _ _ _ _ _ A Last Pin Pn) as (Pd & Pp & _).
  exists (read_back t' p).
  split; [apply in_map; exact Pin |].
  split; [exact Pn |].
  split.
  { intros r' Hr' Hn'. apply in_map_iff in Hr'. destruct Hr' as [p' [<- Hp']].
    f_equal. apply (NoDup_map_inj p_name (packs t')); auto.
    simpl in Hn'. congruence. }
  split; [exists p; auto |].
  split; [exact Pd |]. split; [exact Pp |].
  split.
  - simpl. unfold select_pack_queries. rewrite Hsq, map_map.
    rewrite <- (map_id (Queries spec)) at 2.
    apply map_ext. intro q. apply pack_spec_query_row.
  - intro Known. simpl.
    rewrite (select_target_label_names_written _ _ _ Kli Kln Hpt).
    + apply collect_permutation; [exact Kln |].
      intros x Hx. rewrite Hl. apply Known. exact Hx.
    + intros x Hx. rewrite Hl. apply Known. exact Hx.
Qed.

Lemma Sample_store_keys : keys_hold Sample.store.
Proof.
  unfold keys_hold; simpl.
  repeat split; repeat constructor; simpl; intuition discriminate.
Defined.

Lemma GetPackSpecs_after_ApplyPackSpecs_witness :
  keys_hold (committed (connect Sample.store))
  /\ ApplyPackSpecs [Sample.monitoring; Sample.empty_pack] (connect Sample.store)
     = (Returned None,
        snd (ApplyPackSpecs [Sample.monitoring; Sample.empty_pack]
               (connect Sample.store)))
  /\ exists out r,
       fst (GetPackSpecs
              (connect (committed
                 (snd (ApplyPackSpecs [Sample.monitoring; Sample.empty_pack]
                         (connect Sample.store))))))
       = Returned (out, None)
       /\ In r out
       /\ Name r = "monitoring"%string
       /\ Queries r = Queries Sample.monitoring.
Proof.
  assert (H : ApplyPackSpecs [Sample.monitoring; Sample.empty_pack]
                (connect Sample.store)
              = (Returned None,
                 snd (ApplyPackSpecs [Sample.monitoring; Sample.empty_pack]
                        (connect Sample.store))))
    by (vm_compute; reflexivity).
  split; [exact Sample_store_keys |]. split; [exact H |].
  destruct (GetPackSpecs_after_ApplyPackSpecs
              [Sample.monitoring; Sample.empty_pack] (connect Sample.store) _
              Sample_store_keys H) as (out & G & _ & _ & Batch).
  destruct (Batch [] Sample.monitoring [Sample.empty_pack] eq_refl)
    as (r & Hin & Hn & _ & _ & _ & _ & Hq & _).
  - intros s [<- | []]. discriminate.
  - exists out, r. split; [rewrite G; reflexivity |]. auto.
Defined.

(** C2 as stated fails: on a store that already holds a pack, with labels
    and queries that all exist, [GetPackSpecs] after [ApplyPackSpecs]
    returns more specs than the list applied; no reordering makes the two
    equal, whatever the ids. *)
Lemma GetPackSpecs_after_ApplyPackSpecs_is_not_the_input :
  exists d1 out d2,
    ApplyPackSpecs [Sample.monitoring] (connect Sample.store) = (Returned None, d1)
    /\ GetPackSpecs d1 = (Returned (out, None), d2)
    /\ List.length out = 2%nat
    /\ ~ same_specs out [Sample.monitoring].
Proof.
  pose (d1 := snd (ApplyPackSpecs [Sample.monitoring] (connect Sample.store))).
  exists d1, (map (read_back (committed d1)) (packs (committed d1))), d1.
  split; [vm_compute; reflexivity |].
  split; [vm_compute; reflexivity |].
  split; [vm_compute; reflexivity |].
  intro P. apply Permutation_length in P. vm_compute in P. discriminate.
Qed.

(* ================================================================== *)
(** ** The reconciler on sample data *)

Lemma ApplyPackSpecs_all_or_nothing_witness :
  tx (connect Sample.store) = None
  /\ exists r d',
       ApplyPackSpecs [Sample.monitoring; Sample.broken; Sample.empty_pack]
         (connect Sample.store) = (r, d')
       /\ tx d' = None
       /\ (r <> Returned None -> committed d' = Sample.store).
Proof.
  split; [reflexivity |].
  destruct (ApplyPackSpecs_all_or_nothing
              [Sample.monitoring; Sample.broken; Sample.empty_pack]
              (connect Sample.store) eq_refl)
    as (r & d' & H1 & H2 & H3 & _).
  exists r, d'. auto.
Defined.

(** C1 as stated fails when the rollback itself fails.  The second
    scheduled query of the pack names a query that does not exist, so the
    spec fails; the store then fails the rollback; the call returns no
    error: it panics.  Nothing is committed. *)
Lemma ApplyPackSpecs_panics_when_rollback_fails :
  ApplyPackSpecs [Sample.broken]
    {| committed := Sample.store; tx := None;
       faults := [None; None; None; None; None; None;
                  Some (MySQLError 2013 "Lost connection to MySQL server during query")] |}
  = (Panicked
       "got err 'Error 2013: Lost connection to MySQL server during query' rolling back after err 'applying pack 'broken': cannot schedule unknown query 'no_such_query''",
     connect Sample.store)
  /\ forall err d',
       ApplyPackSpecs [Sample.broken]
         {| committed := Sample.store; tx := None;
            faults := [None; None; None; None; None; None;
                       Some (MySQLError 2013
                               "Lost connection to MySQL server during query")] |}
       <> (Returned err, d').
Proof.
  assert (H : ApplyPackSpecs [Sample.broken]
                {| committed := Sample.store; tx := None;
                   faults := [None; None; None; None; None; None;
                              Some (MySQLError 2013
                                      "Lost connection to MySQL server during query")] |}
              = (Panicked
                   "got err 'Error 2013: Lost connection to MySQL server during query' rolling back after err 'applying pack 'broken': cannot schedule unknown query 'no_such_query''",
                 connect Sample.store))
    by (vm_compute; reflexivity).
  split; [exact H |].
  intros err d' C. rewrite H in C. discriminate.
Qed.

Lemma ApplyPackSpecs_unknown_query_witness :
  query_exists "no_such_query" Sample.store = false
  /\ ApplyPackSpecs ([Sample.monitoring] ++ Sample.broken :: [Sample.empty_pack])
       (connect Sample.store)
     = (Returned
          (Some (withMessage
                   (fundamental "cannot schedule unknown query 'no_such_query'")
                   "applying pack 'broken'")),
        connect Sample.store).
Proof.
  split; [reflexivity |].
  apply (ApplyPackSpecs_unknown_query Sample.store [Sample.monitoring]
           [Sample.empty_pack] Sample.broken
           [Sample.query_spec "uptime" "u"] []
           (Sample.query_spec "no_such_query" "n")).
  - intros s [<- | []]. vm_compute. reflexivity.
  - reflexivity.
  - intros q' [<- | []]. vm_compute. reflexivity.
  - vm_compute. reflexivity.
Defined.

Lemma applyPackSpec_upserts_by_name_witness :
  tx (live Sample.soft_deleted Sample.soft_deleted) = Some Sample.soft_deleted
  /\ exists t',
       tx (snd (applyPackSpec Sample.inventory
                  (live Sample.soft_deleted Sample.soft_deleted))) = Some t'
       /\ packs t' =
          [{| p_id := 7; p_name := "inventory"; p_description := "laptops";
              p_platform := ""; p_disabled := false; p_deleted := false |}].
Proof.
  split; [reflexivity |].
  assert (H : applyPackSpec Sample.inventory
                (live Sample.soft_deleted Sample.soft_deleted)
              = (inl tt,
                 snd (applyPackSpec Sample.inventory
                        (live Sample.soft_deleted Sample.soft_deleted))))
    by (vm_compute; reflexivity).
  destruct (applyPackSpec_upserts_by_name Sample.inventory
              (live Sample.soft_deleted Sample.soft_deleted) _ Sample.soft_deleted
              eq_refl H) as (_ & t' & T & Hex & _).
  exists t'. split; [exact T |].
  rewrite Hex; [reflexivity |]. simpl. auto.
Defined.

Lemma ApplyPackSpecs_replaces_targets_witness :
  keys_hold (committed (connect Sample.host_2_targeted))
  /\ forall p,
       In p (packs (committed
                      (snd (ApplyPackSpecs [Sample.inventory]
                              (connect Sample.host_2_targeted))))) ->
       p_name p = "inventory"%string ->
       forall r,
         In r (pack_targets
                 (committed (snd (ApplyPackSpecs [Sample.inventory]
                                    (connect Sample.host_2_targeted))))) ->
         pt_pack_id r = p_id p -> pt_type r = TargetLabel.
Proof.
  assert (H : ApplyPackSpecs [Sample.inventory] (connect Sample.host_2_targeted)
              = (Returned None,
                 snd (ApplyPackSpecs [Sample.inventory]
                        (connect Sample.host_2_targeted))))
    by (vm_compute; reflexivity).
  split; [exact Sample_store_keys |].
  intros p Hp Hn.
  destruct (ApplyPackSpecs_replaces_targets [Sample.inventory]
              (connect Sample.host_2_targeted) _ Sample_store_keys H
              [] Sample.inventory [] eq_refl) as [_ Rows].
  - intros s [].
  - destruct (Rows p Hp Hn) as (_ & Kind & _). exact Kind.
Defined.

(* ================================================================== *)
(** ** Where the code departs from its specification *)

(** C3.  A pack targeted at host 2 only, on a store where no host has
    reported a label match yet: [ListHostsInPack] returns no host, although
    [ListExplicitHostsInPack] returns host 2.  The explicit branch of the
    join needs a row of label_query_executions to exist. *)
Theorem ListHostsInPack_needs_a_match_row :
  fst (ListHostsInPack 7 noListOptions (connect Sample.host_2_targeted_unreported))
  = ([], None)
  /\ fst (ListExplicitHostsInPack 7 noListOptions
            (connect Sample.host_2_targeted_unreported))
     = ([2], None).
Proof. split; vm_compute; reflexivity. Qed.

(** C5.  A target that names a label which does not exist.  Where
    [target_id] accepts NULL, [ApplyPackSpecs] returns nil and commits a
    target row without a label id.  Where it does not, the failure of the
    insert comes back under the generic "adding label to pack", and the
    text of the error does not name the label. *)
Theorem ApplyPackSpecs_unknown_label :
  (exists d',
     ApplyPackSpecs [Sample.ghost_label] (connect Sample.store) = (Returned None, d')
     /\ In {| pt_pack_id := 8; pt_type := TargetLabel; pt_target_id := None |}
           (pack_targets (committed d')))
  /\ exists e,
       ApplyPackSpecs [Sample.ghost_label] (connect Sample.strict_store)
       = (Returned (Some e), connect Sample.strict_store)
       /\ Error e = "applying pack 'ghosts': adding label to pack: Error 1048: Column 'target_id' cannot be null"%string.
Proof.
  split.
  - exists (snd (ApplyPackSpecs [Sample.ghost_label] (connect Sample.store))).
    split; [vm_compute; reflexivity |]. vm_compute. auto.
  - eexists (withMessage
               (withMessage
                  (MySQLError 1048 "Column 'target_id' cannot be null")
                  "adding label to pack")
               "applying pack 'ghosts'").
    split; vm_compute; reflexivity.
Qed.

(** C7.  A pack targeted at host 2 explicitly: [ListHostsInPack] lists
    host 2 for the pack, [ListPacksForHost] does not list the pack for
    host 2.  Its join goes through label matches only. *)
Theorem ListPacksForHost_ignores_explicit_targets :
  fst (ListPacksForHost 2 (connect Sample.host_2_targeted)) = ([], None)
  /\ fst (ListHostsInPack 7 noListOptions (connect Sample.host_2_targeted))
     = ([2], None).
Proof. split; vm_compute; reflexivity. Qed.

(** C9.  On a store whose pack and whose label are soft-deleted:
    [ListPacks], [Pack] and [PackByName] do not show the pack, and
    [ListLabelsForPack] does not show the label; but [GetPackSpecs] returns
    the pack, with the label, and [ListHostsInPack] still returns host 1,
    which is there through the deleted label only. *)
Theorem soft_deleted_rows_still_read :
  fst (ListPacks noListOptions (connect Sample.soft_deleted)) = ([], None)
  /\ fst (Pack 7 (connect Sample.soft_deleted))
     = (None, Some (notFoundError "Pack" 7))
  /\ fst (PackByName "inventory" (connect Sample.soft_deleted)) = (None, false, None)
  /\ fst (ListLabelsForPack 7 (connect Sample.soft_deleted)) = ([], None)
  /\ fst (GetPackSpecs (connect Sample.soft_deleted))
     = Returned
         ([{| ID := 7; Name := "inventory"; Description := "hardware";
              Platform := ""; Targets := {| Labels := ["all"%string] |};
              Queries := [] |}], None)
  /\ fst (ListHostsInPack 7 noListOptions (connect Sample.soft_deleted))
     = ([1; 2], None)
  /\ fst (ListExplicitHostsInPack 7 noListOptions (connect Sample.soft_deleted))
     = ([2], None).
Proof. repeat split; vm_compute; reflexivity. Qed.

(* ================================================================== *)
(** ** The read side: what the queries select *)

Lemma distinct_In {A} (eqb : A -> A -> bool) (rows : list A) :
  (forall a b, eqb a b = true <-> a = b) ->
  forall x, In x (distinct eqb rows) <-> In x rows.
Proof.
  intros Heq x. induction rows as [| r rows IH]; simpl; [tauto |].
  rewrite filter_In, IH. split.
  - intros [H | [H _]]; auto.
  - intros [H | H]; [auto |].
    destruct (eqb r x) eqn:E.
    + left. apply Heq. exact E.
    + right. split; [exact H | reflexivity].
Qed.

Lemma distinct_NoDup {A} (eqb : A -> A -> bool) (rows : list A) :
  (forall a b, eqb a b = true <-> a = b) -> NoDup (distinct eqb rows).
Proof.
  intro Heq. induction rows as [| r rows IH]; simpl; constructor.
  - intro H. apply filter_In in H. destruct H as [_ H].
    rewrite (proj2 (Heq r r) eq_refl) in H. discriminate.
  - apply NoDup_filter. exact IH.
Qed.

Lemma Pack_eqb_eq a b : Pack_eqb a b = true <-> a = b.
Proof.
  destruct a, b; unfold Pack_eqb; simpl.
  rewrite !andb_true_iff, N.eqb_eq, !String.eqb_eq, !Bool.eqb_true_iff.
  split.
  - intros (((((-> & ->) & ->) & ->) & ->) & ->). reflexivity.
  - intro H. inversion H; subst. tauto.
Qed.

Lemma TargetType_eqb_eq a b : TargetType_eqb a b = true <-> a = b.
Proof. destruct a, b; simpl; split; intro H; try discriminate; reflexivity. Qed.

Lemma target_is (o : option N) (i : N) :
  match o with Some j => j =? i | None => false end = true <-> o = Some i.
Proof.
  destruct o as [j |]; [rewrite N.eqb_eq |]; split; intro H;
    try discriminate; congruence.
Qed.

(** The rows of the three-way join of [ListHostsInPack]. *)
Lemma select_hosts_in_pack_In pid t h :
  In h (select_hosts_in_pack TargetLabel TargetHost pid t) <->
  In h (map h_id (hosts t))
  /\ exists pt lqe,
       In pt (pack_targets t) /\ In lqe (label_query_executions t)
       /\ pt_pack_id pt = pid
       /\ ((pt_type pt = TargetLabel
            /\ pt_target_id pt = Some (lqe_label_id lqe)
            /\ lqe_host_id lqe = h /\ lqe_matches lqe = true)
           \/ (pt_type pt = TargetHost /\ pt_target_id pt = Some h)).
Proof.
  unfold select_hosts_in_pack.
  rewrite (distinct_In N.eqb _ N.eqb_eq).
  rewrite in_flat_map. split.
  - intros [hr [Hh H]]. apply in_flat_map in H. destruct H as [pt [Hpt H]].
    apply in_map_iff in H. destruct H as [lqe [<- H]].
    apply filter_In in H. destruct H as [Hl C].
    split; [apply in_map; exact Hh |].
    exists pt, lqe. split; [exact Hpt |]. split; [exact Hl |].
    apply andb_true_iff in C. destruct C as [C Cp].
    split; [apply N.eqb_eq; exact Cp |].
    apply orb_true_iff in C. destruct C as [C | C].
    + left. rewrite !andb_true_iff in C. destruct C as (((C1 & C2) & C3) & C4).
      apply target_is in C1. apply N.eqb_eq in C2. apply TargetType_eqb_eq in C4.
      auto.
    + right. rewrite andb_true_iff in C. destruct C as (C1 & C2).
      apply target_is in C1. apply TargetType_eqb_eq in C2. auto.
  - intros [Hh (pt & lqe & Hpt & Hl & Hp & C)].
    apply in_map_iff in Hh. destruct Hh as [hr [<- Hh]].
    exists hr. split; [exact Hh |]. apply in_flat_map. exists pt. split; [exact Hpt |].
    apply in_map_iff. exists lqe. split; [reflexivity |].
    apply filter_In. split; [exact Hl |].
    apply andb_true_iff. split; [| apply N.eqb_eq; exact Hp].
    apply orb_true_iff. destruct C as [(C1 & C2 & C3 & C4) | (C1 & C2)].
    + left. rewrite !andb_true_iff. repeat split.
      * apply target_is. exact C2.
      * apply N.eqb_eq. exact C3.
      * exact C4.
      * apply TargetType_eqb_eq. exact C1.
    + right. rewrite andb_true_iff. split.
      * apply target_is. exact C2.
      * apply TargetType_eqb_eq. exact C1.
Qed.

(** The rows of the join of [ListExplicitHostsInPack]. *)
Lemma select_explicit_hosts_in_pack_In pid t h :
  In h (select_explicit_hosts_in_pack TargetHost pid t) <->
  In h (map h_id (hosts t))
  /\ exists pt,
       In pt (pack_targets t) /\ pt_pack_id pt = pid
       /\ pt_type pt = TargetHost /\ pt_target_id pt = Some h.
Proof.
  unfold select_explicit_hosts_in_pack.
  rewrite (distinct_In N.eqb _ N.eqb_eq).
  rewrite in_flat_map. split.
  - intros [hr [Hh H]]. apply in_map_iff in H. destruct H as [pt [<- H]].
    apply filter_In in H. destruct H as [Hpt C].
    rewrite !andb_true_iff in C. destruct C as ((C1 & C2) & C3).
    apply target_is in C1. apply TargetType_eqb_eq in C2. apply N.eqb_eq in C3.
    split; [apply in_map; exact Hh |]. exists pt. auto.
  - intros [Hh (pt & Hpt & Hp & C1 & C2)].
    apply in_map_iff in Hh. destruct Hh as [hr [<- Hh]].
    exists hr. split; [exact Hh |].
    apply in_map_iff. exists pt. split; [reflexivity |].
    apply filter_In. split; [exact Hpt |].
    rewrite !andb_true_iff. repeat split.
    + apply target_is. exact C2.
    + apply TargetType_eqb_eq. exact C1.
    + apply N.eqb_eq. exact Hp.
Qed.

(** The rows of the join of [ListPacksForHost]. *)
Lemma select_packs_for_host_In hid t p :
  In p (select_packs_for_host TargetLabel hid t) <->
  In p (packs t) /\ p_disabled p = false
  /\ exists pt lqe,
       In pt (pack_targets t) /\ In lqe (label_query_executions t)
       /\ pt_pack_id pt = p_id p /\ pt_type pt = TargetLabel
       /\ pt_target_id pt = Some (lqe_label_id lqe)
       /\ lqe_host_id lqe = hid /\ lqe_matches lqe = true.
Proof.
  unfold select_packs_for_host.
  rewrite (distinct_In Pack_eqb _ Pack_eqb_eq).
  rewrite in_flat_map. split.
  - intros [p0 [Hp H]]. apply in_flat_map in H. destruct H as [pt [Hpt H]].
    apply in_map_iff in H. destruct H as [lqe [<- H]].
    apply filter_In in H. destruct H as [Hl C].
    rewrite !andb_true_iff in C.
    destruct C as ((((C1 & C2) & C3) & C4) & (C5 & C6)).
    apply N.eqb_eq in C1. apply target_is in C2. apply TargetType_eqb_eq in C3.
    apply N.eqb_eq in C5. apply negb_true_iff in C6.
    split; [exact Hp |]. split; [exact C6 |].
    exists pt, lqe. repeat split; auto.
  - intros (Hp & Hd & pt & lqe & Hpt & Hl & C1 & C3 & C2 & C5 & C4).
    exists p. split; [exact Hp |]. apply in_flat_map. exists pt. split; [exact Hpt |].
    apply in_map_iff. exists lqe. split; [reflexivity |].
    apply filter_In. split; [exact Hl |].
    rewrite !andb_true_iff. repeat split.
    + apply N.eqb_eq. auto.
    + apply target_is. exact C2.
    + apply TargetType_eqb_eq. exact C3.
    + exact C4.
    + apply N.eqb_eq. exact C5.
    + apply negb_true_iff. exact Hd.
Qed.

(** The rows of the join of [ListLabelsForPack]. *)
Lemma select_labels_for_pack_In pid t l :
  In l (select_labels_for_pack TargetLabel pid t) <->
  In l (labels t) /\ l_deleted l = false
  /\ exists pt,
       In pt (pack_targets t) /\ pt_pack_id pt = pid
       /\ pt_type pt = TargetLabel /\ pt_target_id pt = Some (l_id l).
Proof.
  unfold select_labels_for_pack. rewrite in_flat_map. split.
  - intros [l0 [Hl H]]. apply in_map_iff in H. destruct H as [pt [<- H]].
    apply filter_In in H. destruct H as [Hpt C].
    rewrite !andb_true_iff in C. destruct C as (((C1 & C2) & C3) & C4).
    apply target_is in C1. apply TargetType_eqb_eq in C2. apply N.eqb_eq in C3.
    apply negb_true_iff in C4.
    split; [exact Hl |]. split; [exact C4 |]. exists pt. auto.
  - intros (Hl & Hd & pt & Hpt & C3 & C2 & C1).
    exists l. split; [exact Hl |].
    apply in_map_iff. exists pt. split; [reflexivity |].
    apply filter_In. split; [exact Hpt |].
    rewrite !andb_true_iff. repeat split.
    + apply target_is. exact C1.
    + apply TargetType_eqb_eq. exact C2.
    + apply N.eqb_eq. exact C3.
    + apply negb_true_iff. exact Hd.
Qed.

Lemma In_firstn_inv {A} (l : list A) n x : In x (firstn n l) -> In x l.
Proof.
  revert l. induction n as [| n IH]; intros l H; simpl in H; [destruct H |].
  destruct l as [| a l]; [destruct H |]. destruct H as [H | H]; simpl; auto.
Qed.

Lemma In_skipn_inv {A} (l : list A) n x : In x (skipn n l) -> In x l.
Proof.
  revert l. induction n as [| n IH]; intros l H; simpl in H; [exact H |].
  destruct l as [| a l]; [destruct H |]. simpl; auto.
Qed.

(** List options only select among the rows, without repeating any. *)
Lemma appendListOptionsToSQL_In {A} (rows : list A) opt x :
  In x (appendListOptionsToSQL rows opt) -> In x rows.
Proof.
  unfold appendListOptionsToSQL. destruct (Limit opt) as [n |]; intro H.
  - apply In_firstn_inv in H. apply In_skipn_inv in H. exact H.
  - apply In_skipn_inv in H. exact H.
Qed.

Lemma NoDup_skipn {A} (l : list A) n : NoDup l -> NoDup (skipn n l).
Proof.
  revert l. induction n as [| n IH]; intros l H; simpl; [exact H |].
  destruct l as [| a l]; [constructor |]. inversion H. auto.
Qed.

Lemma NoDup_firstn {A} (l : list A) n : NoDup l -> NoDup (firstn n l).
Proof.
  revert l. induction n as [| n IH]; intros l H; simpl; [constructor |].
  destruct l as [| a l]; [constructor |]. inversion H; subst.
  constructor; [| auto]. intro C. apply In_firstn_inv in C. contradiction.
Qed.

Lemma appendListOptionsToSQL_NoDup {A} (rows : list A) opt :
  NoDup rows -> NoDup (appendListOptionsToSQL rows opt).
Proof.
  unfold appendListOptionsToSQL. intro H. destruct (Limit opt) as [n |].
  - apply NoDup_firstn, NoDup_skipn, H.
  - apply NoDup_skipn, H.
Qed.

Lemma appendListOptionsToSQL_none {A} (rows : list A) :
  appendListOptionsToSQL rows noListOptions = rows.
Proof. reflexivity. Qed.

(** What a listing function returns, whatever the store meets: the rows of
    its query and nil, or no row; and the store keeps its tables. *)
Lemma listing_cases {A} msg (query : Tables -> list A) d rows err d' :
  listing msg query d = ((rows, err), d') ->
  committed d' = committed d /\ tx d' = tx d
  /\ ((rows = query (committed d) /\ err = None /\ hd None (faults d) = None)
      \/ (rows = [] /\ err = None /\ hd None (faults d) = Some ErrNoRows)
      \/ (rows = [] /\ exists e, hd None (faults d) = Some e
                                 /\ is_ErrNoRows e = false
                                 /\ err = Some (withMessage e msg))).
Proof.
  unfold listing, db_Select, next_fault.
  destruct d as [c o fs]; simpl.
  destruct fs as [| [e |] fs]; simpl.
  - intro E; inversion E; subst; simpl.
    split; [reflexivity |]. split; [reflexivity |]. left. auto.
  - destruct (is_ErrNoRows e) eqn:N; intro E; inversion E; subst; simpl.
    + destruct e; try discriminate.
      split; [reflexivity |]. split; [reflexivity |]. right. left. auto.
    + split; [reflexivity |]. split; [reflexivity |]. right. right.
      split; [reflexivity |]. exists e. auto.
  - intro E; inversion E; subst; simpl.
    split; [reflexivity |]. split; [reflexivity |]. left. auto.
Qed.

(** X1.  [ListHostsInPack], whatever the list options and whatever the
    store meets, never changes the tables, returns no host twice, and
    returns only hosts of the host table that come out of its join: with
    some row of label_query_executions, a target of the pack of kind Label
    that this row matches for the host, or a target of kind Host that names
    the host. *)
Theorem ListHostsInPack_sound (pid : N) (opt : ListOptions) (d : Datastore) :
  committed (snd (ListHostsInPack pid opt d)) = committed d
  /\ NoDup (fst (fst (ListHostsInPack pid opt d)))
  /\ forall h, In h (fst (fst (ListHostsInPack pid opt d))) ->
       In h (map h_id (hosts (committed d)))
       /\ exists pt lqe,
            In pt (pack_targets (committed d))
            /\ In lqe (label_query_executions (committed d))
            /\ pt_pack_id pt = pid
            /\ ((pt_type pt = TargetLabel
                 /\ pt_target_id pt = Some (lqe_label_id lqe)
                 /\ lqe_host_id lqe = h /\ lqe_matches lqe = true)
                \/ (pt_type pt = TargetHost /\ pt_target_id pt = Some h)).
Proof.
  unfold ListHostsInPack.
  destruct (listing "listing hosts in pack"
              (fun t => appendListOptionsToSQL
                          (select_hosts_in_pack TargetLabel TargetHost pid t) opt) d)
    as [[rows err] d'] eqn:L.
  destruct (listing_cases _ _ _ _ _ _ L) as (C & _ & Cases). simpl.
  split; [exact C |].
  destruct Cases as [(-> & _) | [(-> & _) | (-> & _)]].
  - split.
    + apply appendListOptionsToSQL_NoDup. apply distinct_NoDup. apply N.eqb_eq.
    + intros h Hh. apply appendListOptionsToSQL_In in Hh.
      apply select_hosts_in_pack_In. exact Hh.
  - split; [constructor | intros h []].
  - split; [constructor | intros h []].
Qed.

(** X2.  When label_query_executions has a row, [ListHostsInPack] without
    list options returns, once each, exactly the hosts of the host table
    that a target of kind Host of the pack names, or that have a row of
    label_query_executions with matches set for the label of a target of
    kind Label of the pack. *)
Theorem ListHostsInPack_union (t : Tables) (pid : N) :
  label_query_executions t <> [] ->
  exists rows,
    ListHostsInPack pid noListOptions (connect t) = ((rows, None), connect t)
    /\ NoDup rows
    /\ forall h, In h rows <->
         In h (map h_id (hosts t))
         /\ ((exists pt,
                In pt (pack_targets t) /\ pt_pack_id pt = pid
                /\ pt_type pt = TargetHost /\ pt_target_id pt = Some h)
             \/ (exists pt lqe,
                   In pt (pack_targets t) /\ In lqe (label_query_executions t)
                   /\ pt_pack_id pt = pid /\ pt_type pt = TargetLabel
                   /\ pt_target_id pt = Some (lqe_label_id lqe)
                   /\ lqe_host_id lqe = h /\ lqe_matches lqe = true)).
Proof.
  intro Some_row.
  exists (select_hosts_in_pack TargetLabel TargetHost pid t).
  split; [reflexivity |].
  split; [apply distinct_NoDup; apply N.eqb_eq |].
  intro h. rewrite select_hosts_in_pack_In. split.
  - intros [Hh (pt & lqe & Hpt & Hl & Hp & [(C1 & C2 & C3 & C4) | (C1 & C2)])].
    + split; [exact Hh |]. right. exists pt, lqe. auto 10.
    + split; [exact Hh |]. left. exists pt. auto.
  - intros [Hh [(pt & Hpt & Hp & C1 & C2) | (pt & lqe & Hpt & Hl & Hp & C1 & C2 & C3 & C4)]].
    + split; [exact Hh |].
      destruct (label_query_executions t) as [| lqe rest] eqn:E; [congruence |].
      exists pt, lqe. split; [exact Hpt |]. split; [left; reflexivity |]. auto.
    + split; [exact Hh |]. exists pt, lqe. auto 10.
Qed.

Lemma ListHostsInPack_union_witness :
  label_query_executions Sample.soft_deleted <> []
  /\ exists rows,
       ListHostsInPack 7 noListOptions (connect Sample.soft_deleted)
       = ((rows, None), connect Sample.soft_deleted)
       /\ (In 2 rows <->
           In 2 (map h_id (hosts Sample.soft_deleted))
           /\ ((exists pt,
                  In pt (pack_targets Sample.soft_deleted) /\ pt_pack_id pt = 7
                  /\ pt_type pt = TargetHost /\ pt_target_id pt = Some 2)
               \/ (exists pt lqe,
                     In pt (pack_targets Sample.soft_deleted)
                     /\ In lqe (label_query_executions Sample.soft_deleted)
                     /\ pt_pack_id pt = 7 /\ pt_type pt = TargetLabel
                     /\ pt_target_id pt = Some (lqe_label_id lqe)
                     /\ lqe_host_id lqe = 2 /\ lqe_matches lqe = true))).
Proof.
  assert (H : label_query_executions Sample.soft_deleted <> []) by discriminate.
  split; [exact H |].
  destruct (ListHostsInPack_union Sample.soft_deleted 7 H) as (rows & E & _ & I).
  exists rows. split; [exact E | apply I].
Defined.

(** X3.  As long as label_query_executions has no row, [ListHostsInPack]
    returns no host, for every pack and whatever its targets. *)
Theorem ListHostsInPack_without_match_rows (pid : N) (opt : ListOptions) (d : Datastore) :
  label_query_executions (committed d) = [] ->
  fst (fst (ListHostsInPack pid opt d)) = [].
Proof.
  intro E. unfold ListHostsInPack.
  destruct (listing "listing hosts in pack"
              (fun t => appendListOptionsToSQL
                          (select_hosts_in_pack TargetLabel TargetHost pid t) opt) d)
    as [[rows err] d'] eqn:L.
  destruct (listing_cases _ _ _ _ _ _ L) as (_ & _ & Cases). simpl.
  destruct Cases as [(-> & _) | [(-> & _) | (-> & _)]]; try reflexivity.
  destruct (appendListOptionsToSQL
              (select_hosts_in_pack TargetLabel TargetHost pid (committed d)) opt)
    as [| h rows] eqn:R; [reflexivity |].
  assert (Hh : In h (select_hosts_in_pack TargetLabel TargetHost pid (committed d))).
  { apply (appendListOptionsToSQL_In _ opt). rewrite R. left. reflexivity. }
  apply select_hosts_in_pack_In in Hh.
  destruct Hh as [_ (pt & lqe & _ & Hl & _)].
  rewrite E in Hl. destruct Hl.
Qed.

Lemma ListHostsInPack_without_match_rows_witness :
  label_query_executions (committed (connect Sample.host_2_targeted_unreported)) = []
  /\ fst (fst (ListHostsInPack 7 noListOptions
                 (connect Sample.host_2_targeted_unreported))) = [].
Proof.
  split; [reflexivity |].
  apply ListHostsInPack_without_match_rows. reflexivity.
Defined.

(** X4.  [ListExplicitHostsInPack] without list options returns, once
    each, exactly the hosts of the host table that a target of kind Host of
    the pack names; labels and their matches play no part.  With list
    options it returns some of them, none twice. *)
Theorem ListExplicitHostsInPack_spec (t : Tables) (pid : N) (opt : ListOptions) :
  exists rows,
    ListExplicitHostsInPack pid opt (connect t) = ((rows, None), connect t)
    /\ NoDup rows
    /\ (forall h, In h rows ->
          In h (map h_id (hosts t))
          /\ exists pt,
               In pt (pack_targets t) /\ pt_pack_id pt = pid
               /\ pt_type pt = TargetHost /\ pt_target_id pt = Some h)
    /\ (opt = noListOptions ->
        forall h,
          In h (map h_id (hosts t)) ->
          (exists pt,
             In pt (pack_targets t) /\ pt_pack_id pt = pid
             /\ pt_type pt = TargetHost /\ pt_target_id pt = Some h) ->
          In h rows).
Proof.
  exists (appendListOptionsToSQL (select_explicit_hosts_in_pack TargetHost pid t) opt).
  split; [reflexivity |].
  split; [apply appendListOptionsToSQL_NoDup, distinct_NoDup, N.eqb_eq |].
  split.
  - intros h Hh. apply appendListOptionsToSQL_In in Hh.
    apply select_explicit_hosts_in_pack_In. exact Hh.
  - intros -> h Hh Hpt. rewrite appendListOptionsToSQL_none.
    apply select_explicit_hosts_in_pack_In. auto.
Qed.

(** X5.  [ListPacksForHost] returns, once each, exactly the rows of the
    pack table that are not disabled and have a target of kind Label whose
    label the host matches in label_query_executions.  Whether the pack is
    deleted plays no part, and neither do targets of kind Host. *)
Theorem ListPacksForHost_spec (t : Tables) (hid : N) :
  exists rows,
    ListPacksForHost hid (connect t) = ((rows, None), connect t)
    /\ NoDup rows
    /\ forall p, In p rows <->
         In p (packs t) /\ p_disabled p = false
         /\ exists pt lqe,
              In pt (pack_targets t) /\ In lqe (label_query_executions t)
              /\ pt_pack_id pt = p_id p /\ pt_type pt = TargetLabel
              /\ pt_target_id pt = Some (lqe_label_id lqe)
              /\ lqe_host_id lqe = hid /\ lqe_matches lqe = true.
Proof.
  exists (select_packs_for_host TargetLabel hid t).
  split; [reflexivity |].
  split; [apply distinct_NoDup, Pack_eqb_eq |].
  intro p. apply select_packs_for_host_In.
Qed.

(** X6.  [ListPacksForHost] never returns a disabled pack, whatever the
    store meets, and never changes the tables. *)
Theorem ListPacksForHost_never_disabled (hid : N) (d : Datastore) :
  committed (snd (ListPacksForHost hid d)) = committed d
  /\ forall p, In p (fst (fst (ListPacksForHost hid d))) -> p_disabled p = false.
Proof.
  unfold ListPacksForHost.
  destruct (listing "listing hosts in pack" (select_packs_for_host TargetLabel hid) d)
    as [[rows err] d'] eqn:L.
  destruct (listing_cases _ _ _ _ _ _ L) as (C & _ & Cases). simpl.
  split; [exact C |].
  destruct Cases as [(-> & _) | [(-> & _) | (-> & _)]]; try (intros p []).
  intros p Hp. apply select_packs_for_host_In in Hp. tauto.
Qed.

(** X7.  [ListLabelsForPack] returns exactly the labels that are not
    deleted and that a target of kind Label of the pack refers to, and
    never changes the tables. *)
Theorem ListLabelsForPack_spec (t : Tables) (pid : N) :
  exists rows,
    ListLabelsForPack pid (connect t) = ((rows, None), connect t)
    /\ forall l, In l rows <->
         In l (labels t) /\ l_deleted l = false
         /\ exists pt,
              In pt (pack_targets t) /\ pt_pack_id pt = pid
              /\ pt_type pt = TargetLabel /\ pt_target_id pt = Some (l_id l).
Proof.
  exists (select_labels_for_pack TargetLabel pid t).
  split; [reflexivity |].
  intro l. apply select_labels_for_pack_In.
Qed.

(** X8.  [ListPacks] never returns a deleted pack, whatever the list
    options and whatever the store meets; without list options and without
    a failure it returns every row of the pack table that is not deleted. *)
Theorem ListPacks_spec (opt : ListOptions) (d : Datastore) :
  (forall p, In p (fst (fst (ListPacks opt d))) ->
             In p (packs (committed d)) /\ p_deleted p = false)
  /\ (opt = noListOptions -> faults d = [] ->
      forall p, In p (packs (committed d)) -> p_deleted p = false ->
                In p (fst (fst (ListPacks opt d)))).
Proof.
  unfold ListPacks. split.
  - destruct (listing "listing packs"
                (fun t => appendListOptionsToSQL (select_packs t) opt) d)
      as [[rows err] d'] eqn:L.
    destruct (listing_cases _ _ _ _ _ _ L) as (_ & _ & Cases). simpl.
    destruct Cases as [(-> & _) | [(-> & _) | (-> & _)]]; try (intros p []).
    intros p Hp. apply appendListOptionsToSQL_In in Hp.
    unfold select_packs in Hp. apply filter_In in Hp.
    destruct Hp as [Hp Hd]. apply negb_true_iff in Hd. auto.
  - intros -> F p Hp Hd.
    unfold listing, db_Select, next_fault. rewrite F. simpl.
    unfold select_packs. apply filter_In. split; [exact Hp |].
    apply negb_true_iff. exact Hd.
Qed.

Lemma filter_first {A} (f : A -> bool) (l : list A) x rest :
  filter f l = x :: rest -> In x l /\ f x = true.
Proof.
  intro H. apply filter_In. rewrite H. left. reflexivity.
Qed.

Lemma Pack_connect pid t :
  Pack pid (connect t) =
  match select_pack_by_id pid t with
  | [] => ((None, Some (notFoundError "Pack" pid)), connect t)
  | p :: _ => ((Some p, None), connect t)
  end.
Proof.
  unfold Pack, db_Get, db_Select, next_fault, connect; simpl.
  destruct (select_pack_by_id pid t); reflexivity.
Qed.

Lemma PackByName_connect name t :
  PackByName name (connect t) =
  match select_pack_by_name name t with
  | [] => ((None, false, None), connect t)
  | p :: _ => ((Some p, true, None), connect t)
  end.
Proof.
  unfold PackByName, db_Get, db_Select, next_fault, connect; simpl.
  destruct (select_pack_by_name name t); reflexivity.
Qed.

(** With unique ids, the row that has an id and is not deleted is the one
    [Pack] returns; likewise by name. *)
Lemma Pack_found t p :
  NoDup (map p_id (packs t)) -> In p (packs t) -> p_deleted p = false ->
  Pack (p_id p) (connect t) = ((Some p, None), connect t).
Proof.
  intros ND Hp Hd. rewrite Pack_connect.
  destruct (select_pack_by_id (p_id p) t) as [| q rest] eqn:S.
  - exfalso.
    assert (In p (select_pack_by_id (p_id p) t)) as H.
    { apply filter_In. split; [exact Hp |].
      rewrite Hd, N.eqb_refl. reflexivity. }
    rewrite S in H. destruct H.
  - apply filter_first in S. destruct S as [Hq C].
    apply andb_true_iff in C. destruct C as [C _]. apply N.eqb_eq in C.
    assert (q = p) by (apply (NoDup_map_inj p_id (packs t)); congruence).
    subst. reflexivity.
Qed.

Lemma PackByName_found t p :
  NoDup (map p_name (packs t)) -> In p (packs t) -> p_deleted p = false ->
  PackByName (p_name p) (connect t) = ((Some p, true, None), connect t).
Proof.
  intros ND Hp Hd. rewrite PackByName_connect.
  destruct (select_pack_by_name (p_name p) t) as [| q rest] eqn:S.
  - exfalso.
    assert (In p (select_pack_by_name (p_name p) t)) as H.
    { apply filter_In. split; [exact Hp |].
      rewrite Hd. unfold named. rewrite String.eqb_refl. reflexivity. }
    rewrite S in H. destruct H.
  - apply filter_first in S. destruct S as [Hq C].
    apply andb_true_iff in C. destruct C as [C _]. apply named_iff in C.
    assert (q = p) by (apply (NoDup_map_inj p_name (packs t)); congruence).
    subst. reflexivity.
Qed.

(** X9.  [Pack]: on a store whose pack ids are unique and that meets no
    failure, it returns a pack exactly when a row has the id and is not
    deleted, and then that row; otherwise it returns the not-found error
    that carries the id. *)
Theorem Pack_spec (t : Tables) (pid : N) :
  NoDup (map p_id (packs t)) ->
  (forall p, In p (packs t) -> p_id p = pid -> p_deleted p = false ->
             Pack pid (connect t) = ((Some p, None), connect t))
  /\ ((forall p, In p (packs t) -> p_id p = pid -> p_deleted p = true) ->
      Pack pid (connect t) = ((None, Some (notFoundError "Pack" pid)), connect t)).
Proof.
  intro ND. split.
  - intros p Hp <- Hd. apply Pack_found; assumption.
  - intro H. rewrite Pack_connect.
    destruct (select_pack_by_id pid t) as [| q rest] eqn:S; [reflexivity |].
    apply filter_first in S. destruct S as [Hq C].
    apply andb_true_iff in C. destruct C as [C1 C2].
    apply N.eqb_eq in C1. apply negb_true_iff in C2.
    rewrite (H q Hq C1) in C2. discriminate.
Qed.

Lemma Pack_spec_witness :
  NoDup (map p_id (packs Sample.store))
  /\ Pack 7 (connect Sample.store)
     = ((Some {| p_id := 7; p_name := "inventory"; p_description := "hardware";
                 p_platform := ""; p_disabled := false; p_deleted := false |},
         None), connect Sample.store).
Proof.
  assert (ND : NoDup (map p_id (packs Sample.store)))
    by exact (proj1 Sample_store_keys).
  split; [exact ND |].
  apply (proj1 (Pack_spec Sample.store 7 ND)); simpl; auto.
Defined.

(** X10.  [PackByName]: on a store whose pack names are unique and that
    meets no failure, it returns a pack and true exactly when a row bears
    the name and is not deleted, and then that row; otherwise it returns no
    pack, false and no error. *)
Theorem PackByName_spec (t : Tables) (name : string) :
  NoDup (map p_name (packs t)) ->
  (forall p, In p (packs t) -> p_name p = name -> p_deleted p = false ->
             PackByName name (connect t) = ((Some p, true, None), connect t))
  /\ ((forall p, In p (packs t) -> p_name p = name -> p_deleted p = true) ->
      PackByName name (connect t) = ((None, false, None), connect t)).
Proof.
  intro ND. split.
  - intros p Hp <- Hd. apply PackByName_found; assumption.
  - intro H. rewrite PackByName_connect.
    destruct (select_pack_by_name name t) as [| q rest] eqn:S; [reflexivity |].
    apply filter_first in S. destruct S as [Hq C].
    apply andb_true_iff in C. destruct C as [C1 C2].
    apply named_iff in C1. apply negb_true_iff in C2.
    rewrite (H q Hq C1) in C2. discriminate.
Qed.

Lemma PackByName_spec_witness :
  NoDup (map p_name (packs Sample.soft_deleted))
  /\ PackByName "inventory" (connect Sample.soft_deleted)
     = ((None, false, None), connect Sample.soft_deleted).
Proof.
  assert (ND : NoDup (map p_name (packs Sample.soft_deleted))).
  { simpl. repeat constructor. simpl. tauto. }
  split; [exact ND |].
  apply (proj2 (PackByName_spec Sample.soft_deleted "inventory" ND)).
  simpl. intros p [<- | []] _. reflexivity.
Defined.

(** X11.  A store failure met by a listing function.  [sql.ErrNoRows] is
    taken for an empty result; any other failure comes back wrapped with
    the message of the function, with no rows.  [ListPacksForHost] wraps
    with the message of [ListHostsInPack].  The failure is consumed and the
    tables stay as they are. *)
Theorem listing_functions_on_failure (c : Tables) (o : option Tables)
    (e : error) (fs : list (option error)) (pid hid : N) (opt : ListOptions) :
  let d := {| committed := c; tx := o; faults := Some e :: fs |} in
  let d' := {| committed := c; tx := o; faults := fs |} in
  let wrapped (msg : string) : option error :=
    if is_ErrNoRows e then None else Some (withMessage e msg) in
  ListPacks opt d = (([], wrapped "listing packs"%string), d')
  /\ ListLabelsForPack pid d = (([], wrapped "listing labels for pack"%string), d')
  /\ ListPacksForHost hid d = (([], wrapped "listing hosts in pack"%string), d')
  /\ ListHostsInPack pid opt d = (([], wrapped "listing hosts in pack"%string), d')
  /\ ListExplicitHostsInPack pid opt d
     = (([], wrapped "listing explicit hosts in pack"%string), d').
Proof.
  simpl.
  unfold ListPacks, ListLabelsForPack, ListPacksForHost, ListHostsInPack,
    ListExplicitHostsInPack, listing, db_Select, next_fault; simpl.
  destruct (is_ErrNoRows e); repeat split.
Qed.

(** X12.  A store failure met by a lookup.  [Pack] turns [sql.ErrNoRows]
    into its not-found error and wraps any other failure with "getting
    pack"; [PackByName] turns [sql.ErrNoRows] into "no pack, false, no
    error" and wraps any other failure with "fetching packs by name".
    Neither returns a pack. *)
Theorem lookups_on_failure (c : Tables) (o : option Tables)
    (e : error) (fs : list (option error)) (pid : N) (name : string) :
  let d := {| committed := c; tx := o; faults := Some e :: fs |} in
  let d' := {| committed := c; tx := o; faults := fs |} in
  Pack pid d
  = ((None, if is_ErrNoRows e then Some (notFoundError "Pack" pid)
            else Some (withMessage e "getting pack")), d')
  /\ PackByName name d
     = ((None, false, if is_ErrNoRows e then None
                      else Some (withMessage e "fetching packs by name")), d').
Proof.
  simpl. unfold Pack, PackByName, db_Get, db_Select, next_fault; simpl.
  destruct (is_ErrNoRows e); split; reflexivity.
Qed.

(* ================================================================== *)
(** ** The write side: what a batch changes and what it leaves *)

Lemma applicable_references spec t :
  applicable spec t = true <-> references_hold spec t.
Proof.
  unfold applicable, references_hold.
  rewrite andb_true_iff, !forallb_forall. tauto.
Qed.

(** X13.  On a store that meets no failure, [ApplyPackSpecs] returns nil
    exactly when, for every spec of the batch, every scheduled query names
    a query that exists and every label name can be inserted as a target
    (one label bears it, or none does and target_id accepts NULL). *)
Theorem ApplyPackSpecs_succeeds_iff (specs : list PackSpec) (t : Tables) :
  (exists d', ApplyPackSpecs specs (connect t) = (Returned None, d'))
  <-> forall s, In s specs -> references_hold s t.
Proof.
  split.
  - intros [d' A] s Hs. apply ApplyPackSpecs_ok in A. simpl in A.
    apply applicable_references.
    apply (reconciled_all_applicable_inv _ _ _ A). exact Hs.
  - intro H.
    destruct (reconciled_all_applicable specs t) as [t' R].
    + intros s Hs. apply applicable_references. apply H. exact Hs.
    + exists (connect t'). apply ApplyPackSpecs_connect. exact R.
Qed.

(** X14.  Whatever it returns, [ApplyPackSpecs] never writes to the
    labels, queries, hosts or label_query_executions. *)
Theorem ApplyPackSpecs_writes_packs_only (specs : list PackSpec) (d d' : Datastore)
    (r : outcome (option error)) :
  ApplyPackSpecs specs d = (r, d') ->
  labels (committed d') = labels (committed d)
  /\ queries (committed d') = queries (committed d)
  /\ hosts (committed d') = hosts (committed d)
  /\ label_query_executions (committed d') = label_query_executions (committed d).
Proof.
  intro A.
  assert (Cases : r = Returned None \/ r <> Returned None).
  { destruct r as [[e |] | msg]; [right | left | right]; congruence. }
  destruct Cases as [-> | Hr].
  - apply ApplyPackSpecs_ok in A.
    destruct (reconciled_all_closed _ _ _ A) as (_ & _ & _ & Hl & Hq & Hh & He & _).
    auto.
  - rewrite (ApplyPackSpecs_failure_keeps _ _ _ _ A Hr). auto.
Qed.

Lemma ApplyPackSpecs_writes_packs_only_witness :
  ApplyPackSpecs [Sample.monitoring; Sample.broken] (connect Sample.store)
  = (fst (ApplyPackSpecs [Sample.monitoring; Sample.broken] (connect Sample.store)),
     snd (ApplyPackSpecs [Sample.monitoring; Sample.broken] (connect Sample.store)))
  /\ labels (committed (snd (ApplyPackSpecs [Sample.monitoring; Sample.broken]
                               (connect Sample.store))))
     = labels Sample.store.
Proof.
  assert (H : ApplyPackSpecs [Sample.monitoring; Sample.broken] (connect Sample.store)
              = (fst (ApplyPackSpecs [Sample.monitoring; Sample.broken]
                        (connect Sample.store)),
                 snd (ApplyPackSpecs [Sample.monitoring; Sample.broken]
                        (connect Sample.store))))
    by (vm_compute; reflexivity).
  split; [exact H |].
  exact (proj1 (ApplyPackSpecs_writes_packs_only _ _ _ _ H)).
Defined.

(** X15.  [ApplyPackSpecs] keeps the keys: on a store where pack ids, pack
    names, label ids and label names are unique, they still are after the
    call, whatever it returns. *)
Theorem ApplyPackSpecs_keeps_keys (specs : list PackSpec) (d d' : Datastore)
    (r : outcome (option error)) :
  keys_hold (committed d) ->
  ApplyPackSpecs specs d = (r, d') ->
  keys_hold (committed d').
Proof.
  intros K A.
  assert (Cases : r = Returned None \/ r <> Returned None).
  { destruct r as [[e |] | msg]; [right | left | right]; congruence. }
  destruct Cases as [-> | Hr].
  - apply ApplyPackSpecs_ok in A. apply (reconciled_all_keys _ _ _ A K).
  - rewrite (ApplyPackSpecs_failure_keeps _ _ _ _ A Hr). exact K.
Qed.

Lemma ApplyPackSpecs_keeps_keys_witness :
  keys_hold (committed (connect Sample.store))
  /\ keys_hold (committed (snd (ApplyPackSpecs [Sample.monitoring; Sample.empty_pack]
                                  (connect Sample.store)))).
Proof.
  split; [exact Sample_store_keys |].
  apply (ApplyPackSpecs_keeps_keys [Sample.monitoring; Sample.empty_pack]
           (connect Sample.store) _
           (fst (ApplyPackSpecs [Sample.monitoring; Sample.empty_pack]
                   (connect Sample.store)))
           Sample_store_keys).
  vm_compute. reflexivity.
Defined.

(** X16.  A call of [ApplyPackSpecs] that returns nil removes no pack row
    and moves none: the rows the table had are still there, in place, each
    with its id, its name and its disabled flag, and the rows added after
    them bear names of the batch. *)
Theorem ApplyPackSpecs_keeps_rows (specs : list PackSpec) (d d' : Datastore) :
  ApplyPackSpecs specs d = (Returned None, d') ->
  exists kept inserted,
    packs (committed d') = kept ++ inserted
    /\ map p_id kept = map p_id (packs (committed d))
    /\ map p_name kept = map p_name (packs (committed d))
    /\ map p_disabled kept = map p_disabled (packs (committed d))
    /\ forall p, In p inserted -> In (p_name p) (map Name specs).
Proof.
  intro A. apply ApplyPackSpecs_ok in A.
  destruct (reconciled_all_packs _ _ _ A) as (ins & P & Hins).
  exists (map (touch_all specs) (packs (committed d))), ins.
  split; [exact P |].
  rewrite !map_map.
  split; [apply map_ext; apply touch_all_id |].
  split; [apply map_ext; apply touch_all_name |].
  split; [apply map_ext; apply touch_all_disabled | exact Hins].
Qed.

Lemma ApplyPackSpecs_keeps_rows_witness :
  exists kept inserted,
    packs (committed (snd (ApplyPackSpecs [Sample.monitoring; Sample.inventory]
                             (connect Sample.soft_deleted))))
    = kept ++ inserted
    /\ map p_id kept = [7].
Proof.
  destruct (ApplyPackSpecs_keeps_rows [Sample.monitoring; Sample.inventory]
              (connect Sample.soft_deleted)
              (snd (ApplyPackSpecs [Sample.monitoring; Sample.inventory]
                      (connect Sample.soft_deleted))))
    as (kept & ins & P & I & _).
  - vm_compute. reflexivity.
  - exists kept, ins. split; [exact P | exact I].
Defined.

(** A row whose name the batch does not bear goes through it as it is. *)
Lemma reconciled_all_row_kept specs : forall t t' p,
  reconciled_all specs t = Some t' ->
  In p (packs t) -> ~ In (p_name p) (map Name specs) ->
  In p (packs t').
Proof.
  intros t t' p R Hp Hn.
  destruct (reconciled_all_packs _ _ _ R) as (ins & P & _).
  rewrite P. apply in_or_app. left.
  rewrite <- (touch_all_other specs p).
  - apply in_map. exact Hp.
  - intros s Hs C. apply Hn. rewrite <- C. apply in_map. exact Hs.
Qed.

(** X17.  A call of [ApplyPackSpecs] that returns nil leaves alone every
    pack that the batch does not name: its row is as it was, and so are its
    scheduled queries and its targets, in the order they had. *)
Theorem ApplyPackSpecs_leaves_other_packs (specs : list PackSpec) (d d' : Datastore) :
  keys_hold (committed d) ->
  ApplyPackSpecs specs d = (Returned None, d') ->
  forall p, In p (packs (committed d)) ->
    ~ In (p_name p) (map Name specs) ->
    In p (packs (committed d'))
    /\ filter (fun r => sq_pack_id r =? p_id p) (scheduled_queries (committed d'))
       = filter (fun r => sq_pack_id r =? p_id p) (scheduled_queries (committed d))
    /\ filter (fun r => pt_pack_id r =? p_id p) (pack_targets (committed d'))
       = filter (fun r => pt_pack_id r =? p_id p) (pack_targets (committed d)).
Proof.
  intros K A p Hp Hn. apply ApplyPackSpecs_ok in A.
  set (t := committed d) in *. set (t' := committed d') in *.
  pose proof (reconciled_all_row_kept _ _ _ _ A Hp Hn) as Hp'.
  destruct (reconciled_all_closed _ _ _ A) as (Hex & Hsq & Hpt & _).
  pose proof (reconciled_all_keys _ _ _ A K) as (Ki & Kn & _).
  assert (Diff : forall s, In s specs -> pack_id (Name s) t' <> p_id p).
  { intros s Hs. rewrite (pack_row_id t' p Kn Hp').
    apply pack_id_inj; auto.
    - apply select_pack_id_nonempty. apply in_map. exact Hp'.
    - intro C. apply Hn. rewrite <- C. apply in_map. exact Hs. }
  split; [exact Hp' |]. split.
  - rewrite Hsq.
    apply (fold_replace_other _ _ sq_pack_id (fun s => pack_id (Name s) t')
             (fun s => map (scheduled_query_row (pack_id (Name s) t')) (Queries s))).
    + intros s r Hr. apply in_map_iff in Hr. destruct Hr as [q [<- _]]. reflexivity.
    + exact Diff.
  - rewrite Hpt.
    apply (fold_replace_other _ _ pt_pack_id (fun s => pack_id (Name s) t')
             (fun s => map (target_row (pack_id (Name s) t') t) (Labels (Targets s)))).
    + intros s r Hr. apply in_map_iff in Hr. destruct Hr as [q [<- _]]. reflexivity.
    + exact Diff.
Qed.

Lemma ApplyPackSpecs_leaves_other_packs_witness :
  keys_hold (committed (connect Sample.host_2_targeted))
  /\ filter (fun r => pt_pack_id r =? 7)
       (pack_targets (committed (snd (ApplyPackSpecs [Sample.monitoring]
                                        (connect Sample.host_2_targeted)))))
     = [{| pt_pack_id := 7; pt_type := TargetHost; pt_target_id := Some 2 |}].
Proof.
  split; [exact Sample_store_keys |].
  destruct (ApplyPackSpecs_leaves_other_packs [Sample.monitoring]
              (connect Sample.host_2_targeted)
              (snd (ApplyPackSpecs [Sample.monitoring] (connect Sample.host_2_targeted)))
              Sample_store_keys)
    with (p := {| p_id := 7; p_name := "inventory"; p_description := "hardware";
                  p_platform := ""; p_disabled := false; p_deleted := false |})
    as (_ & _ & T).
  - vm_compute. reflexivity.
  - simpl. auto.
  - simpl. intros [C | []]. discriminate.
  - exact T.
Defined.

(** X18.  After a call of [ApplyPackSpecs] that returned nil, the
    scheduled-query rows of each pack of the batch are exactly the
    scheduled queries of its spec (the last of the batch that bears the
    name), column for column and in the order submitted: the rows the pack
    had before are gone. *)
Theorem ApplyPackSpecs_replaces_scheduled_queries (specs : list PackSpec)
    (d d' : Datastore) :
  keys_hold (committed d) ->
  ApplyPackSpecs specs d = (Returned None, d') ->
  forall pre spec post,
    specs = pre ++ spec :: post ->
    (forall s, In s post -> Name s <> Name spec) ->
    forall p, In p (packs (committed d')) -> p_name p = Name spec ->
      filter (fun r => sq_pack_id r =? p_id p) (scheduled_queries (committed d'))
      = map (fun q =>
               {| sq_pack_id := p_id p; sq_query_name := QueryName q;
                  sq_name := QName q; sq_description := QDescription q;
                  sq_interval := Interval q; sq_snapshot := Snapshot q;
                  sq_removed := Removed q; sq_shard := Shard q;
                  sq_platform := QPlatform q; sq_version := Version q |})
            (Queries spec).
Proof.
  intros K A pre spec post -> Last p Hp Hn.
  apply ApplyPackSpecs_ok in A.
  pose proof (reconciled_all_keys _ _ _ A K) as (_ & Kn & _).
  destruct (reconciled_all_children _ _ _ _ _ A K Last) as [Hsq _].
  rewrite <- Hn, <- (pack_row_id _ p Kn Hp) in Hsq. exact Hsq.
Qed.

Lemma ApplyPackSpecs_replaces_scheduled_queries_witness :
  keys_hold (committed (connect Sample.store))
  /\ forall p,
       In p (packs (committed (snd (ApplyPackSpecs [Sample.monitoring]
                                      (connect Sample.store))))) ->
       p_name p = "monitoring"%string ->
       List.length
         (filter (fun r => sq_pack_id r =? p_id p)
            (scheduled_queries
               (committed (snd (ApplyPackSpecs [Sample.monitoring]
                                  (connect Sample.store))))))
       = 1%nat.
Proof.
  assert (H : ApplyPackSpecs [Sample.monitoring] (connect Sample.store)
              = (Returned None,
                 snd (ApplyPackSpecs [Sample.monitoring] (connect Sample.store))))
    by (vm_compute; reflexivity).
  split; [exact Sample_store_keys |].
  intros p Hp Hn.
  rewrite (ApplyPackSpecs_replaces_scheduled_queries [Sample.monitoring]
             (connect Sample.store) _ Sample_store_keys H
             [] Sample.monitoring [] eq_refl ltac:(intros s []) p Hp Hn).
  reflexivity.
Defined.

(** X19.  After a call of [ApplyPackSpecs] that returned nil, every pack
    of the batch can be looked up, by name with [PackByName] and by id with
    [Pack], also when it was soft-deleted before: the row returned is not
    deleted and carries the description and the platform of its spec (the
    last of the batch that bears the name). *)
Theorem ApplyPackSpecs_then_lookup (specs : list PackSpec) (d d' : Datastore) :
  keys_hold (committed d) ->
  ApplyPackSpecs specs d = (Returned None, d') ->
  forall pre spec post,
    specs = pre ++ spec :: post ->
    (forall s, In s post -> Name s <> Name spec) ->
    exists p,
      PackByName (Name spec) (connect (committed d'))
      = ((Some p, true, None), connect (committed d'))
      /\ Pack (p_id p) (connect (committed d'))
         = ((Some p, None), connect (committed d'))
      /\ p_name p = Name spec
      /\ p_description p = Description spec
      /\ p_platform p = Platform spec
      /\ p_deleted p = false.
Proof.
  intros K A pre spec post -> Last. apply ApplyPackSpecs_ok in A.
  set (t' := committed d') in *.
  destruct (reconciled_all_closed _ _ _ A) as (Hex & _).
  pose proof (reconciled_all_keys _ _ _ A K) as (Ki & Kn & _).
  assert (Ex : select_pack_id (Name spec) t' <> []).
  { apply Hex. apply in_or_app. right. left. reflexivity. }
  destruct (pack_id_row _ _ Ex) as [p [Pin [Pn _]]].
  destruct (reconciled_all_row _ _ _ _ _ _ A Last Pin Pn) as (Pd & Pp & Pdel).
  exists p. rewrite <- Pn at 1.
  split; [apply PackByName_found; assumption |].
  split; [apply Pack_found; assumption |]. auto.
Qed.

Lemma ApplyPackSpecs_then_lookup_witness :
  keys_hold (committed (connect Sample.soft_deleted))
  /\ exists p,
       PackByName "inventory"
         (connect (committed (snd (ApplyPackSpecs [Sample.inventory]
                                     (connect Sample.soft_deleted)))))
       = ((Some p, true, None),
          connect (committed (snd (ApplyPackSpecs [Sample.inventory]
                                     (connect Sample.soft_deleted)))))
       /\ p_deleted p = false.
Proof.
  assert (K : keys_hold (committed (connect Sample.soft_deleted))).
  { unfold keys_hold; simpl.
    repeat split; repeat constructor; simpl; intuition discriminate. }
  assert (H : ApplyPackSpecs [Sample.inventory] (connect Sample.soft_deleted)
              = (Returned None,
                 snd (ApplyPackSpecs [Sample.inventory] (connect Sample.soft_deleted))))
    by (vm_compute; reflexivity).
  split; [exact K |].
  destruct (ApplyPackSpecs_then_lookup [Sample.inventory]
              (connect Sample.soft_deleted) _ K H
              [] Sample.inventory [] eq_refl ltac:(intros s []))
    as (p & B & _ & _ & _ & _ & D).
  exists p. split; [exact B | exact D].
Defined.

Lemma label_target_Some t l i :
  label_target t l = Some i ->
  exists lr, In lr (labels t) /\ l_name lr = l /\ l_id lr = i.
Proof.
  unfold label_target, select_label_id. intro H.
  destruct (filter (fun l0 => String.eqb (l_name l0) l) (labels t))
    as [| lr [| lr2 rest]] eqn:F; try discriminate.
  inversion H; subst.
  apply filter_first in F. destruct F as [Hin E]. apply String.eqb_eq in E.
  exists lr. auto.
Qed.

(** X20.  After a call of [ApplyPackSpecs] that returned nil,
    [ListHostsInPack] for a pack of the batch returns, once each, exactly
    the hosts of the host table that have a row of label_query_executions
    with matches set for a label named in [Targets.Labels] of its spec (the
    last of the batch that bears the name).  Hosts that were targeted
    explicitly before are no longer returned unless a label brings them. *)
Theorem ApplyPackSpecs_then_ListHostsInPack (specs : list PackSpec) (d d' : Datastore) :
  keys_hold (committed d) ->
  ApplyPackSpecs specs d = (Returned None, d') ->
  forall pre spec post,
    specs = pre ++ spec :: post ->
    (forall s, In s post -> Name s <> Name spec) ->
    forall p, In p (packs (committed d')) -> p_name p = Name spec ->
    exists rows,
      ListHostsInPack (p_id p) noListOptions (connect (committed d'))
      = ((rows, None), connect (committed d'))
      /\ NoDup rows
      /\ forall h, In h rows <->
           In h (map h_id (hosts (committed d')))
           /\ exists lr lqe,
                In (l_name lr) (Labels (Targets spec))
                /\ In lr (labels (committed d'))
                /\ In lqe (label_query_executions (committed d'))
                /\ lqe_label_id lqe = l_id lr
                /\ lqe_host_id lqe = h /\ lqe_matches lqe = true.
Proof.
  intros K A pre spec post -> Last p Hp Hn. apply ApplyPackSpecs_ok in A.
  set (t' := committed d') in *.
  pose proof (reconciled_all_keys _ _ _ A K) as (_ & Kn & _ & Kln).
  destruct (reconciled_all_children _ _ _ _ _ A K Last) as [_ Hpt].
  rewrite <- Hn, <- (pack_row_id _ p Kn Hp) in Hpt.
  exists (select_hosts_in_pack TargetLabel TargetHost (p_id p) t').
  split; [reflexivity |].
  split; [apply distinct_NoDup, N.eqb_eq |].
  intro h. rewrite select_hosts_in_pack_In. split.
  - intros [Hh (pt & lqe & Hpt' & Hl & Hk & C)]. split; [exact Hh |].
    assert (In pt (filter (fun r => pt_pack_id r =? p_id p) (pack_targets t'))) as F.
    { apply filter_In. split; [exact Hpt' | apply N.eqb_eq; exact Hk]. }
    rewrite Hpt in F. apply in_map_iff in F. destruct F as [l [<- Hl']].
    destruct C as [(_ & C2 & C3 & C4) | (C1 & _)]; [| discriminate].
    simpl in C2. apply label_target_Some in C2.
    destruct C2 as (lr & Hlr & <- & Hid).
    exists lr, lqe. auto 10.
  - intros [Hh (lr & lqe & Hl' & Hlr & Hl & C1 & C2 & C3)]. split; [exact Hh |].
    exists (target_row (p_id p) t' (l_name lr)), lqe.
    split.
    { assert (In (target_row (p_id p) t' (l_name lr))
                 (filter (fun r => pt_pack_id r =? p_id p) (pack_targets t'))) as F.
      { rewrite Hpt. apply in_map. exact Hl'. }
      apply filter_In in F. tauto. }
    split; [exact Hl |]. split; [reflexivity |].
    left. split; [reflexivity |]. split; [| auto].
    simpl. rewrite (label_target_found _ _ Kln Hlr). congruence.
Qed.

Lemma ApplyPackSpecs_then_ListHostsInPack_witness :
  keys_hold (committed (connect Sample.host_2_targeted))
  /\ forall p,
       In p (packs (committed (snd (ApplyPackSpecs [Sample.inventory]
                                      (connect Sample.host_2_targeted))))) ->
       p_name p = "inventory"%string ->
       exists rows,
         ListHostsInPack (p_id p) noListOptions
           (connect (committed (snd (ApplyPackSpecs [Sample.inventory]
                                       (connect Sample.host_2_targeted)))))
         = ((rows, None),
            connect (committed (snd (ApplyPackSpecs [Sample.inventory]
                                       (connect Sample.host_2_targeted)))))
         /\ NoDup rows.
Proof.
  assert (H : ApplyPackSpecs [Sample.inventory] (connect Sample.host_2_targeted)
              = (Returned None,
                 snd (ApplyPackSpecs [Sample.inventory]
                        (connect Sample.host_2_targeted))))
    by (vm_compute; reflexivity).
  split; [exact Sample_store_keys |].
  intros p Hp Hn.
  destruct (ApplyPackSpecs_then_ListHostsInPack [Sample.inventory]
              (connect Sample.host_2_targeted) _ Sample_store_keys H
              [] Sample.inventory [] eq_refl ltac:(intros s []) p Hp Hn)
    as (rows & E & ND & _).
  exists rows. auto.
Defined.

(* ================================================================== *)
(** ** Failures at commit, and the read-back transaction *)

Lemma apply_each_tx_open specs d1 d2 t :
  tx d1 = Some t ->
  apply_each specs d1 = (inl tt, d2) ->
  exists t', tx d2 = Some t' /\ committed d2 = committed d1.
Proof.
  intros T L.
  pose proof (apply_each_keeps specs d1) as K. rewrite L in K. simpl in K.
  apply apply_each_erasable in L.
  assert (clear_faults d1 = live (committed d1) t) as Cl.
  { unfold clear_faults, live. rewrite T. reflexivity. }
  rewrite Cl in L. apply apply_each_live_inv in L.
  destruct L as [t' [_ D2]]. exists t'. split; [| exact K].
  change (tx d2) with (tx (clear_faults d2)). rewrite D2. reflexivity.
Qed.

(** X21.  A commit that fails: when every spec of the batch went through
    and the store fails the commit, [ApplyPackSpecs] returns that failure
    wrapped with "commit transaction"; the rollback that the deferred
    closure then attempts finds the transaction finished
    ([sql.ErrTxDone]), which it lets pass; nothing is committed and no
    transaction is left open. *)
Theorem ApplyPackSpecs_commit_failure (specs : list PackSpec) (d d1 d2 : Datastore)
    (e : error) (fs : list (option error)) :
  Beginx d = (inl tt, d1) ->
  apply_each specs d1 = (inl tt, d2) ->
  faults d2 = Some e :: fs ->
  ApplyPackSpecs specs d
  = (Returned (Some (withMessage e "commit transaction")),
     {| committed := committed d; tx := None; faults := fs |}).
Proof.
  intros B L F. unfold ApplyPackSpecs. rewrite B, L.
  destruct (Beginx_ok _ _ B) as [Bc Bt].
  destruct (apply_each_tx_open _ _ _ _ Bt L) as [t' [T2 C2]].
  unfold Commit, next_fault. rewrite T2, F. simpl.
  unfold Rollback. simpl. rewrite C2, Bc. reflexivity.
Qed.

Lemma ApplyPackSpecs_commit_failure_witness :
  ApplyPackSpecs [Sample.empty_pack]
    {| committed := Sample.store; tx := None;
       faults := [None; None; None; None; None;
                  Some (MySQLError 2013 "Lost connection to MySQL server during query")] |}
  = (Returned
       (Some (withMessage
                (MySQLError 2013 "Lost connection to MySQL server during query")
                "commit transaction")),
     connect Sample.store).
Proof.
  apply (ApplyPackSpecs_commit_failure [Sample.empty_pack]
           {| committed := Sample.store; tx := None;
              faults := [None; None; None; None; None;
                         Some (MySQLError 2013
                                 "Lost connection to MySQL server during query")] |}
           (snd (Beginx
                   {| committed := Sample.store; tx := None;
                      faults := [None; None; None; None; None;
                                 Some (MySQLError 2013
                                         "Lost connection to MySQL server during query")] |}))
           (snd (apply_each [Sample.empty_pack]
                   (snd (Beginx
                           {| committed := Sample.store; tx := None;
                              faults := [None; None; None; None; None;
                                         Some (MySQLError 2013
                                                 "Lost connection to MySQL server during query")] |}))))).
  - vm_compute. reflexivity.
  - vm_compute. reflexivity.
  - vm_compute. reflexivity.
Defined.











Lemma select_target_label_names_In pid t l :
  In l (select_target_label_names pid TargetLabel t) <->
  exists lr pt,
    In lr (labels t) /\ l_name lr = l /\ In pt (pack_targets t)
    /\ pt_pack_id pt = pid /\ pt_type pt = TargetLabel
    /\ pt_target_id pt = Some (l_id lr).
Proof.
  unfold select_target_label_names. rewrite in_flat_map. split.
  - intros [lr [Hlr H]]. apply in_map_iff in H. destruct H as [pt [<- H]].
    apply filter_In in H. destruct H as [Hpt C].
    rewrite !andb_true_iff in C. destruct C as ((C1 & C2) & C3).
    apply N.eqb_eq in C1. apply TargetType_eqb_eq in C2. apply target_is in C3.
    exists lr, pt. auto 10.
  - intros (lr & pt & Hlr & <- & Hpt & C1 & C2 & C3).
    exists lr. split; [exact Hlr |].
    apply in_map_iff. exists pt. split; [reflexivity |].
    apply filter_In. split; [exact Hpt |].
    rewrite !andb_true_iff. repeat split.
    + apply N.eqb_eq. exact C1.
    + apply TargetType_eqb_eq. exact C2.
    + apply target_is. exact C3.
Qed.

Lemma Forall2_map_right {A B} (R : A -> B -> Prop) (f : A -> B) (l : list A) :
  (forall x, In x l -> R x (f x)) -> Forall2 R l (map f l).
Proof.
  induction l as [| x l IH]; simpl; intro H; constructor.
  - apply H. auto.
  - apply IH. intros. apply H. auto.
Qed.

(** X23.  What [GetPackSpecs] returns on a store that meets no failure:
    one spec per row of the pack table, in the order of the table and
    whether the row is deleted or disabled or not; each carries the id,
    name, description and platform of its row, the scheduled queries of the
    pack in the order of their rows, and as label names the names of the
    labels, deleted or not, that a target of kind Label of the pack refers
    to.  A target without a label id gives no name. *)
Theorem GetPackSpecs_spec (t : Tables) :
  exists out,
    GetPackSpecs (connect t) = (Returned (out, None), connect t)
    /\ Forall2
         (fun p r =>
            ID r = p_id p /\ Name r = p_name p
            /\ Description r = p_description p /\ Platform r = p_platform p
            /\ Queries r
               = map (fun row =>
                        {| QueryName := sq_query_name row; QName := sq_name row;
                           QDescription := sq_description row;
                           Interval := sq_interval row; Snapshot := sq_snapshot row;
                           Removed := sq_removed row; Shard := sq_shard row;
                           QPlatform := sq_platform row; Version := sq_version row |})
                     (filter (fun row => sq_pack_id row =? p_id p)
                        (scheduled_queries t))
            /\ forall l, In l (Labels (Targets r)) <->
                 exists lr pt,
                   In lr (labels t) /\ l_name lr = l /\ In pt (pack_targets t)
                   /\ pt_pack_id pt = p_id p /\ pt_type pt = TargetLabel
                   /\ pt_target_id pt = Some (l_id lr))
         (packs t) out.
Proof.
  exists (map (read_back t) (packs t)).
  split; [apply GetPackSpecs_connect |].
  apply Forall2_map_right. intros p _. simpl.
  repeat split; try reflexivity.
  - apply select_target_label_names_In.
  - apply select_target_label_names_In.
Qed.

(* ================================================================== *)
(** ** The logging middleware *)

Section LoggingMiddlewareFacts.

Variables (Context S L : Type).
Variable next : service.Service Context S.
Variable logger : service.Logger L.
Variable now : nat -> Z.

(** One call through the middleware: what the embedded service returns and
    does to its state, two readings of the clock, one record logged. *)
Lemma perform_loggingMiddleware (c : service.call Context) (w : service.World S L) :
  service.perform (service.loggingMiddleware Context S L next logger now) c w
  = (fst (service.perform next c (service.inner w)),
     {| service.inner := snd (service.perform next c (service.inner w));
        service.logs :=
          snd (service.Log logger
                 [service.kv_string "method";
                  service.kv_string (service.method_of c);
                  service.kv_string "err";
                  service.kv_error
                    (service.err_of (fst (service.perform next c (service.inner w))));
                  service.kv_string "took";
                  service.kv_duration
                    (service.Sub (now (Datatypes.S (service.ticks w)))
                       (now (service.ticks w)))]
                 (service.logs w));
        service.ticks := Datatypes.S (Datatypes.S (service.ticks w)) |}).
Proof.
  destruct c as [ctx opt | ctx id | ctx name]; simpl;
    unfold service.mw_ListLabels, service.mw_GetLabel, service.mw_DeleteLabel,
      service.log_call, service.Now; simpl.
  - destruct (service.ListLabels next ctx opt (service.inner w)) as [[labels err] s].
    simpl. destruct (service.Log logger _ (service.logs w)). reflexivity.
  - destruct (service.GetLabel next ctx id (service.inner w)) as [[label err] s].
    simpl. destruct (service.Log logger _ (service.logs w)). reflexivity.
  - destruct (service.DeleteLabel next ctx name (service.inner w)) as [err s].
    simpl. destruct (service.Log logger _ (service.logs w)). reflexivity.
Qed.

(** X24.  The logging middleware is transparent.  Whatever the service it
    embeds, whatever its logger does (failing included) and whatever the
    clock says, a sequence of calls of [ListLabels], [GetLabel] and
    [DeleteLabel] made through the middleware returns what the same calls
    return when made on the embedded service, and leaves that service in
    the same state; each call reads the clock twice. *)
Theorem loggingMiddleware_transparent (cs : list (service.call Context))
    (w : service.World S L) :
  fst (service.perform_all (service.loggingMiddleware Context S L next logger now) cs w)
  = fst (service.perform_all next cs (service.inner w))
  /\ service.inner
       (snd (service.perform_all
               (service.loggingMiddleware Context S L next logger now) cs w))
     = snd (service.perform_all next cs (service.inner w))
  /\ service.ticks
       (snd (service.perform_all
               (service.loggingMiddleware Context S L next logger now) cs w))
     = (service.ticks w + 2 * List.length cs)%nat.
Proof.
  revert w. induction cs as [| c cs IH]; intro w; simpl.
  - repeat split. lia.
  - rewrite perform_loggingMiddleware.
    destruct (service.perform next c (service.inner w)) as [r s1] eqn:P. simpl.
    match goal with
    | |- context [service.perform_all _ cs ?w1] =>
        specialize (IH w1);
        destruct (service.perform_all
                    (service.loggingMiddleware Context S L next logger now) cs w1)
          as [rs w2]
    end.
    simpl in IH. destruct IH as (I1 & I2 & I3).
    destruct (service.perform_all next cs s1) as [rs' s2]. simpl in *.
    subst. repeat split. lia.
Qed.

End LoggingMiddlewareFacts.

(** X25.  With a logger that keeps what it is given, a sequence of calls
    made through the middleware adds exactly one record per call, in the
    order of the calls, after the records already there.  The record of a
    call names the method called, carries the error that the call returned
    to its caller, and as the time taken the difference, saturated to a
    Duration, between a reading of the clock and an earlier one. *)
Theorem loggingMiddleware_records (Context S : Type)
    (next : service.Service Context S) (now : nat -> Z)
    (cs : list (service.call Context))
    (w : service.World S (list (list service.keyval))) :
  exists records,
    service.logs
      (snd (service.perform_all
              (service.loggingMiddleware Context S _ next service.recorder now) cs w))
    = service.logs w ++ records
    /\ Forall2
         (fun cr record =>
            exists i j,
              (i < j)%nat
              /\ record =
                 [service.kv_string "method";
                  service.kv_string (service.method_of (fst cr));
                  service.kv_string "err";
                  service.kv_error (service.err_of (snd cr));
                  service.kv_string "took";
                  service.kv_duration (service.Sub (now j) (now i))])
         (combine cs (fst (service.perform_all next cs (service.inner w))))
         records.
Proof.
  revert w. induction cs as [| c cs IH]; intro w; simpl.
  - exists []. rewrite app_nil_r. split; [reflexivity | constructor].
  - rewrite perform_loggingMiddleware.
    destruct (service.perform next c (service.inner w)) as [r s1] eqn:P. simpl.
    match goal with
    | |- context [service.perform_all _ cs ?w1] =>
        destruct (IH w1) as (records & E & F);
        destruct (service.perform_all
                    (service.loggingMiddleware Context S _ next service.recorder now)
                    cs w1)
          as [rs w2]
    end.
    simpl in E, F.
    destruct (service.perform_all next cs s1) as [rs' s2]. simpl in *.
    eexists (_ :: records). split.
    + rewrite E, <- app_assoc. reflexivity.
    + constructor; [| exact F].
      exists (service.ticks w), (Datatypes.S (service.ticks w)).
      split; [lia | reflexivity].
Qed.

(** X26.  The two directions of the targeting agree on labels: a pack
    that [ListPacksForHost] returns for a host of the host table has that
    host among the hosts that [ListHostsInPack] returns for it. *)
Theorem ListPacksForHost_within_ListHostsInPack (t : Tables) (hid : N) (p : kolide.Pack) :
  In hid (map h_id (hosts t)) ->
  In p (fst (fst (ListPacksForHost hid (connect t)))) ->
  In hid (fst (fst (ListHostsInPack (p_id p) noListOptions (connect t)))).
Proof.
  intros Hh Hp.
  change (In p (select_packs_for_host TargetLabel hid t)) in Hp.
  change (In hid (select_hosts_in_pack TargetLabel TargetHost (p_id p) t)).
  apply select_packs_for_host_In in Hp.
  destruct Hp as (_ & _ & pt & lqe & Hpt & Hl & C1 & C2 & C3 & C4 & C5).
  apply select_hosts_in_pack_In. split; [exact Hh |].
  exists pt, lqe. auto 10.
Qed.

Lemma ListPacksForHost_within_ListHostsInPack_witness :
  In 1 (map h_id (hosts Sample.soft_deleted))
  /\ In 1 (fst (fst (ListHostsInPack 7 noListOptions (connect Sample.soft_deleted)))).
Proof.
  split; [simpl; auto |].
  apply (ListPacksForHost_within_ListHostsInPack Sample.soft_deleted 1
           {| p_id := 7; p_name := "inventory"; p_description := "hardware";
              p_platform := ""; p_disabled := false; p_deleted := true |}).
  - simpl. auto.
  - vm_compute. auto.
Defined.
